(** * City-growth simulator (city_sim.cpp): shallow embedding and properties

    The simulator keeps a grid of cell tags, a parallel grid of building
    records, the road and water coordinate sequences, the cars and the step
    counter in global variables, and draws all its randomness from one
    Mersenne-Twister engine [gen].  The embedding below keeps the same
    shape: a [State] record holds the globals, the engine is the field
    [rng] (the sequence of raw values the engine is going to return), and
    every routine of the source is a function on [State].

    Conventions.
    - C++ [int] is [Z].  Signed overflow is undefined behaviour in C++ and
      the main loop stops at [MAX_SIMULATION_STEPS], so no wrap-around is
      written; [/] and [%] on [int] are [Z.quot] and [Z.rem], on the
      unsigned engine output they are [Z.div] and [Z.modulo].
    - [std::vector<std::vector<T>>] is [list (list T)], addressed [x] then
      [y] as in the source.
    - [float] is an interface ([FloatOps]); no rounding behaviour is
      assumed unless a theorem says so.
    - The grid dimensions are an interface as well ([Dim]); the source
      fixes them to 1280/16 and 720/16 ([sourceDim]).

    Part I holds the embedding and the notions the properties are stated
    with, Part II the lemmas and the properties. *)

From Stdlib Require Import ZArith Lia QArith.
From stdpp Require Import base tactics option list numbers.

Local Open Scope Z_scope.

(** ** Data model *)

Inductive CellType : Set :=
  | EMPTY | ROAD | RESIDENTIAL | COMMERCIAL | INDUSTRIAL
  | WATER | PARK | POWER_PLANT | GOVERNMENT | FOREST | FARM.

Inductive BuildingStyle : Set := BASIC | MODERN | HISTORIC | FANCY.

#[global] Instance CellType_eq_dec : EqDecision CellType.
Proof. solve_decision. Defined.

#[global] Instance BuildingStyle_eq_dec : EqDecision BuildingStyle.
Proof. solve_decision. Defined.

Record Building : Set := mkBuilding {
  b_type : CellType;
  density : Z;
  age : Z;
  style : BuildingStyle;
  variant : Z;
  hasTree : bool;
  hasCar : bool
}.

(** [{EMPTY, 0, 0, BASIC, 0, false, false}] *)
Definition emptyBuilding : Building :=
  mkBuilding EMPTY 0 0 BASIC 0 false false.

(** Direction vectors for neighbours: [dx[]] and [dy[]]. *)
Definition dx (i : Z) : Z := nth (Z.to_nat i) [-1; 0; 1; 0; -1; -1; 1; 1] 0.
Definition dy (i : Z) : Z := nth (Z.to_nat i) [0; 1; 0; -1; -1; 1; 1; -1] 0.

Definition INITIAL_ROADS : Z := 30.
Definition MAX_SIMULATION_STEPS : Z := 10000.

(** [static_cast<BuildingStyle>(n)] for [n] in 0..3. *)
Definition styleOfInt (n : Z) : BuildingStyle :=
  if n =? 0 then BASIC else if n =? 1 then MODERN
  else if n =? 2 then HISTORIC else FANCY.

(** * Part I: the embedding *)

(** ** Two-dimensional vectors

    Every access in the source is guarded by [isValidCell] or by a loop
    bound; outside the vector C++ gives no meaning to the access, the
    model reads the default and writes nothing. *)

Section Vec2.
Context {A : Type}.

Definition cell (dflt : A) (g : list (list A)) (x y : Z) : A :=
  if (0 <=? x) && (0 <=? y) then
    match g !! Z.to_nat x with
    | Some col => default dflt (col !! Z.to_nat y)
    | None => dflt
    end
  else dflt.

Definition setCell (g : list (list A)) (x y : Z) (v : A) : list (list A) :=
  if (0 <=? x) && (0 <=? y) then
    alter (fun col => <[Z.to_nat y := v]> col) (Z.to_nat x) g
  else g.

(** The shape [resize(w, vector(h, _))] gives. *)
Definition shaped (w h : Z) (g : list (list A)) : Prop :=
  length g = Z.to_nat w /\ Forall (fun col => length col = Z.to_nat h) g.

End Vec2.

(** ** The random engine

    [rng] is the sequence of raw values [gen()] is going to return, each
    reduced to the 32 bits [std::mt19937] produces; once the sequence is
    used up the engine returns 0.  A distribution object consumes one raw
    value and maps it into its range (the standard fixes the range, not
    the mapping), and [std::shuffle] is the forward Fisher-Yates loop. *)

Definition gen (r : list Z) : Z * list Z :=
  match r with
  | [] => (0, [])
  | v :: r' => (v mod 2 ^ 32, r')
  end.

(** [std::uniform_int_distribution<int> d(a, b); d(gen)] *)
Definition uniform_int (a b : Z) (r : list Z) : Z * list Z :=
  let '(v, r') := gen r in (a + v mod (b - a + 1), r').

Definition swap {A} (l : list A) (i j : nat) : list A :=
  match l !! i, l !! j with
  | Some a, Some b => <[i := b]> (<[j := a]> l)
  | _, _ => l
  end.

Fixpoint shuffleFrom {A} (n i : nat) (l : list A) (r : list Z)
  : list A * list Z :=
  match n with
  | O => (l, r)
  | S n' =>
      let '(j, r1) := uniform_int 0 (Z.of_nat i) r in
      shuffleFrom n' (S i) (swap l i (Z.to_nat j)) r1
  end.

(** [std::shuffle(l.begin(), l.end(), gen)] *)
Definition shuffle {A} (l : list A) (r : list Z) : list A * list Z :=
  shuffleFrom (length l - 1) 1 l r.

(** ** Floating point

    The cars keep [float] coordinates.  The routines only add, multiply,
    convert from [int] and truncate to [int], and draw a speed from
    [uniform_real_distribution<float>(0.05f, 0.2f)]. *)

Class FloatOps : Type := {
  float : Type;
  of_int : Z -> float;          (* implicit int -> float conversion *)
  to_int : float -> Z;          (* static_cast<int>, truncation toward zero *)
  fadd : float -> float -> float;
  fmul : float -> float -> float;
  dist_speed : Z -> float       (* the speed distribution on one raw value *)
}.

(** The routines that are called during a tick, for the call log of
    [simulationStep]. *)
Inductive Call : Set := CallUpdateCars | CallGrowCity | CallRoadExtension.

#[global] Instance Call_eq_dec : EqDecision Call.
Proof. solve_decision. Defined.

(** The grid dimensions.  The source fixes them at compile time
    ([sourceDim] below); the routines only ever read them. *)
Class Dim : Set := {
  GRID_WIDTH : Z;
  GRID_HEIGHT : Z
}.

Section CitySim.
Context {D : Dim} {FO : FloatOps}.

Record Car := mkCar {
  car_x : float;
  car_y : float;
  speed : float;
  direction : Z;
  roadIndex : Z;
  color : Z * Z * Z * Z
}.

(** The globals of the program.  [lastWaterAnimTime] and
    [waterAnimPhase] follow the wall clock and only feed the renderer;
    they are kept apart, in [Anim] below. *)
Record State := mkState {
  grid : list (list CellType);
  buildings : list (list Building);
  cars : list Car;
  roads : list (Z * Z);
  waterCells : list (Z * Z);
  currentStep : Z;
  rng : list Z
}.

Definition set_grid g (s : State) :=
  mkState g (buildings s) (cars s) (roads s) (waterCells s) (currentStep s) (rng s).
Definition set_buildings b (s : State) :=
  mkState (grid s) b (cars s) (roads s) (waterCells s) (currentStep s) (rng s).
Definition set_cars c (s : State) :=
  mkState (grid s) (buildings s) c (roads s) (waterCells s) (currentStep s) (rng s).
Definition set_roads r (s : State) :=
  mkState (grid s) (buildings s) (cars s) r (waterCells s) (currentStep s) (rng s).
Definition set_waterCells w (s : State) :=
  mkState (grid s) (buildings s) (cars s) (roads s) w (currentStep s) (rng s).
Definition set_currentStep n (s : State) :=
  mkState (grid s) (buildings s) (cars s) (roads s) (waterCells s) n (rng s).
Definition set_rng r (s : State) :=
  mkState (grid s) (buildings s) (cars s) (roads s) (waterCells s) (currentStep s) r.

(** [gen()] and a distribution call on the global engine. *)
Definition draw (s : State) : Z * State :=
  let '(v, r) := gen (rng s) in (v, set_rng r s).
Definition drawUniform (a b : Z) (s : State) : Z * State :=
  let '(v, r) := uniform_int a b (rng s) in (v, set_rng r s).

(** [grid[x][y]] and [buildings[x][y]] *)
Definition tag (s : State) (x y : Z) : CellType := cell EMPTY (grid s) x y.
Definition record (s : State) (x y : Z) : Building :=
  cell emptyBuilding (buildings s) x y.

Definition setTag (x y : Z) (t : CellType) (s : State) : State :=
  set_grid (setCell (grid s) x y t) s.
Definition setRecord (x y : Z) (b : Building) (s : State) : State :=
  set_buildings (setCell (buildings s) x y b) s.

Definition isValidCell (x y : Z) : bool :=
  (0 <=? x) && (x <? GRID_WIDTH) && (0 <=? y) && (y <? GRID_HEIGHT).

Definition countNeighborsOfType (s : State) (x y : Z) (type : CellType) : Z :=
  foldl (fun count i =>
           let nx := x + dx i in
           let ny := y + dy i in
           if isValidCell nx ny && bool_decide (tag s nx ny = type)
           then count + 1 else count)
        0 (seqZ 0 4).

Definition countNeighborsOfTypeInRadius
    (s : State) (x y : Z) (type : CellType) (radius : Z) : Z :=
  foldl (fun count i =>
    foldl (fun count j =>
             if (i =? 0) && (j =? 0) then count
             else
               let nx := x + i in
               let ny := y + j in
               if isValidCell nx ny && bool_decide (tag s nx ny = type)
               then count + 1 else count)
          count (seqZ (- radius) (2 * radius + 1)))
    0 (seqZ (- radius) (2 * radius + 1)).

(** *** generateTerrain *)

Definition claimWater (x y : Z) (s : State) : State :=
  set_waterCells (waterCells s ++ [(x, y)]) (setTag x y WATER s).

(** The 3x3 block of a river segment. *)
Definition stampRiver (curX curY : Z) (s : State) : State :=
  foldl (fun s ox =>
    foldl (fun s oy =>
             let nx := curX + ox in
             let ny := curY + oy in
             if isValidCell nx ny && bool_decide (tag s nx ny = EMPTY)
             then claimWater nx ny s else s)
          s (seqZ (-1) 3))
    s (seqZ (-1) 3).

(** [dir = (dir + (gen() % 3 - 1)) % 4; if (dir < 0) dir += 4;] with
    the sum taken in the unsigned type of the engine output (64 bits
    here; any width that 4 divides gives the same value). *)
Definition turnRiver (dir g : Z) : Z :=
  let d := ((dir + (g mod 3 - 1)) mod 2 ^ 64) mod 4 in
  if d <? 0 then d + 4 else d.

Fixpoint riverWalk (n : nat) (dir curX curY : Z) (s : State) : State :=
  match n with
  | O => s
  | S n' =>
      let '(g1, s1) := draw s in
      let '(dir1, s2) :=
        if g1 mod 5 =? 0
        then let '(g2, s2) := draw s1 in (turnRiver dir g2, s2)
        else (dir, s1) in
      let s3 := stampRiver curX curY s2 in
      let curX' := curX + dx dir1 in
      let curY' := curY + dy dir1 in
      if isValidCell curX' curY' then riverWalk n' dir1 curX' curY' s3
      else s3
  end.

(** The four [dist_expand(gen) < chance] trials after a claim. *)
Definition expandFrontier (chance x y : Z) (queue : list (Z * Z)) (s : State)
  : list (Z * Z) * State :=
  foldl (fun (qs : list (Z * Z) * State) d =>
           let '(v, s1) := drawUniform 0 100 (snd qs) in
           if v <? chance
           then (fst qs ++ [(x + dx d, y + dy d)], s1)
           else (fst qs, s1))
        (queue, s) (seqZ 0 4).

(** The region-growing loop, written twice in the source (lake,
    forest) with a different claim and expansion chance.  Each round
    pops one cell and either skips it or spends one unit of [size] and
    pushes at most four cells, so [regionFuel] rounds are enough
    ([regionGrow_fuel] below). *)
Fixpoint regionGrow (fuel : nat) (claim : Z -> Z -> State -> State)
    (chance : Z) (queue : list (Z * Z)) (size : Z) (s : State) : State :=
  match fuel with
  | O => s
  | S fuel' =>
      match queue with
      | [] => s
      | (x, y) :: queue' =>
          if size <=? 0 then s
          else if negb (isValidCell x y) || negb (bool_decide (tag s x y = EMPTY))
          then regionGrow fuel' claim chance queue' size s
          else
            let s1 := claim x y s in
            let '(queue2, s2) := expandFrontier chance x y queue' s1 in
            regionGrow fuel' claim chance queue2 (size - 1) s2
      end
  end.

Definition regionFuel (queue : list (Z * Z)) (size : Z) : nat :=
  (5 * Z.to_nat size + length queue)%nat.

Definition withType (t : CellType) (b : Building) : Building :=
  mkBuilding t (density b) (age b) (style b) (variant b) (hasTree b) (hasCar b).
Definition withVariant (v : Z) (b : Building) : Building :=
  mkBuilding (b_type b) (density b) (age b) (style b) v (hasTree b) (hasCar b).

(** [grid[x][y] = t; buildings[x][y].type = t;
     buildings[x][y].variant = gen() % 3;] *)
Definition claimGreen (t : CellType) (x y : Z) (s : State) : State :=
  let s1 := setTag x y t s in
  let s2 := setRecord x y (withType t (record s1 x y)) s1 in
  let '(v, s3) := draw s2 in
  setRecord x y (withVariant (v mod 3) (record s3 x y)) s3.

Definition waterBody (s : State) : State :=
  let '(startX, s) := drawUniform 5 (GRID_WIDTH - 5) s in
  let '(startY, s) := drawUniform 5 (GRID_HEIGHT - 5) s in
  let '(kind, s) := drawUniform 0 1 s in
  if kind =? 0 then
    let '(g1, s) := draw s in
    let length := 15 + g1 mod 20 in
    let '(g2, s) := draw s in
    let dir := g2 mod 4 in
    riverWalk (Z.to_nat length) dir startX startY s
  else
    let queue := [(startX, startY)] in
    let '(size, s) := drawUniform 20 40 s in
    regionGrow (regionFuel queue size) claimWater 70 queue size s.

Definition forestPatch (s : State) : State :=
  let '(startX, s) := drawUniform 5 (GRID_WIDTH - 5) s in
  let '(startY, s) := drawUniform 5 (GRID_HEIGHT - 5) s in
  let queue := [(startX, startY)] in
  let '(size, s) := drawUniform 10 30 s in
  regionGrow (regionFuel queue size) (claimGreen FOREST) 60 queue size s.

Definition farmPatch (s : State) : State :=
  let '(startX, s) := drawUniform 5 (GRID_WIDTH - 5) s in
  let '(startY, s) := drawUniform 5 (GRID_HEIGHT - 5) s in
  let '(width, s) := drawUniform 5 10 s in
  let '(height, s) := drawUniform 5 10 s in
  foldl (fun s x =>
    foldl (fun s y =>
             let nx := startX + x in
             let ny := startY + y in
             if isValidCell nx ny && bool_decide (tag s nx ny = EMPTY)
             then claimGreen FARM nx ny s else s)
          s (seqZ 0 height))
    s (seqZ 0 width).

(** [for (int i = 0; i < n; i++) body;] for a body that does not use [i]. *)
Definition times (n : Z) (body : State -> State) (s : State) : State :=
  foldl (fun s _ => body s) s (seqZ 0 n).

Definition generateTerrain (s : State) : State :=
  let '(waterBodies, s) := drawUniform 1 3 s in
  let s := times waterBodies waterBody s in
  let '(forestCount, s) := drawUniform 2 5 s in
  let s := times forestCount forestPatch s in
  let '(farmCount, s) := drawUniform 1 3 s in
  times farmCount farmPatch s.

(** *** generateInitialRoads and addRandomCar *)

(** [grid[x][y] = ROAD; roads.push_back({x, y});] *)
Definition claimRoad (x y : Z) (s : State) : State :=
  set_roads (roads s ++ [(x, y)]) (setTag x y ROAD s).

(** The body of a branch road: step, claim, or stop at the first cell
    that is out of the grid or not empty. *)
Fixpoint branchWalk (n : nat) (dir x y : Z) (s : State) : State :=
  match n with
  | O => s
  | S n' =>
      let x' := x + dx dir in
      let y' := y + dy dir in
      if isValidCell x' y' && bool_decide (tag s x' y' = EMPTY)
      then branchWalk n' dir x' y' (claimRoad x' y' s)
      else s
  end.

Definition branchRoad (mainRoadX mainRoadY : Z) (s : State) (i : Z) : State :=
  let '(x, y, s) :=
    if Z.rem i 2 =? 0
    then let '(x, s) := drawUniform 0 (GRID_WIDTH - 1) s in (x, mainRoadY, s)
    else let '(y, s) := drawUniform 0 (GRID_HEIGHT - 1) s in (mainRoadX, y, s) in
  let '(dir, s) := drawUniform 0 3 s in
  let '(length, s) := drawUniform 5 15 s in
  branchWalk (Z.to_nat length) dir x y s.

Definition addRandomCar (s : State) : State :=
  match roads s with
  | [] => s
  | _ :: _ =>
      let '(roadIndex, s1) :=
        drawUniform 0 (Z.of_nat (length (roads s)) - 1) s in
      let '(x, y) := default (0, 0) (roads s !! Z.to_nat roadIndex) in
      let '(g, s2) := draw s1 in
      let '(dir, s3) := drawUniform 0 3 s2 in
      let '(cr, s4) := drawUniform 150 250 s3 in
      let '(cg, s5) := drawUniform 150 250 s4 in
      let '(cb, s6) := drawUniform 150 250 s5 in
      let car := mkCar (of_int x) (of_int y) (dist_speed g) dir roadIndex
                       (cr, cg, cb, 255) in
      set_cars (cars s6 ++ [car]) s6
  end.

Definition generateInitialRoads (s : State) : State :=
  let mainRoadY := Z.quot GRID_HEIGHT 2 in
  let s := foldl (fun s x =>
                    if bool_decide (tag s x mainRoadY = EMPTY)
                    then claimRoad x mainRoadY s else s)
                 s (seqZ 0 GRID_WIDTH) in
  let mainRoadX := Z.quot GRID_WIDTH 2 in
  let s := foldl (fun s y =>
                    if bool_decide (tag s mainRoadX y = EMPTY)
                    then claimRoad mainRoadX y s else s)
                 s (seqZ 0 GRID_HEIGHT) in
  let s := foldl (branchRoad mainRoadX mainRoadY) s (seqZ 0 INITIAL_ROADS) in
  times 15 addRandomCar s.

(** The globals after the two [resize] calls and the reset loop of
    [initializeGrid]; [r] is what the engine is going to return. *)
Definition blank (r : list Z) : State :=
  mkState
    (replicate (Z.to_nat GRID_WIDTH) (replicate (Z.to_nat GRID_HEIGHT) EMPTY))
    (replicate (Z.to_nat GRID_WIDTH)
               (replicate (Z.to_nat GRID_HEIGHT) emptyBuilding))
    [] [] [] 0 r.

(** [initializeGrid], run once on the freshly constructed globals. *)
Definition initializeGrid (r : list Z) : State :=
  generateInitialRoads (generateTerrain (blank r)).

(** *** updateCars *)

Definition blocked (s : State) (nextX nextY : float) : bool :=
  negb (isValidCell (to_int nextX) (to_int nextY))
  || negb (bool_decide (tag s (to_int nextX) (to_int nextY) = ROAD)).

(** The [possibleDirs] loop. *)
Definition possibleDirs (s : State) (car : Car) : list Z :=
  foldl (fun dirs d =>
           if d =? Z.rem (direction car + 2) 4 then dirs
           else
             let nx := to_int (car_x car) + dx d in
             let ny := to_int (car_y car) + dy d in
             if isValidCell nx ny && bool_decide (tag s nx ny = ROAD)
             then dirs ++ [d] else dirs)
        [] (seqZ 0 4).

Definition stepX (car : Car) (dir : Z) : float :=
  fadd (car_x car) (fmul (of_int (dx dir)) (speed car)).
Definition stepY (car : Car) (dir : Z) : float :=
  fadd (car_y car) (fmul (of_int (dy dir)) (speed car)).

Definition moveTo (nextX nextY : float) (dir : Z) (car : Car) : Car :=
  mkCar nextX nextY (speed car) dir (roadIndex car) (color car).

(** One round of the loop over the cars; the grid and the roads are
    only read, the engine is advanced. *)
Definition moveCar (s : State) (car : Car) (r : list Z) : Car * list Z :=
  let nextX := stepX car (direction car) in
  let nextY := stepY car (direction car) in
  if blocked s nextX nextY then
    match possibleDirs s car with
    | (_ :: _) as dirs =>
        let '(k, r1) := uniform_int 0 (Z.of_nat (length dirs) - 1) r in
        let dir := default 0 (dirs !! Z.to_nat k) in
        (moveTo (stepX car dir) (stepY car dir) dir car, r1)
    | [] =>
        let '(idx, r1) := uniform_int 0 (Z.of_nat (length (roads s)) - 1) r in
        let '(newX, newY) := default (0, 0) (roads s !! Z.to_nat idx) in
        let '(dir, r2) := uniform_int 0 3 r1 in
        (mkCar (of_int newX) (of_int newY) (speed car) dir idx (color car), r2)
    end
  else (moveTo nextX nextY (direction car) car, r).

Fixpoint moveCars (s : State) (cs : list Car) (r : list Z)
  : list Car * list Z :=
  match cs with
  | [] => ([], r)
  | car :: cs' =>
      let '(car', r1) := moveCar s car r in
      let '(cs'', r2) := moveCars s cs' r1 in
      (car' :: cs'', r2)
  end.

Definition updateCars (s : State) : State :=
  match roads s with
  | [] => s
  | _ :: _ =>
      let '(cs, r) := moveCars s (cars s) (rng s) in
      let s1 := set_rng r (set_cars cs s) in
      let '(g, s2) := draw s1 in
      if (g mod 100 <? 5)
         && (Z.of_nat (length (cars s2)) <? Z.of_nat (length (roads s2)) / 5)
      then addRandomCar s2 else s2
  end.

(** *** growCity *)

(** The four cardinal neighbours, in the order of the [d] loop. *)
Definition neighbours4 (x y : Z) : list (Z * Z) :=
  (fun d => (x + dx d, y + dy d)) <$> seqZ 0 4.

Definition isEmptyCell (s : State) (c : Z * Z) : bool :=
  isValidCell c.1 c.2 && bool_decide (tag s c.1 c.2 = EMPTY).

(** The candidate list of the first loop: one entry per (road cell,
    direction) pair whose target is an empty cell of the grid. *)
Definition buildingSpots (s : State) : list (Z * Z) :=
  '(rx, ry) ← roads s; filter (fun c => isEmptyCell s c) (neighbours4 rx ry).

Definition chooseType (s : State) (x y randType : Z) : CellType :=
  let type :=
    if randType <? 60 then RESIDENTIAL
    else if randType <? 85 then COMMERCIAL
    else INDUSTRIAL in
  let type :=
    if (0 <? countNeighborsOfTypeInRadius s x y WATER 3) && (randType <? 80)
    then RESIDENTIAL else type in
  let type :=
    if ((0 <? countNeighborsOfTypeInRadius s x y PARK 3)
        || (0 <? countNeighborsOfTypeInRadius s x y FOREST 3))
       && (randType <? 75)
    then RESIDENTIAL else type in
  if (95 <? randType) && (50 <? currentStep s) then PARK else type.

Definition withTree (b : Building) : Building :=
  mkBuilding (b_type b) (density b) (age b) (style b) (variant b) true (hasCar b).
Definition withAge (a : Z) (b : Building) : Building :=
  mkBuilding (b_type b) (density b) a (style b) (variant b) (hasTree b) (hasCar b).
Definition withDensity (d : Z) (b : Building) : Building :=
  mkBuilding (b_type b) d (age b) (style b) (variant b) (hasTree b) (hasCar b).

(** One round of the placement loop, on the candidate [(x, y)]. *)
Definition placeBuilding (s : State) (c : Z * Z) : State :=
  let '(x, y) := c in
  let '(randType, s1) := drawUniform 0 100 s in
  let type := chooseType s1 x y randType in
  let s2 := setTag x y type s1 in
  let '(st, s3) := drawUniform 0 3 s2 in
  let '(va, s4) := drawUniform 0 4 s3 in
  let b := record s4 x y in
  let s5 := setRecord x y
              (mkBuilding type 1 0 (styleOfInt st) va (hasTree b) (hasCar b)) s4 in
  if bool_decide (type = RESIDENTIAL) || bool_decide (type = COMMERCIAL) then
    let '(t, s6) := drawUniform 0 100 s5 in
    if t <? 40 then setRecord x y (withTree (record s6 x y)) s6 else s6
  else s5.

(** The first [min(1 + currentStep/50, size)] shuffled candidates are
    built on. *)
Definition placeBuildings (s : State) : State :=
  let '(spots, r) := shuffle (buildingSpots s) (rng s) in
  let s := set_rng r s in
  let maxBuildingsPerStep := 1 + Z.quot (currentStep s) 50 in
  let newBuildings := Z.min maxBuildingsPerStep (Z.of_nat (length spots)) in
  foldl placeBuilding s (take (Z.to_nat newBuildings) spots).

(** [t != EMPTY && t != ROAD && t != WATER] *)
Definition isBuilt (t : CellType) : bool :=
  negb (bool_decide (t = EMPTY)) && negb (bool_decide (t = ROAD))
  && negb (bool_decide (t = WATER)).

(** The body of the maturation loops at cell [(x, y)]. *)
Definition matureCell (x y : Z) (s : State) : State :=
  if isBuilt (tag s x y) then
    let s1 := setRecord x y (withAge (age (record s x y) + 1) (record s x y)) s in
    let s2 :=
      if (Z.rem (age (record s1 x y)) 20 =? 0) && (density (record s1 x y) <? 3)
      then
        if bool_decide (tag s1 x y = RESIDENTIAL)
           || bool_decide (tag s1 x y = COMMERCIAL)
           || bool_decide (tag s1 x y = INDUSTRIAL)
        then
          let '(g, s') := draw s1 in
          if g mod 5 <? 3
          then setRecord x y
                 (withDensity (density (record s' x y) + 1) (record s' x y)) s'
          else s'
        else s1
      else s1 in
    if negb (hasTree (record s2 x y)) && bool_decide (tag s2 x y = RESIDENTIAL)
       && (Z.rem (age (record s2 x y)) 30 =? 0)
    then
      let '(g, s') := draw s2 in
      if g mod 10 <? 4 then setRecord x y (withTree (record s' x y)) s' else s'
    else s2
  else s.

Definition matureBuildings (s : State) : State :=
  foldl (fun s x => foldl (fun s y => matureCell x y s) s (seqZ 0 GRID_HEIGHT))
        s (seqZ 0 GRID_WIDTH).

(** The [nearRoad] flag of the road-candidate scan. *)
Definition nearRoad (s : State) (c : Z * Z) : bool :=
  existsb (fun n => isValidCell n.1 n.2 && bool_decide (tag s n.1 n.2 = ROAD))
          (neighbours4 c.1 c.2).

Definition allCells : list (Z * Z) :=
  x ← seqZ 0 GRID_WIDTH; y ← seqZ 0 GRID_HEIGHT; [(x, y)].

(** The candidate list of the road scan: one entry per (built cell,
    direction) pair whose target is empty and next to a road. *)
Definition roadSpots (s : State) : list (Z * Z) :=
  '(x, y) ← allCells;
  if isBuilt (tag s x y)
  then filter (fun c => isEmptyCell s c && nearRoad s c) (neighbours4 x y)
  else [].

(** The body of [if (currentStep % 10 == 0) { ... }]. *)
Definition extendRoads (s : State) : State :=
  let '(spots, r) := shuffle (roadSpots s) (rng s) in
  let s := set_rng r s in
  let maxRoadsPerStep := 1 + Z.quot (currentStep s) 100 in
  let newRoads := Z.min maxRoadsPerStep (Z.of_nat (length spots)) in
  foldl (fun s c => claimRoad c.1 c.2 s) s (take (Z.to_nat newRoads) spots).

Definition growCity (s : State) : State * list Call :=
  let s := matureBuildings (placeBuildings s) in
  if Z.rem (currentStep s) 10 =? 0
  then (extendRoads s, [CallRoadExtension])
  else (s, []).

(** *** simulationStep

    The state after the tick and the routines the tick called, in call
    order. *)
Definition simulationStep (s : State) : State * list Call :=
  let s1 := updateCars s in
  let '(s2, log) :=
    if Z.rem (currentStep s1) 3 =? 0
    then let '(s2, log) := growCity s1 in (s2, CallGrowCity :: log)
    else (s1, []) in
  (set_currentStep (currentStep s2 + 1) s2, CallUpdateCars :: log).

(** The main loop: [simulationStep] while
    [currentStep < MAX_SIMULATION_STEPS].  [ticks s s'] says that the
    loop takes [s] to [s']; the engine is free at every tick. *)
Inductive ticks (s : State) : State -> Prop :=
  | ticks_refl : ticks s s
  | ticks_step s' r :
      ticks s s' -> currentStep s' < MAX_SIMULATION_STEPS ->
      ticks s (simulationStep (set_rng r s')).1.

(** The states of a run: [initializeGrid], then the main loop. *)
Definition reachable (s : State) : Prop :=
  exists r, ticks (initializeGrid r) s.

(** ** Notions for stating the properties *)

(** [(x, y)] is a cell of the grid. *)
Definition inGrid (x y : Z) : Prop :=
  0 <= x < GRID_WIDTH /\ 0 <= y < GRID_HEIGHT.

(** The state invariant: the grid and the building grid keep their shape,
    the road sequence and the Road tags describe the same cells, every
    water-sequence entry is tagged Water, and no density exceeds 3. *)
Record Inv (s : State) : Prop := {
  inv_grid : shaped GRID_WIDTH GRID_HEIGHT (grid s);
  inv_bld : shaped GRID_WIDTH GRID_HEIGHT (buildings s);
  inv_roads : forall c, c ∈ roads s -> inGrid c.1 c.2 /\ tag s c.1 c.2 = ROAD;
  inv_road_tags : forall x y, inGrid x y -> tag s x y = ROAD -> (x, y) ∈ roads s;
  inv_water : forall c, c ∈ waterCells s -> inGrid c.1 c.2 /\ tag s c.1 c.2 = WATER;
  inv_density : forall x y, density (record s x y) <= 3
}.

(** [Grows s s'] relates a state to a later one of the same run once the
    terrain exists: a cell that has a tag keeps it, the cars, the water
    sequence and the step counter are untouched, roads are only added, and
    the record of a built cell does not lose age or density. *)
Record Grows (s s' : State) : Prop := {
  g_tags : forall x y, tag s x y <> EMPTY -> tag s' x y = tag s x y;
  g_cars : cars s' = cars s;
  g_water : waterCells s' = waterCells s;
  g_step : currentStep s' = currentStep s;
  g_roads : forall c, c ∈ roads s -> c ∈ roads s';
  g_records : forall x y, isBuilt (tag s x y) = true ->
    age (record s x y) <= age (record s' x y)
    /\ density (record s x y) <= density (record s' x y)
}.

(** The four types the placement loop writes. *)
Definition isPlaced (t : CellType) : bool :=
  bool_decide (t = RESIDENTIAL) || bool_decide (t = COMMERCIAL)
  || bool_decide (t = INDUSTRIAL) || bool_decide (t = PARK).

(** The invariant of the placement loop, relative to the state [s0] the
    candidates were collected in. *)
Record PlaceInv (s0 s : State) : Prop := {
  pl_inv : Inv s;
  pl_grows : Grows s0 s;
  pl_roads : roads s = roads s0;
  pl_tags : forall x y, tag s0 x y = EMPTY ->
              tag s x y = EMPTY \/ isPlaced (tag s x y) = true
}.

(** [RecUpd x y s s']: from [s] to [s'] only the engine and the record
    of cell [(x, y)] changed, and that record kept its type and lost
    neither age nor density. *)
Record RecUpd (x y : Z) (s s' : State) : Prop := {
  ru_grid : grid s' = grid s;
  ru_roads : roads s' = roads s;
  ru_cars : cars s' = cars s;
  ru_water : waterCells s' = waterCells s;
  ru_step : currentStep s' = currentStep s;
  ru_shape : shaped GRID_WIDTH GRID_HEIGHT (buildings s');
  ru_other : forall x' y', (x, y) <> (x', y') -> record s' x' y' = record s x' y';
  ru_type : b_type (record s' x y) = b_type (record s x y);
  ru_age : age (record s x y) <= age (record s' x y);
  ru_density : density (record s x y) <= density (record s' x y);
  ru_bound : density (record s x y) <= 3 -> density (record s' x y) <= 3
}.

(** The invariant of the maturation loops, relative to their start. *)
Record MatInv (s0 s : State) : Prop := {
  mt_inv : Inv s;
  mt_grows : Grows s0 s;
  mt_grid : grid s = grid s0;
  mt_roads : roads s = roads s0;
  mt_type : forall x y, b_type (record s x y) = b_type (record s0 x y);
  mt_idle : forall x y, isBuilt (tag s0 x y) = false -> record s x y = record s0 x y
}.

(** The invariant of the road-claiming loop, relative to the state the
    candidates were collected in. *)
Record ExtInv (s0 s : State) : Prop := {
  ex_inv : Inv s;
  ex_grows : Grows s0 s;
  ex_bld : buildings s = buildings s0;
  ex_tags : forall x y, tag s0 x y = EMPTY -> tag s x y = EMPTY \/ tag s x y = ROAD
}.

(** [Evolves s s']: what every later state [s'] of a run keeps of [s]. *)
Record Evolves (s s' : State) : Prop := {
  ev_tags : forall x y, tag s x y <> EMPTY -> tag s' x y = tag s x y;
  ev_water : waterCells s' = waterCells s;
  ev_roads : forall c, c ∈ roads s -> c ∈ roads s';
  ev_records : forall x y, isBuilt (tag s x y) = true ->
    age (record s x y) <= age (record s' x y)
    /\ density (record s x y) <= density (record s' x y)
}.

(** The opposite of a cardinal direction (0 left, 1 down, 2 right,
    3 up). *)
Definition reverse (d : Z) : Z :=
  if d =? 0 then 2 else if d =? 1 then 3 else if d =? 2 then 0 else 1.

(** Direction [d] leads from the integer cell of the car to a Road cell
    of the grid. *)
Definition leadsToRoad (s : State) (car : Car) (d : Z) : bool :=
  isValidCell (to_int (car_x car) + dx d) (to_int (car_y car) + dy d)
  && bool_decide (tag s (to_int (car_x car) + dx d) (to_int (car_y car) + dy d) = ROAD).

(** The directions a blocked car may turn to, in the words of the
    description: the four directions without the reverse of the current
    one, restricted to those that lead to a Road cell. *)
Definition candidateDirs (s : State) (car : Car) : list Z :=
  List.filter (fun d => negb (d =? reverse (direction car)) && leadsToRoad s car d)
              [0; 1; 2; 3].

(** What [moveCar] does with a blocked car, as relation between the car
    before and after the round. *)
Definition rerouted (s : State) (car car' : Car) : Prop :=
  speed car' = speed car
  /\ (candidateDirs s car <> [] ->
     direction car' ∈ candidateDirs s car
     /\ car_x car' = fadd (car_x car) (fmul (of_int (dx (direction car'))) (speed car))
     /\ car_y car' = fadd (car_y car) (fmul (of_int (dy (direction car'))) (speed car)))
  /\ (candidateDirs s car = [] ->
        exists i rx ry,
          roads s !! i = Some (rx, ry)
          /\ car_x car' = of_int rx /\ car_y car' = of_int ry
          /\ 0 <= direction car' <= 3).

(** A speed is slow when a step at that speed moves the truncated
    coordinate by at most one cell, in the direction of the step. *)
Definition slow (v : float) : Prop :=
  forall x d,
    -1 <= d <= 1 -> 0 <= to_int x <= 2 ^ 24 ->
    to_int (fadd x (fmul (of_int d) v)) = to_int x
    \/ to_int (fadd x (fmul (of_int d) v)) = to_int x + d.

(** The two facts about [float] the traffic invariant rests on. *)
Class FloatLaws : Prop := {
  to_int_of_int : forall z, 0 <= z <= 2 ^ 24 -> to_int (of_int z) = z;
  dist_speed_slow : forall g, slow (dist_speed g)
}.

(** A car in order: cardinal direction, admissible speed, and the cell
    it is drawn in is a Road cell of the grid. *)
Definition carOK (s : State) (car : Car) : Prop :=
  0 <= direction car <= 3
  /\ slow (speed car)
  /\ inGrid (to_int (car_x car)) (to_int (car_y car))
  /\ tag s (to_int (car_x car)) (to_int (car_y car)) = ROAD.

(** All cars are in order. *)
Definition carsOK (s : State) : Prop := Forall (carOK s) (cars s).

(** The offsets of the square of side [2 * radius + 1] around a cell. *)
Definition window (radius : Z) : list (Z * Z) :=
  i ← seqZ (- radius) (2 * radius + 1);
  j ← seqZ (- radius) (2 * radius + 1); [(i, j)].

(** The cell at offset [o] from [(x, y)] is not [(x, y)] itself, lies in
    the grid and is tagged [t]. *)
Definition hit (s : State) (x y : Z) (t : CellType) (o : Z * Z) : bool :=
  negb ((o.1 =? 0) && (o.2 =? 0))
  && (isValidCell (x + o.1) (y + o.2)
      && bool_decide (tag s (x + o.1) (y + o.2) = t)).

(** "Any [t] within [radius]", in the words of the description. *)
Definition anyWithin (s : State) (x y : Z) (t : CellType) (radius : Z) : bool :=
  existsb (hit s x y t) (window radius).

(** The type of a new building as the description gives it: the base
    type from the roll, then the three overrides in order. *)
Definition typeOfRoll (roll : Z) (waterNear greenNear : bool) (step : Z)
  : CellType :=
  let base :=
    if roll <? 60 then RESIDENTIAL
    else if roll <? 85 then COMMERCIAL else INDUSTRIAL in
  let afterWater := if waterNear && (roll <? 80) then RESIDENTIAL else base in
  let afterGreen :=
    if greenNear && (roll <? 75) then RESIDENTIAL else afterWater in
  if (95 <? roll) && (50 <? step) then PARK else afterGreen.

(** The number of cells of the grid that carry a building. *)
Definition builtCount (s : State) : Z :=
  Z.of_nat (length (List.filter (fun c => isBuilt (tag s c.1 c.2)) allCells)).

(** [c] is one of the four cardinal neighbours of [n]. *)
Definition adjacent4 (c n : Z * Z) : Prop :=
  Z.abs (c.1 - n.1) + Z.abs (c.2 - n.2) = 1.

(** [run rs s]: one tick per entry of [rs], each with the engine set to
    return that entry. *)
Definition run (rs : list (list Z)) (s : State) : State :=
  foldl (fun s r => (simulationStep (set_rng r s)).1) s rs.

End CitySim.

(** * The program at its constants, with exact arithmetic for [float]

    [Q] with truncation toward zero stands in for [float]; the speed
    distribution is spread over 0.050, 0.051, ..., 0.200. *)

(** [GRID_WIDTH = SCREEN_WIDTH / CELL_SIZE] and
    [GRID_HEIGHT = SCREEN_HEIGHT / CELL_SIZE]. *)
Definition sourceDim : Dim :=
  {| GRID_WIDTH := Z.quot 1280 16; GRID_HEIGHT := Z.quot 720 16 |}.

(** The 10x10 grid of the end-to-end scenario. *)
Definition smallDim : Dim := {| GRID_WIDTH := 10; GRID_HEIGHT := 10 |}.

Definition Qtrunc (q : Q) : Z := Z.quot (Qnum q) (Z.pos (Qden q)).

Definition ExactFloat : FloatOps := {|
  float := Q;
  of_int := inject_Z;
  to_int := Qtrunc;
  fadd := Qplus;
  fmul := Qmult;
  dist_speed := fun g => Qmake (50 + g mod 151) 1000
|}.

(** The states of the examples. *)

Section Examples.
#[local] Existing Instance ExactFloat.

(** The city after [initializeGrid] with an engine that returns 0 only. *)
Definition city0 : State := initializeGrid (D := sourceDim) [].

(** The terrain of that city, before the roads are laid. *)
Definition terrain0 : State :=
  generateTerrain (D := sourceDim) (blank (D := sourceDim) []).

(** The same city after [n] ticks with that engine. *)
Definition cityAfter (n : nat) : State :=
  run (D := sourceDim) (replicate n []) city0.

(** The raw values behind a river of [steps] segments from [(x, y)] in
    direction [dir], and behind a forest that grows from [(x, y)] as a line
    of [cells] cells in direction [d]. *)
Definition riverRolls (x y dir : Z) (steps : nat) : list Z :=
  [x - 5; y - 5; 0; 19; dir] ++ replicate steps 1.
Definition forestRolls (x y : Z) (d cells : nat) : list Z :=
  [x - 5; y - 5; 20]
  ++ concat (replicate cells (0 :: <[d := 0]> [100; 100; 100; 100])).

(** An engine for [initializeGrid] that covers the middle row with three
    rivers and a forest and the middle column with two forests, and aims
    every branch road at a cell that is taken. *)
Definition noRoadRolls : list Z :=
  [2] ++ riverRolls 7 22 2 34 ++ riverRolls 43 22 2 34 ++ riverRolls 75 22 2 5
  ++ [1] ++ forestRolls 40 20 3 21 ++ forestRolls 40 24 1 21
  ++ forestRolls 5 22 0 6
  ++ [0] ++ [0; 0; 0; 0] ++ replicate 25 0
  ++ concat (replicate 15 [0; 0; 0; 0; 3; 0]).

Definition roadlessCity : State := initializeGrid (D := sourceDim) noRoadRolls.

(** An engine for tick 52 of [cityAfter 51]: no car is spawned, the
    shuffle moves entries [p] and [q] of the [n] building candidates to the
    front and leaves the rest in place, the first roll is 0 and the second
    90. *)
Definition doubleRolls (p q n : nat) : list Z :=
  [50]
  ++ List.map (fun i => if (i =? p)%nat then 0
                        else if (i =? q)%nat then 1 else Z.of_nat i)
              (seq 1 (n - 1))
  ++ [0; 0; 0; 0; 90; 0; 0].

(** A tick that spawns a car on the first road cell, heading up. *)
Definition spawnRolls : list Z := [0; 0; 0; 3].
Definition cityWithBlockedCar : State :=
  run (D := sourceDim) [spawnRolls] city0.
Definition blockedCar : Car :=
  mkCar (inject_Z 0) (inject_Z 22) (Qmake 50 1000) 3 0 (150, 150, 150, 255).

(** The 10x10 grid of the end-to-end scenario: a road along row 5, laid by
    the arterial loop of [generateInitialRoads], and nothing else. *)
Definition rowRoad (cs : list Car) (r : list Z) : State :=
  set_cars cs
    (foldl (fun s x => if bool_decide (tag s x 5 = EMPTY)
                       then claimRoad x 5 s else s)
           (blank (D := smallDim) r) (seqZ 0 10)).
End Examples.

(** * Further notions of the run *)

Section RunNotions.
Context {D : Dim} {FO : FloatOps}.

(** ** Notions for the invariants of the run *)

(** What the record of a cell looks like, by the tag of the cell: the
    record of a cell without a building is the one [initializeGrid]
    wrote; a building carries its tag as type, a density in 1..3 that
    its age has paid for (20 ticks of age per level), and a variant in
    0..4; a park stays at density 1; a forest or a farm has density 0 and
    a variant in 0..2; no cell is a power plant or a government
    building. *)
Definition fits (t : CellType) (b : Building) : Prop :=
  match t with
  | EMPTY | ROAD | WATER => b = emptyBuilding
  | RESIDENTIAL | COMMERCIAL | INDUSTRIAL =>
      b_type b = t /\ 1 <= density b <= 3 /\ 20 * (density b - 1) <= age b
      /\ 0 <= variant b <= 4 /\ hasCar b = false
  | PARK =>
      b_type b = PARK /\ density b = 1 /\ 0 <= age b
      /\ 0 <= variant b <= 4 /\ hasCar b = false
  | FOREST | FARM =>
      b_type b = t /\ density b = 0 /\ 0 <= age b /\ 0 <= variant b <= 2
      /\ style b = BASIC /\ hasTree b = false /\ hasCar b = false
  | POWER_PLANT | GOVERNMENT => False
  end.

(** A car with a cardinal direction, an index into the road sequence and
    a colour out of the ranges [addRandomCar] draws from. *)
Definition carFit (s : State) (car : Car) : Prop :=
  0 <= direction car <= 3
  /\ 0 <= roadIndex car < Z.of_nat (length (roads s))
  /\ (let '(r, g, b, a) := color car in
      150 <= r <= 250 /\ 150 <= g <= 250 /\ 150 <= b <= 250 /\ a = 255).

(** What the maturation pass does to the record [b] of a cell tagged
    [t] that carries a building: the age goes up by one; the density
    goes up by one at most, and only when the new age is a multiple of 20,
    the density is below 3 and the cell is Residential, Commercial or
    Industrial; a tree is added at most to a Residential cell whose new
    age is a multiple of 30; nothing else changes. *)
Definition matured (t : CellType) (b b' : Building) : Prop :=
  b_type b' = b_type b /\ age b' = age b + 1
  /\ style b' = style b /\ variant b' = variant b /\ hasCar b' = hasCar b
  /\ (density b' = density b
      \/ (density b' = density b + 1 /\ Z.rem (age b + 1) 20 = 0
          /\ density b < 3
          /\ (t = RESIDENTIAL \/ t = COMMERCIAL \/ t = INDUSTRIAL)))
  /\ (hasTree b' = hasTree b
      \/ (hasTree b' = true /\ hasTree b = false /\ t = RESIDENTIAL
          /\ Z.rem (age b + 1) 30 = 0)).

(** The invariant of the run beyond [Inv]: every record fits its tag,
    the water sequence lists every Water cell once, every placed building
    has a Road cell among its four neighbours, every car is [carFit], and
    the step counter is not negative. *)
Record Orderly (s : State) : Prop := {
  od_inv : Inv s;
  od_cells : forall x y, fits (tag s x y) (record s x y);
  od_water : forall x y, inGrid x y -> tag s x y = WATER -> (x, y) ∈ waterCells s;
  od_water_nodup : NoDup (waterCells s);
  od_access : forall x y, isPlaced (tag s x y) = true -> nearRoad s (x, y) = true;
  od_fleet : Forall (carFit s) (cars s);
  od_step : 0 <= currentStep s
}.

(** The candidates the road extension builds on: the first
    [min(1 + currentStep/100, size)] entries of the shuffled candidate
    list. *)
Definition newRoads (s : State) : list (Z * Z) :=
  take (Z.to_nat (Z.min (1 + Z.quot (currentStep s) 100)
                        (Z.of_nat (length (roadSpots s)))))
       (shuffle (roadSpots s) (rng s)).1.

(** The candidates the placement loop builds on. *)
Definition newBuildings (s : State) : list (Z * Z) :=
  take (Z.to_nat (Z.min (1 + Z.quot (currentStep s) 50)
                        (Z.of_nat (length (buildingSpots s)))))
       (shuffle (buildingSpots s) (rng s)).1.

(** A car that is not blocked moves on in its direction. *)
Definition straight (car : Car) : Car :=
  moveTo (stepX car (direction car)) (stepY car (direction car))
         (direction car) car.

(** The number of [growCity] calls before the tick with step counter
    [t]: one on every third tick, from tick 0 on. *)
Definition growthCalls (t : Z) : Z := Z.quot (t + 2) 3.

(** Every building is at most as old as there were [growCity] calls, and
    every forest and farm exactly as old. *)
Definition Aged (s : State) : Prop :=
  forall x y, isBuilt (tag s x y) = true ->
    age (record s x y) <= growthCalls (currentStep s)
    /\ (isPlaced (tag s x y) = false ->
        age (record s x y) = growthCalls (currentStep s)).

(** The invariant of the placement loop for the ages: a cell that was
    not empty is untouched, a cell that was empty is still empty or holds
    a building of age 0. *)
Definition Fresh (s0 s : State) : Prop :=
  forall x y,
    (tag s0 x y <> EMPTY -> tag s x y = tag s0 x y /\ record s x y = record s0 x y)
    /\ (tag s0 x y = EMPTY ->
        tag s x y = EMPTY \/ (isPlaced (tag s x y) = true /\ age (record s x y) = 0)).

End RunNotions.

(** ** The water animation

    [waterColors], [lastWaterAnimTime] and [waterAnimPhase] are globals
    of their own: the simulation routines never read them and the
    animation never reads the simulation, so they are a record of their
    own.  [Uint32] arithmetic wraps at [2 ^ 32]. *)

Definition SCREEN_WIDTH : Z := 1280.
Definition SCREEN_HEIGHT : Z := 720.
Definition CELL_SIZE : Z := 16.
Definition SIMULATION_DELAY : Z := 300.
Definition WATER_ANIM_PHASES : Z := 8.

(** [SDL_Color]: the channels r, g, b, a, each a [Uint8]. *)
Definition SDL_Color : Set := (Z * Z * Z * Z)%type.

Definition c_r (c : SDL_Color) : Z := c.1.1.1.
Definition c_g (c : SDL_Color) : Z := c.1.1.2.
Definition c_b (c : SDL_Color) : Z := c.1.2.
Definition c_a (c : SDL_Color) : Z := c.2.

Record Anim : Set := mkAnim {
  waterColors : list SDL_Color;
  lastWaterAnimTime : Z;
  waterAnimPhase : Z
}.

(** The globals as the program starts: zero-initialised. *)
Definition anim0 : Anim :=
  mkAnim (replicate (Z.to_nat WATER_ANIM_PHASES) (0, 0, 0, 0)) 0 0.

(** The eight assignments [waterColors[i] = {...}]. *)
Definition initializeWaterAnimation (a : Anim) : Anim :=
  let cs := waterColors a in
  let cs := <[0%nat := (20, 100, 200, 255)]> cs in
  let cs := <[1%nat := (25, 110, 205, 255)]> cs in
  let cs := <[2%nat := (30, 120, 210, 255)]> cs in
  let cs := <[3%nat := (35, 130, 215, 255)]> cs in
  let cs := <[4%nat := (40, 140, 220, 255)]> cs in
  let cs := <[5%nat := (35, 130, 215, 255)]> cs in
  let cs := <[6%nat := (30, 120, 210, 255)]> cs in
  let cs := <[7%nat := (25, 110, 205, 255)]> cs in
  mkAnim cs (lastWaterAnimTime a) (waterAnimPhase a).

(** [updateWaterAnimation], with [currentTime] the value [SDL_GetTicks]
    returns. *)
Definition updateWaterAnimation (currentTime : Z) (a : Anim) : Anim :=
  if 200 <? (currentTime - lastWaterAnimTime a) mod 2 ^ 32
  then mkAnim (waterColors a) currentTime
              (Z.rem (waterAnimPhase a + 1) WATER_ANIM_PHASES)
  else a.

(** The animation after [initializeWaterAnimation] and one
    [updateWaterAnimation] per clock reading. *)
Definition animAfter (clock : list Z) : Anim :=
  foldl (fun a t => updateWaterAnimation t a) (initializeWaterAnimation anim0) clock.

(** The time from [last] to [now] on a 32-bit millisecond clock that
    wrapped at most once in between. *)
Definition elapsed (last now : Z) : Z :=
  if last <=? now then now - last else now + 2 ^ 32 - last.

(** ** Rendering

    The renderer is the sequence of SDL calls a routine makes. *)

Inductive Prim : Set :=
  | SetRenderDrawColor (r g b a : Z)
  | RenderFillRect (x y w h : Z)
  | RenderDrawLine (x1 y1 x2 y2 : Z)
  | RenderDrawPoint (x y : Z)
  | RenderClear
  | RenderPresent
  | Delay (ms : Z).

#[global] Instance Prim_eq_dec : EqDecision Prim.
Proof. solve_decision. Defined.

(** Conversion of an [int] to [Uint8]. *)
Definition Uint8 (z : Z) : Z := z mod 256.

Definition COLOR_EMPTY : SDL_Color := (50, 70, 30, 255).
Definition COLOR_ROAD : SDL_Color := (80, 80, 80, 255).
Definition COLOR_RESIDENTIAL_BASE : SDL_Color := (220, 180, 150, 255).
Definition COLOR_COMMERCIAL_BASE : SDL_Color := (130, 170, 210, 255).
Definition COLOR_INDUSTRIAL_BASE : SDL_Color := (200, 170, 100, 255).
Definition COLOR_WATER : SDL_Color := (30, 120, 200, 255).
Definition COLOR_PARK : SDL_Color := (60, 180, 60, 255).
Definition COLOR_POWER_PLANT : SDL_Color := (180, 60, 60, 255).
Definition COLOR_GOVERNMENT : SDL_Color := (180, 120, 200, 255).
Definition COLOR_FOREST : SDL_Color := (40, 140, 40, 255).
Definition COLOR_FARM : SDL_Color := (180, 210, 100, 255).

(** [color.r = v;] and so on, [cast] being the conversion of the [int]
    value [v] to the channel type. *)
Definition set_r (cast : Z -> Z) (v : Z) (c : SDL_Color) : SDL_Color :=
  (cast v, c_g c, c_b c, c_a c).
Definition set_g (cast : Z -> Z) (v : Z) (c : SDL_Color) : SDL_Color :=
  (c_r c, cast v, c_b c, c_a c).
Definition set_b (cast : Z -> Z) (v : Z) (c : SDL_Color) : SDL_Color :=
  (c_r c, c_g c, cast v, c_a c).

(** [getBuildingColor] for a channel type with conversion [cast]. *)
Definition buildingColor (cast : Z -> Z) (building : Building) : SDL_Color :=
  let v := variant building in
  let color :=
    match b_type building with
    | RESIDENTIAL =>
        let color := COLOR_RESIDENTIAL_BASE in
        match style building with
        | BASIC => color
        | MODERN =>
            let color := set_r cast (200 + v * 10) color in
            let color := set_g cast (200 + v * 10) color in
            set_b cast (220 + v * 5) color
        | HISTORIC =>
            let color := set_r cast (190 + v * 10) color in
            let color := set_g cast (150 + v * 8) color in
            set_b cast (130 + v * 5) color
        | FANCY =>
            let color := set_r cast (240 - v * 5) color in
            let color := set_g cast (180 + v * 10) color in
            set_b cast (180 + v * 10) color
        end
    | COMMERCIAL =>
        let color := COLOR_COMMERCIAL_BASE in
        match style building with
        | BASIC => color
        | MODERN =>
            let color := set_r cast (100 + v * 5) color in
            let color := set_g cast (180 + v * 10) color in
            set_b cast (230 + v * 5) color
        | HISTORIC =>
            let color := set_r cast (150 + v * 8) color in
            let color := set_g cast (160 + v * 5) color in
            set_b cast (180 + v * 10) color
        | FANCY =>
            let color := set_r cast (130 + v * 10) color in
            let color := set_g cast (200 + v * 5) color in
            set_b cast (230 + v * 5) color
        end
    | INDUSTRIAL =>
        let color := COLOR_INDUSTRIAL_BASE in
        let color := set_r cast (c_r color - v * 10) color in
        set_g cast (c_g color - v * 5) color
    | PARK => set_g cast (160 + v * 10) COLOR_PARK
    | GOVERNMENT => COLOR_GOVERNMENT
    | POWER_PLANT => COLOR_POWER_PLANT
    | FOREST => set_g cast (120 + v * 10) COLOR_FOREST
    | FARM =>
        let color := set_g cast (190 + v * 10) COLOR_FARM in
        set_r cast (170 + v * 8) color
    | EMPTY | ROAD | WATER => (150, 150, 150, 255)
    end in
  if bool_decide (b_type building = RESIDENTIAL)
     || bool_decide (b_type building = COMMERCIAL)
     || bool_decide (b_type building = INDUSTRIAL)
  then
    let densityFactor := density building - 1 in
    let color := set_r cast (Z.max 50 (c_r color - densityFactor * 20)) color in
    let color := set_g cast (Z.max 50 (c_g color - densityFactor * 15)) color in
    set_b cast (Z.max 50 (c_b color - densityFactor * 15)) color
  else color.

(** [getBuildingColor]: the channels are [Uint8]. *)
Definition getBuildingColor (building : Building) : SDL_Color :=
  buildingColor Uint8 building.

(** [SDL_SetRenderDrawColor(r, g, b, a); SDL_RenderFillRect(&rect);] *)
Definition fill (r g b a x y w h : Z) : list Prim :=
  [SetRenderDrawColor r g b a; RenderFillRect x y w h].

Definition drawTree (x y size : Z) : list Prim :=
  if size =? 1 then
    fill 120 80 40 255
         (x * CELL_SIZE + Z.quot (CELL_SIZE * 3) 4)
         (y * CELL_SIZE + Z.quot (CELL_SIZE * 2) 3)
         (Z.quot CELL_SIZE 8) (Z.quot CELL_SIZE 4)
    ++ fill 40 160 40 255
         (x * CELL_SIZE + Z.quot (CELL_SIZE * 2) 3)
         (y * CELL_SIZE + Z.quot CELL_SIZE 2)
         (Z.quot CELL_SIZE 4) (Z.quot CELL_SIZE 4)
  else if size =? 2 then
    fill 120 80 40 255
         (x * CELL_SIZE + Z.quot CELL_SIZE 2 - Z.quot CELL_SIZE 10)
         (y * CELL_SIZE + Z.quot CELL_SIZE 2)
         (Z.quot CELL_SIZE 5) (Z.quot CELL_SIZE 3)
    ++ [SetRenderDrawColor 40 180 40 255]
    ++ (let radius := Z.quot CELL_SIZE 3 in
        dx ← seqZ (- radius) (2 * radius + 1);
        dy ← seqZ (- radius) (2 * radius + 1);
        if dx * dx + dy * dy <=? radius * radius
        then [RenderDrawPoint (x * CELL_SIZE + Z.quot CELL_SIZE 2 + dx)
                              (y * CELL_SIZE + Z.quot CELL_SIZE 3 + dy)]
        else [])
  else
    fill 100 70 30 255
         (x * CELL_SIZE + Z.quot CELL_SIZE 3)
         (y * CELL_SIZE + Z.quot CELL_SIZE 2)
         (Z.quot CELL_SIZE 8) (Z.quot CELL_SIZE 3)
    ++ fill 30 130 30 255
         (x * CELL_SIZE + Z.quot CELL_SIZE 4)
         (y * CELL_SIZE + Z.quot CELL_SIZE 4)
         (Z.quot CELL_SIZE 4) (Z.quot CELL_SIZE 4)
    ++ fill 110 75 35 255
         (x * CELL_SIZE + Z.quot (CELL_SIZE * 2) 3)
         (y * CELL_SIZE + Z.quot (CELL_SIZE * 2) 3)
         (Z.quot CELL_SIZE 8) (Z.quot CELL_SIZE 4)
    ++ fill 35 140 35 255
         (x * CELL_SIZE + Z.quot (CELL_SIZE * 3) 5)
         (y * CELL_SIZE + Z.quot CELL_SIZE 2)
         (Z.quot CELL_SIZE 4) (Z.quot CELL_SIZE 4).

(** The details [drawBuilding] adds on top of the base rectangle, by
    building type. *)
Definition residentialDetails (x y : Z) (building : Building) : list Prim :=
  (if density building =? 1 then
     fill 180 100 80 255
          (x * CELL_SIZE + 1) (y * CELL_SIZE + 1)
          (CELL_SIZE - 2) (Z.quot CELL_SIZE 3)
     ++ fill 220 230 250 255
          (x * CELL_SIZE + Z.quot CELL_SIZE 3) (y * CELL_SIZE + Z.quot CELL_SIZE 2)
          (Z.quot CELL_SIZE 3) (Z.quot CELL_SIZE 4)
   else if density building =? 2 then
     i ← seqZ 0 2; j ← seqZ 0 2;
     fill 220 230 250 255
          (x * CELL_SIZE + 2 + i * (Z.quot CELL_SIZE 2 - 2))
          (y * CELL_SIZE + 2 + j * (Z.quot CELL_SIZE 2 - 2))
          (Z.quot CELL_SIZE 3) (Z.quot CELL_SIZE 4)
   else
     i ← seqZ 0 3;
     fill 50 50 50 255
          (x * CELL_SIZE + 2) (y * CELL_SIZE + 2 + i * Z.quot CELL_SIZE 3)
          (CELL_SIZE - 4) 2)
  ++ (if hasTree building then drawTree x y 1 else []).

Definition commercialDetails (x y : Z) (building : Building) : list Prim :=
  (if density building =? 1 then
     fill 220 220 100 255
          (x * CELL_SIZE + 2) (y * CELL_SIZE + 2) (CELL_SIZE - 4) 4
     ++ fill 200 220 240 255
          (x * CELL_SIZE + Z.quot CELL_SIZE 4) (y * CELL_SIZE + Z.quot CELL_SIZE 2)
          (Z.quot CELL_SIZE 2) (Z.quot CELL_SIZE 3)
   else if density building =? 2 then
     i ← seqZ 0 2; j ← seqZ 0 3;
     fill 180 210 240 255
          (x * CELL_SIZE + 2 + i * (Z.quot CELL_SIZE 2 - 2))
          (y * CELL_SIZE + 2 + j * (Z.quot CELL_SIZE 3 - 1))
          (Z.quot CELL_SIZE 3) (Z.quot CELL_SIZE 6)
   else
     i ← seqZ 0 4;
     fill 150 200 240 255
          (x * CELL_SIZE + 2) (y * CELL_SIZE + 2 + i * Z.quot CELL_SIZE 4)
          (CELL_SIZE - 4) (Z.quot CELL_SIZE 8))
  ++ (if hasTree building then drawTree x y 1 else []).

Definition industrialDetails (x y : Z) (building : Building) : list Prim :=
  if density building =? 1 then
    fill 100 100 100 255
         (x * CELL_SIZE + Z.quot CELL_SIZE 3) (y * CELL_SIZE + Z.quot CELL_SIZE 2)
         (Z.quot CELL_SIZE 3) (Z.quot CELL_SIZE 2)
  else if density building =? 2 then
    fill 80 80 80 255
         (x * CELL_SIZE + Z.quot CELL_SIZE 4) (y * CELL_SIZE)
         (Z.quot CELL_SIZE 6) (Z.quot CELL_SIZE 2)
    ++ fill 150 150 120 255
         (x * CELL_SIZE + Z.quot CELL_SIZE 2) (y * CELL_SIZE + Z.quot CELL_SIZE 3)
         (Z.quot CELL_SIZE 3) (Z.quot CELL_SIZE 6)
  else
    (i ← seqZ 0 2;
     fill 70 70 70 255
          (x * CELL_SIZE + 2 + i * Z.quot CELL_SIZE 2) (y * CELL_SIZE)
          (Z.quot CELL_SIZE 6) (Z.quot CELL_SIZE 2))
    ++ fill 130 130 100 255
         (x * CELL_SIZE + 2) (y * CELL_SIZE + Z.quot CELL_SIZE 2)
         (CELL_SIZE - 4) (Z.quot CELL_SIZE 2).

Definition parkDetails (x y : Z) : list Prim :=
  drawTree x y 2
  ++ fill 200 180 140 255
       (x * CELL_SIZE + Z.quot CELL_SIZE 4) (y * CELL_SIZE + Z.quot CELL_SIZE 2)
       (Z.quot CELL_SIZE 2) (Z.quot CELL_SIZE 6).

Definition farmDetails (x y : Z) (building : Building) : list Prim :=
  (i ← seqZ 0 3; j ← seqZ 0 3;
   if Z.rem (i + j) 2 =? 0 then []
   else fill 100 180 60 255
             (x * CELL_SIZE + i * Z.quot CELL_SIZE 3)
             (y * CELL_SIZE + j * Z.quot CELL_SIZE 3)
             (Z.quot CELL_SIZE 3) (Z.quot CELL_SIZE 3))
  ++ (if Z.rem (variant building) 2 =? 0 then
        fill 200 150 100 255
             (x * CELL_SIZE + Z.quot CELL_SIZE 6) (y * CELL_SIZE + Z.quot CELL_SIZE 6)
             (Z.quot CELL_SIZE 3) (Z.quot CELL_SIZE 3)
      else []).

Definition drawBuilding (x y : Z) (building : Building) : list Prim :=
  let color := getBuildingColor building in
  fill (c_r color) (c_g color) (c_b color) 255
       (x * CELL_SIZE) (y * CELL_SIZE) CELL_SIZE CELL_SIZE
  ++ match b_type building with
     | RESIDENTIAL => residentialDetails x y building
     | COMMERCIAL => commercialDetails x y building
     | INDUSTRIAL => industrialDetails x y building
     | PARK => parkDetails x y
     | FOREST => drawTree x y 3
     | FARM => farmDetails x y building
     | _ => []
     end.

(** [drawWater].  [waterColors[waterAnimPhase]] with a phase outside
    0..7 would read past the array; the default colour stands for that
    read. *)
Definition drawWater (a : Anim) (x y : Z) : list Prim :=
  let waterColor :=
    default (0, 0, 0, 0) (waterColors a !! Z.to_nat (waterAnimPhase a)) in
  fill (c_r waterColor) (c_g waterColor) (c_b waterColor) 255
       (x * CELL_SIZE) (y * CELL_SIZE) CELL_SIZE CELL_SIZE
  ++ [SetRenderDrawColor (Uint8 (c_r waterColor + 20)) (Uint8 (c_g waterColor + 20))
                         (Uint8 (c_b waterColor + 20)) 180]
  ++ (i ← seqZ 0 3;
      let yOffset :=
        Z.rem (Z.quot (i * CELL_SIZE) 3 + waterAnimPhase a * 2) CELL_SIZE in
      [RenderDrawLine (x * CELL_SIZE) (y * CELL_SIZE + yOffset)
                      (x * CELL_SIZE + CELL_SIZE) (y * CELL_SIZE + yOffset)]).

Section Rendering.
Context {D : Dim} {FO : FloatOps}.

Definition isRoad (s : State) (x y : Z) : bool :=
  isValidCell x y && bool_decide (tag s x y = ROAD).

Definition drawRoad (s : State) (x y : Z) : list Prim :=
  fill (c_r COLOR_ROAD) (c_g COLOR_ROAD) (c_b COLOR_ROAD) 255
       (x * CELL_SIZE) (y * CELL_SIZE) CELL_SIZE CELL_SIZE
  ++ [SetRenderDrawColor 220 220 220 255]
  ++ (let northRoad := isRoad s x (y - 1) in
      let southRoad := isRoad s x (y + 1) in
      let eastRoad := isRoad s (x + 1) y in
      let westRoad := isRoad s (x - 1) y in
      let vertical := northRoad || southRoad in
      let horizontal := eastRoad || westRoad in
      let vline :=
        RenderDrawLine (x * CELL_SIZE + Z.quot CELL_SIZE 2) (y * CELL_SIZE)
                       (x * CELL_SIZE + Z.quot CELL_SIZE 2)
                       (y * CELL_SIZE + CELL_SIZE) in
      let hline :=
        RenderDrawLine (x * CELL_SIZE) (y * CELL_SIZE + Z.quot CELL_SIZE 2)
                       (x * CELL_SIZE + CELL_SIZE)
                       (y * CELL_SIZE + Z.quot CELL_SIZE 2) in
      if vertical && negb horizontal then [vline]
      else if horizontal && negb vertical then [hline]
      else if vertical && horizontal then [vline; hline]
      else [RenderFillRect (x * CELL_SIZE + Z.quot CELL_SIZE 3)
                           (y * CELL_SIZE + Z.quot CELL_SIZE 3)
                           (Z.quot CELL_SIZE 3) (Z.quot CELL_SIZE 3)]).

Definition drawCars (s : State) : list Prim :=
  car ← cars s;
  let '(r, g, b, a) := color car in
  fill r g b a
       (to_int (fmul (car_x car) (of_int CELL_SIZE)) + Z.quot CELL_SIZE 3)
       (to_int (fmul (car_y car) (of_int CELL_SIZE)) + Z.quot CELL_SIZE 3)
       (Z.quot CELL_SIZE 3) (Z.quot CELL_SIZE 3).

(** The five passes of [drawGrid]. *)
Definition drawGrid (s : State) (a : Anim) : list Prim :=
  ('(x, y) ← allCells;
   if bool_decide (tag s x y = EMPTY)
   then fill (c_r COLOR_EMPTY) (c_g COLOR_EMPTY) (c_b COLOR_EMPTY) 255
             (x * CELL_SIZE) (y * CELL_SIZE) CELL_SIZE CELL_SIZE
   else [])
  ++ ('(wx, wy) ← waterCells s; drawWater a wx wy)
  ++ ('(x, y) ← allCells;
      if isBuilt (tag s x y) then drawBuilding x y (record s x y) else [])
  ++ ('(rx, ry) ← roads s; drawRoad s rx ry)
  ++ drawCars s.

(** A primitive that paints stays within the cell [(x, y)] of the
    screen; the calls that set the colour paint nothing. *)
Definition withinCell (x y : Z) (p : Prim) : Prop :=
  match p with
  | RenderFillRect rx ry w h =>
      x * CELL_SIZE <= rx /\ 0 <= w /\ rx + w <= x * CELL_SIZE + CELL_SIZE
      /\ y * CELL_SIZE <= ry /\ 0 <= h /\ ry + h <= y * CELL_SIZE + CELL_SIZE
  | RenderDrawPoint px py =>
      x * CELL_SIZE <= px < x * CELL_SIZE + CELL_SIZE
      /\ y * CELL_SIZE <= py < y * CELL_SIZE + CELL_SIZE
  | SetRenderDrawColor _ _ _ _ => True
  | _ => False
  end.

(** The calls [drawGrid] owes the cell [(x, y)], by the tag of the cell:
    the fill of its first pass for an empty cell, [drawWater] for a water
    cell, [drawRoad] for a road cell, and [drawBuilding] with the record of
    the cell for every other one. *)
Definition cellCalls (s : State) (a : Anim) (x y : Z) : list Prim :=
  match tag s x y with
  | EMPTY => fill (c_r COLOR_EMPTY) (c_g COLOR_EMPTY) (c_b COLOR_EMPTY) 255
                  (x * CELL_SIZE) (y * CELL_SIZE) CELL_SIZE CELL_SIZE
  | WATER => drawWater a x y
  | ROAD => drawRoad s x y
  | _ => drawBuilding x y (record s x y)
  end.

End Rendering.

(** ** The program

    [main] reads its environment through SDL: whether the four
    initialisations succeed, whether a font can be opened, the events
    [SDL_PollEvent] hands out and the clock [SDL_GetTicks].  One [Frame]
    holds what one pass of the main loop reads. *)

Inductive Event : Set :=
  | SDL_QUIT
  | SDL_KEYDOWN (sym : Z)
  | SDL_OTHER.

Definition SDLK_ESCAPE : Z := 27.

Record Frame : Set := mkFrame {
  events : list Event;   (* polled until [SDL_PollEvent] returns 0 *)
  ticksMain : Z;         (* [SDL_GetTicks()] in [main] *)
  ticksAnim : Z          (* [SDL_GetTicks()] in [updateWaterAnimation],
                            read only if the pass runs [simulationStep] *)
}.

Record Env : Set := mkEnv {
  sdlInit : Z;             (* result of [SDL_Init] *)
  ttfInit : Z;             (* result of [TTF_Init] *)
  windowCreated : bool;    (* [SDL_CreateWindow] did not return NULL *)
  rendererCreated : bool;  (* [SDL_CreateRenderer] did not return NULL *)
  fontOpened : bool;       (* the first [TTF_OpenFont] did not return NULL *)
  fallbackOpened : bool;   (* nor did the second *)
  seed : list Z;           (* what the engine is going to return *)
  startTicks : Z;          (* [SDL_GetTicks()] before the loop *)
  frames : list Frame
}.

(** What [main] writes to [std::cerr]. *)
Inductive Message : Set :=
  | SdlInitFailed | TtfInitFailed | WindowFailed | RendererFailed
  | FontFailed | FallbackFontFailed.

(** The inner [while (SDL_PollEvent(&e) != 0)] loop. *)
Definition handleEvents (quit : bool) (es : list Event) : bool :=
  foldl (fun quit e =>
           match e with
           | SDL_QUIT => true
           | SDL_KEYDOWN sym => if sym =? SDLK_ESCAPE then true else quit
           | SDL_OTHER => quit
           end) quit es.

Section Program.
Context {D : Dim} {FO : FloatOps}.

(** All the globals. *)
Record World := mkWorld {
  sim : State;
  anim : Anim
}.

(** [initializeGrid] with its call of [initializeWaterAnimation], on the
    globals as the program starts. *)
Definition initializeWorld (r : list Z) : World :=
  mkWorld (initializeGrid r) (initializeWaterAnimation anim0).

(** [simulationStep] with its call of [updateWaterAnimation]. *)
Definition stepWorld (currentTime : Z) (w : World) : World :=
  mkWorld (simulationStep (sim w)).1 (updateWaterAnimation currentTime (anim w)).

(** What one pass of the main loop sends to the renderer. *)
Definition renderFrame (w : World) : list Prim :=
  [SetRenderDrawColor 0 0 0 255; RenderClear]
  ++ drawGrid (sim w) (anim w)
  ++ [RenderPresent; Delay 16].

(** The main loop, one pass per frame of the environment: the worlds it
    presents, and whether it has come to its end ([false]: the frames ran
    out while the loop was still going). *)
Fixpoint mainLoop (fs : list Frame) (quit : bool) (lastTime : Z) (w : World)
  : list World * bool :=
  if negb quit && (currentStep (sim w) <? MAX_SIMULATION_STEPS) then
    match fs with
    | [] => ([], false)
    | f :: fs' =>
        let quit := handleEvents quit (events f) in
        let currentTime := ticksMain f in
        let '(w, lastTime) :=
          if SIMULATION_DELAY <=? (currentTime - lastTime) mod 2 ^ 32
          then (stepWorld (ticksAnim f) w, currentTime)
          else (w, lastTime) in
        let '(ws, ended) := mainLoop fs' quit lastTime w in
        (w :: ws, ended)
    end
  else ([], true).

Record Outcome : Set := mkOutcome {
  exitCode : option Z;       (* [None]: still running when the frames ran out *)
  messages : list Message;
  screen : list (list Prim)  (* the calls on the renderer, pass by pass *)
}.

Definition main (env : Env) : Outcome :=
  if sdlInit env <? 0 then mkOutcome (Some 1) [SdlInitFailed] []
  else if ttfInit env <? 0 then mkOutcome (Some 1) [TtfInitFailed] []
  else if negb (windowCreated env) then mkOutcome (Some 1) [WindowFailed] []
  else if negb (rendererCreated env) then mkOutcome (Some 1) [RendererFailed] []
  else
    let msgs :=
      if fontOpened env then []
      else FontFailed :: (if fallbackOpened env then [] else [FallbackFontFailed]) in
    let '(ws, ended) :=
      mainLoop (frames env) false (startTicks env) (initializeWorld (seed env)) in
    mkOutcome (if ended then Some 0 else None) msgs (renderFrame <$> ws).

(** One of the events asks the program to stop. *)
Definition asksToQuit (es : list Event) : Prop :=
  SDL_QUIT ∈ es \/ SDL_KEYDOWN SDLK_ESCAPE ∈ es.

End Program.

(** * Part II: the properties *)

(** ** Facts about two-dimensional vectors *)

Section Vec2Facts.
Context {A : Type}.

Lemma shaped_replicate w h (v : A) :
  shaped w h (replicate (Z.to_nat w) (replicate (Z.to_nat h) v)).
Proof.
  split; [apply length_replicate|].
  apply Forall_replicate, length_replicate.
Qed.

Lemma shaped_setCell w h (g : list (list A)) x y v :
  shaped w h g -> shaped w h (setCell g x y v).
Proof.
  intros [Hl Hc]. unfold setCell.
  destruct ((0 <=? x) && (0 <=? y)); [|by split].
  split; [by rewrite length_alter|].
  apply Forall_alter; [done|].
  intros col Hcol. rewrite length_insert.
  eapply Forall_lookup_1 in Hc; eauto.
Qed.

Lemma cell_setCell_eq w h (dflt : A) g x y v :
  shaped w h g -> 0 <= x < w -> 0 <= y < h ->
  cell dflt (setCell g x y v) x y = v.
Proof.
  intros [Hl Hc] Hx Hy. unfold cell, setCell.
  replace ((0 <=? x) && (0 <=? y)) with true
    by (symmetry; apply andb_true_iff; split; apply Z.leb_le; lia).
  destruct (lookup_lt_is_Some_2 g (Z.to_nat x)) as [col Hcol]; [lia|].
  rewrite list_lookup_alter_eq, Hcol. simpl.
  rewrite list_lookup_insert_eq; [done|].
  eapply Forall_lookup_1 in Hc; eauto. simpl in Hc. lia.
Qed.

Lemma cell_setCell_ne (dflt : A) g x y v x' y' :
  (x, y) <> (x', y') ->
  cell dflt (setCell g x y v) x' y' = cell dflt g x' y'.
Proof.
  intros Hne. unfold cell, setCell.
  destruct ((0 <=? x') && (0 <=? y')) eqn:Hv'; [|done].
  destruct ((0 <=? x) && (0 <=? y)) eqn:Hv; [|done].
  apply andb_true_iff in Hv as [Hx Hy], Hv' as [Hx' Hy'].
  apply Z.leb_le in Hx, Hy, Hx', Hy'.
  destruct (decide (x = x')) as [->|Hxx].
  - rewrite list_lookup_alter_eq.
    destruct (g !! Z.to_nat x') as [col|]; [simpl|done].
    rewrite list_lookup_insert_ne; [done|].
    intros Heq. apply Hne. f_equal. lia.
  - rewrite list_lookup_alter_ne; [done|]. lia.
Qed.
End Vec2Facts.

Section CitySimFacts.
Context {D : Dim} {FO : FloatOps}.

(** ** Basic facts about the accessors *)

Lemma isValidCell_true x y : isValidCell x y = true <-> inGrid x y.
Proof. unfold isValidCell, inGrid. lia. Qed.

Lemma isValidCell_false x y : isValidCell x y = false <-> ~ inGrid x y.
Proof. rewrite <- isValidCell_true. destruct (isValidCell x y); naive_solver. Qed.

Lemma draw_eq s : draw s = ((gen (rng s)).1, set_rng (gen (rng s)).2 s).
Proof. unfold draw. by destruct (gen (rng s)). Qed.

Lemma drawUniform_eq a b s :
  drawUniform a b s
  = ((uniform_int a b (rng s)).1, set_rng (uniform_int a b (rng s)).2 s).
Proof. unfold drawUniform. by destruct (uniform_int a b (rng s)). Qed.

Lemma gen_range r : 0 <= (gen r).1 < 2 ^ 32.
Proof. destruct r; simpl; [lia|]. apply Z.mod_pos_bound. lia. Qed.

Lemma uniform_int_range a b r :
  a <= b -> a <= (uniform_int a b r).1 <= b.
Proof.
  intros Hab. unfold uniform_int. destruct (gen r) as [v r'] eqn:E. simpl.
  pose proof (Z.mod_pos_bound v (b - a + 1)). lia.
Qed.

Lemma tag_setTag s x y t x' y' :
  shaped GRID_WIDTH GRID_HEIGHT (grid s) -> inGrid x y ->
  tag (setTag x y t s) x' y'
  = if decide ((x, y) = (x', y')) then t else tag s x' y'.
Proof.
  intros Hs [Hx Hy]. unfold tag, setTag. simpl. case_decide as Hc.
  - inversion Hc; subst. by eapply cell_setCell_eq.
  - by apply cell_setCell_ne.
Qed.

Lemma record_setRecord s x y b x' y' :
  shaped GRID_WIDTH GRID_HEIGHT (buildings s) -> inGrid x y ->
  record (setRecord x y b s) x' y'
  = if decide ((x, y) = (x', y')) then b else record s x' y'.
Proof.
  intros Hs [Hx Hy]. unfold record, setRecord. simpl. case_decide as Hc.
  - inversion Hc; subst. by eapply cell_setCell_eq.
  - by apply cell_setCell_ne.
Qed.

Lemma tag_outside s x y :
  shaped GRID_WIDTH GRID_HEIGHT (grid s) -> ~ inGrid x y -> tag s x y = EMPTY.
Proof.
  intros [Hl Hc] Hout. unfold tag, cell.
  destruct ((0 <=? x) && (0 <=? y)) eqn:Hv; [|done].
  apply andb_true_iff in Hv as [Hx Hy]. apply Z.leb_le in Hx, Hy.
  destruct (grid s !! Z.to_nat x) as [col|] eqn:Hcol; [|done].
  pose proof (lookup_lt_Some _ _ _ Hcol) as Hlt.
  eapply Forall_lookup_1 in Hc; eauto. simpl in Hc.
  destruct (col !! Z.to_nat y) as [v|] eqn:Hv; [|done].
  apply lookup_lt_Some in Hv. unfold inGrid in Hout. lia.
Qed.

(** ** The state invariant

    The grid and the building grid keep their shape, the road sequence
    and the Road tags describe the same cells, every water-sequence
    entry is tagged Water, and no density exceeds 3. *)

Lemma Inv_set_rng s r : Inv s -> Inv (set_rng r s).
Proof. by intros []. Qed.

Lemma Inv_set_cars s c : Inv s -> Inv (set_cars c s).
Proof. by intros []. Qed.

Lemma Inv_set_currentStep s n : Inv s -> Inv (set_currentStep n s).
Proof. by intros []. Qed.

(** Writing a tag [t] other than Road over a cell that is not a road or
    water keeps the invariant. *)
Lemma Inv_setTag s x y t :
  Inv s -> inGrid x y -> t <> ROAD ->
  tag s x y <> ROAD -> tag s x y <> WATER ->
  Inv (setTag x y t s).
Proof.
  intros [Hg Hb Hr Hrt Hw Hd] Hin Ht Hnr Hnw. split.
  - by apply shaped_setCell.
  - done.
  - intros c Hc. destruct (Hr c Hc) as [Hcin Hct]. split; [done|].
    rewrite tag_setTag by done. case_decide as Heq; [|done].
    destruct c; inversion Heq; subst. done.
  - intros x' y' Hin'. rewrite tag_setTag by done.
    case_decide; [done|]. by apply Hrt.
  - intros c Hc. destruct (Hw c Hc) as [Hcin Hct]. split; [done|].
    rewrite tag_setTag by done. case_decide as Heq; [|done].
    destruct c; inversion Heq; subst. done.
  - done.
Qed.

Lemma Inv_setRecord s x y b :
  Inv s -> inGrid x y -> density b <= 3 -> Inv (setRecord x y b s).
Proof.
  intros [Hg Hb Hr Hrt Hw Hd] Hin Hb3. split; try done.
  - by apply shaped_setCell.
  - intros x' y'. rewrite record_setRecord by done.
    case_decide; [done|apply Hd].
Qed.

Lemma Inv_claimWater s x y :
  Inv s -> inGrid x y -> tag s x y = EMPTY -> Inv (claimWater x y s).
Proof.
  intros [Hg Hb Hr Hrt Hw Hd] Hin Ht. split.
  - by apply shaped_setCell.
  - done.
  - intros c Hc. destruct (Hr c Hc) as [Hcin Hct]. split; [done|].
    change (tag (setTag x y WATER s) c.1 c.2 = ROAD).
    rewrite tag_setTag by done. case_decide as Heq; [|done].
    destruct c; inversion Heq; subst. simpl in *. congruence.
  - intros x' y' Hin'.
    change (tag (setTag x y WATER s) x' y' = ROAD -> (x', y') ∈ roads s).
    rewrite tag_setTag by done. case_decide; [done|]. by apply Hrt.
  - intros c Hc. simpl in Hc.
    change (inGrid c.1 c.2 /\ tag (setTag x y WATER s) c.1 c.2 = WATER).
    rewrite tag_setTag by done.
    apply elem_of_app in Hc as [Hc|Hc].
    + destruct (Hw c Hc). split; [done|]. by case_decide.
    + apply list_elem_of_singleton in Hc as ->. simpl. split; [done|].
      by rewrite decide_True.
  - done.
Qed.

Lemma Inv_claimRoad s x y :
  Inv s -> inGrid x y -> tag s x y = EMPTY \/ tag s x y = ROAD ->
  Inv (claimRoad x y s).
Proof.
  intros [Hg Hb Hr Hrt Hw Hd] Hin Ht. split.
  - by apply shaped_setCell.
  - done.
  - intros c Hc. simpl in Hc.
    change (inGrid c.1 c.2 /\ tag (setTag x y ROAD s) c.1 c.2 = ROAD).
    rewrite tag_setTag by done.
    apply elem_of_app in Hc as [Hc|Hc].
    + destruct (Hr c Hc). split; [done|]. by case_decide.
    + apply list_elem_of_singleton in Hc as ->. simpl. split; [done|].
      by rewrite decide_True.
  - intros x' y' Hin'.
    change (tag (setTag x y ROAD s) x' y' = ROAD -> (x', y') ∈ roads s ++ [(x, y)]).
    rewrite tag_setTag by done. intros Ht'. apply elem_of_app.
    case_decide as Heq.
    + right. inversion Heq; subst. by apply list_elem_of_singleton.
    + left. by apply Hrt.
  - intros c Hc. destruct (Hw c Hc) as [Hcin Hct]. split; [done|].
    change (tag (setTag x y ROAD s) c.1 c.2 = WATER).
    rewrite tag_setTag by done. case_decide as Heq; [|done].
    destruct c; inversion Heq; subst. simpl in *. destruct Ht; congruence.
  - done.
Qed.

(** ** Loops *)

Lemma foldl_preserves {A S} (P : S -> Prop) (f : S -> A -> S) l s :
  (forall s a, a ∈ l -> P s -> P (f s a)) -> P s -> P (foldl f s l).
Proof.
  revert s. induction l as [|a l IH]; intros s Hf Hs; [done|]. simpl.
  apply IH.
  - intros s' a' Ha'. apply Hf. by right.
  - apply Hf; [by left|done].
Qed.

Lemma times_preserves (P : State -> Prop) n body s :
  (forall s, P s -> P (body s)) -> P s -> P (times n body s).
Proof. intros Hb. unfold times. apply foldl_preserves. intros; by apply Hb. Qed.

Lemma elem_of_seqZ_1 m n i : i ∈ seqZ m n -> m <= i < m + n.
Proof. by rewrite elem_of_seqZ. Qed.

(** ** Induction over generateTerrain

    A property of the state that survives an engine draw, a water claim
    and a forest or farm claim on an empty cell of the grid survives
    terrain generation. *)

Lemma expandFrontier_state chance x y queue s :
  exists r, (expandFrontier chance x y queue s).2 = set_rng r s.
Proof.
  unfold expandFrontier.
  apply (foldl_preserves
           (fun qs : list (Z * Z) * State => exists r, qs.2 = set_rng r s)).
  - intros [q s1] d _ [r Hr]. simpl in *. subst s1. rewrite drawUniform_eq.
    destruct (_ <? chance); simpl; eauto.
  - exists (rng s). by destruct s.
Qed.

Lemma expandFrontier_length chance x y queue s :
  (length (expandFrontier chance x y queue s).1 <= length queue + 4)%nat.
Proof.
  unfold expandFrontier. change (seqZ 0 4) with [0; 1; 2; 3]. cbn [foldl].
  repeat (rewrite drawUniform_eq; cbn [fst snd];
          match goal with |- context [if ?b then _ else _] => destruct b end;
          cbn [fst snd]);
    rewrite ?length_app; simpl; lia.
Qed.

(** The fuel handed to [regionGrow] never runs out: with at least
    [regionFuel queue size] rounds the loop stops because the queue is
    empty or the budget is spent, and more fuel changes nothing. *)
Lemma regionGrow_fuel fuel1 fuel2 claim chance queue size s :
  (regionFuel queue size <= fuel1)%nat ->
  (regionFuel queue size <= fuel2)%nat ->
  regionGrow fuel1 claim chance queue size s
  = regionGrow fuel2 claim chance queue size s.
Proof.
  unfold regionFuel.
  revert fuel2 queue size s.
  induction fuel1 as [|fuel1 IH]; intros fuel2 queue size s H1 H2.
  - destruct queue; [|simpl in H1; lia]. by destruct fuel2.
  - destruct fuel2 as [|fuel2].
    { destruct queue; [done|simpl in H2; lia]. }
    simpl. destruct queue as [|[x y] queue]; [done|]. simpl in H1, H2.
    destruct (size <=? 0) eqn:Hs; [done|]. apply Z.leb_gt in Hs.
    destruct (negb (isValidCell x y) || _); [apply IH; lia|].
    pose proof (expandFrontier_length chance x y queue (claim x y s)) as Hl.
    destruct (expandFrontier chance x y queue (claim x y s)) as [q2 s2].
    simpl in Hl. apply IH; lia.
Qed.

Section TerrainInduction.
Variable P : State -> Prop.
Hypothesis P_rng : forall s r, P s -> P (set_rng r s).
Hypothesis P_water : forall s x y,
  P s -> inGrid x y -> tag s x y = EMPTY -> P (claimWater x y s).
Hypothesis P_green : forall t s x y,
  t = FOREST \/ t = FARM ->
  P s -> inGrid x y -> tag s x y = EMPTY -> P (claimGreen t x y s).

Lemma stampRiver_ind s curX curY : P s -> P (stampRiver curX curY s).
Proof.
  unfold stampRiver. apply foldl_preserves. intros s1 ox _.
  apply foldl_preserves. intros s2 oy _ HP.
  destruct (isValidCell _ _ && _) eqn:Hc; [|done].
  apply andb_true_iff in Hc as [Hv Ht].
  apply isValidCell_true in Hv. apply bool_decide_eq_true in Ht.
  by apply P_water.
Qed.

Lemma riverWalk_ind n dir curX curY s :
  P s -> P (riverWalk n dir curX curY s).
Proof.
  revert dir curX curY s.
  induction n as [|n IH]; intros dir curX curY s HP; [done|].
  simpl. rewrite draw_eq.
  set (s1 := set_rng _ s).
  assert (P s1) as HP1 by by apply P_rng.
  destruct (_ mod 5 =? 0).
  - rewrite draw_eq.
    match goal with |- context [stampRiver _ _ ?s2] =>
      assert (P (stampRiver curX curY s2)) as HP3
        by by apply stampRiver_ind, P_rng end.
    destruct (isValidCell _ _); [by apply IH|done].
  - assert (P (stampRiver curX curY s1)) as HP3 by by apply stampRiver_ind.
    destruct (isValidCell _ _); [by apply IH|done].
Qed.

Lemma regionGrow_ind fuel claim chance queue size s :
  (forall s x y, P s -> inGrid x y -> tag s x y = EMPTY -> P (claim x y s)) ->
  P s -> P (regionGrow fuel claim chance queue size s).
Proof.
  intros Hclaim. revert queue size s.
  induction fuel as [|fuel IH]; intros queue size s HP; [done|].
  simpl. destruct queue as [|[x y] queue]; [done|].
  destruct (size <=? 0); [done|].
  destruct (negb (isValidCell x y) || _) eqn:Hskip; [by apply IH|].
  apply orb_false_iff in Hskip as [Hv Ht].
  apply negb_false_iff in Hv, Ht.
  apply isValidCell_true in Hv. apply bool_decide_eq_true in Ht.
  destruct (expandFrontier_state chance x y queue (claim x y s)) as [r Hr].
  destruct (expandFrontier chance x y queue (claim x y s)) as [q2 s2].
  simpl in Hr. subst s2. apply IH, P_rng. by apply Hclaim.
Qed.

Lemma waterBody_ind s : P s -> P (waterBody s).
Proof.
  intros HP. unfold waterBody. rewrite !drawUniform_eq.
  destruct (_ =? 0).
  - rewrite !draw_eq. by apply riverWalk_ind; repeat apply P_rng.
  - apply regionGrow_ind; [apply P_water|]. by repeat apply P_rng.
Qed.

Lemma forestPatch_ind s : P s -> P (forestPatch s).
Proof.
  intros HP. unfold forestPatch. rewrite !drawUniform_eq.
  apply regionGrow_ind; [intros; apply P_green; auto|].
  by repeat apply P_rng.
Qed.

Lemma farmPatch_ind s : P s -> P (farmPatch s).
Proof.
  intros HP. unfold farmPatch. rewrite !drawUniform_eq.
  apply foldl_preserves; [|by repeat apply P_rng].
  intros s1 x _. apply foldl_preserves. intros s2 y _ HP2.
  destruct (isValidCell _ _ && _) eqn:Hc; [|done].
  apply andb_true_iff in Hc as [Hv Ht].
  apply isValidCell_true in Hv. apply bool_decide_eq_true in Ht.
  apply P_green; auto.
Qed.

Lemma generateTerrain_ind s : P s -> P (generateTerrain s).
Proof.
  intros HP. unfold generateTerrain. rewrite !drawUniform_eq.
  apply times_preserves; [apply farmPatch_ind|]. apply P_rng.
  apply times_preserves; [apply forestPatch_ind|]. apply P_rng.
  apply times_preserves; [apply waterBody_ind|]. by apply P_rng.
Qed.
End TerrainInduction.

Lemma Inv_claimGreen t s x y :
  t <> ROAD -> Inv s -> inGrid x y -> tag s x y = EMPTY ->
  Inv (claimGreen t x y s).
Proof.
  intros Ht HI Hin He. unfold claimGreen. rewrite draw_eq.
  assert (Inv (setTag x y t s)) as H1
    by (apply Inv_setTag; try done; congruence).
  set (s1 := setTag x y t s) in *.
  assert (Inv (setRecord x y (withType t (record s1 x y)) s1)) as H2
    by (apply Inv_setRecord; [done|done|apply (inv_density _ H1)]).
  set (s2 := setRecord x y _ s1) in *.
  apply (Inv_set_rng _ (gen (rng s2)).2) in H2.
  apply Inv_setRecord; [done|done|apply (inv_density _ H2)].
Qed.

Lemma Inv_generateTerrain s : Inv s -> Inv (generateTerrain s).
Proof.
  apply generateTerrain_ind.
  - intros; by apply Inv_set_rng.
  - apply Inv_claimWater.
  - intros t s1 x y [->| ->]; by apply Inv_claimGreen.
Qed.

(** The frame of terrain generation: it touches neither the cars nor
    the roads nor the step counter. *)
Lemma claimGreen_frame t x y s :
  cars (claimGreen t x y s) = cars s
  /\ roads (claimGreen t x y s) = roads s
  /\ currentStep (claimGreen t x y s) = currentStep s.
Proof. unfold claimGreen. by rewrite draw_eq. Qed.

Lemma generateTerrain_frame s :
  cars (generateTerrain s) = cars s
  /\ roads (generateTerrain s) = roads s
  /\ currentStep (generateTerrain s) = currentStep s.
Proof.
  apply (generateTerrain_ind
           (fun s1 => cars s1 = cars s /\ roads s1 = roads s
                      /\ currentStep s1 = currentStep s)); try done.
  intros t s1 x y _ HP _ _.
  destruct (claimGreen_frame t x y s1) as (-> & -> & ->). done.
Qed.

(** ** std::shuffle rearranges *)

Lemma swap_Permutation {A} (l : list A) i j : swap l i j ≡ₚ l.
Proof.
  unfold swap. destruct (l !! i) as [a|] eqn:Hi; [|done].
  destruct (l !! j) as [b|] eqn:Hj; [|done].
  by apply Permutation_insert_swap.
Qed.

Lemma shuffleFrom_Permutation {A} n i (l : list A) r :
  (shuffleFrom n i l r).1 ≡ₚ l.
Proof.
  revert i l r. induction n as [|n IH]; intros i l r; [done|]. simpl.
  destruct (uniform_int 0 (Z.of_nat i) r) as [j r1]. rewrite IH.
  apply swap_Permutation.
Qed.

Lemma shuffle_Permutation {A} (l : list A) r : (shuffle l r).1 ≡ₚ l.
Proof. apply shuffleFrom_Permutation. Qed.

Lemma shuffle_nil {A} r : shuffle (@nil A) r = ([], r).
Proof. done. Qed.

Lemma elem_of_take_shuffle {A} (l : list A) r n x :
  x ∈ take n (shuffle l r).1 -> x ∈ l.
Proof.
  intros Hx. rewrite <- (shuffle_Permutation l r).
  apply elem_of_take in Hx as (i & Hi & _). by eapply list_elem_of_lookup_2.
Qed.

(** ** Growth of the grid

    [Grows s s'] relates a state to a later one of the same run once the
    terrain exists: a cell that has a tag keeps it, the cars, the water
    sequence and the step counter are untouched, roads are only added,
    and the record of a built cell does not lose age or density. *)

Lemma Grows_refl s : Grows s s.
Proof. split; done. Qed.

Lemma isBuilt_not_empty t : isBuilt t = true -> t <> EMPTY.
Proof. by destruct t. Qed.

Lemma Grows_trans s1 s2 s3 : Grows s1 s2 -> Grows s2 s3 -> Grows s1 s3.
Proof.
  intros [Ht Hc Hw Hs Hr Hb] [Ht' Hc' Hw' Hs' Hr' Hb']. split; try congruence.
  - intros x y Hne. rewrite Ht', Ht; try done. by rewrite Ht.
  - auto.
  - intros x y Hbuilt. pose proof (isBuilt_not_empty _ Hbuilt) as Hne.
    destruct (Hb x y Hbuilt). destruct (Hb' x y); [by rewrite Ht|]. lia.
Qed.

Lemma Grows_set_rng s r : Grows s (set_rng r s).
Proof. split; done. Qed.

Lemma Grows_claimRoad s x y :
  Inv s -> inGrid x y -> tag s x y = EMPTY \/ tag s x y = ROAD ->
  Grows s (claimRoad x y s).
Proof.
  intros HI Hin Ht. split; try done.
  - intros x' y' Hne.
    change (tag (setTag x y ROAD s) x' y' = tag s x' y').
    rewrite tag_setTag by (done || apply HI).
    case_decide as Heq; [|done]. inversion Heq; subst.
    destruct Ht; congruence.
  - intros c Hc. simpl. apply elem_of_app. by left.
Qed.

(** ** Induction over generateInitialRoads

    A property that survives an engine draw, a road claim on an empty
    cell of the grid and [addRandomCar] survives the initial road
    layout.  The two arterial loops index the grid without a bounds
    check, so the grid must have a middle row and column. *)

Lemma addRandomCar_world s :
  exists cs r, addRandomCar s = set_cars cs (set_rng r s).
Proof.
  unfold addRandomCar. destruct (roads s) eqn:Hr.
  - exists (cars s), (rng s). by destruct s.
  - rewrite !drawUniform_eq.
    destruct (default _ _) as [x y]. rewrite draw_eq, !drawUniform_eq.
    simpl. eauto.
Qed.

Section RoadInduction.
Hypothesis width_pos : 0 < GRID_WIDTH.
Hypothesis height_pos : 0 < GRID_HEIGHT.
Variable P : State -> Prop.
Hypothesis P_rng : forall s r, P s -> P (set_rng r s).
Hypothesis P_road : forall s x y,
  P s -> inGrid x y -> tag s x y = EMPTY -> P (claimRoad x y s).
Hypothesis P_car : forall s, P s -> P (addRandomCar s).

Lemma branchWalk_ind n dir x y s : P s -> P (branchWalk n dir x y s).
Proof.
  revert x y s. induction n as [|n IH]; intros x y s HP; [done|]. simpl.
  destruct (isValidCell _ _ && _) eqn:Hc; [|done].
  apply andb_true_iff in Hc as [Hv Ht].
  apply isValidCell_true in Hv. apply bool_decide_eq_true in Ht.
  apply IH, P_road; auto.
Qed.

Lemma branchRoad_ind mx my s i : P s -> P (branchRoad mx my s i).
Proof.
  intros HP. unfold branchRoad.
  destruct (Z.rem i 2 =? 0); rewrite !drawUniform_eq;
    by apply branchWalk_ind; repeat apply P_rng.
Qed.

Lemma generateInitialRoads_ind s : P s -> P (generateInitialRoads s).
Proof.
  intros HP. unfold generateInitialRoads.
  pose proof (Z.quot_pos GRID_WIDTH 2). pose proof (Z.quot_lt GRID_WIDTH 2).
  pose proof (Z.quot_pos GRID_HEIGHT 2). pose proof (Z.quot_lt GRID_HEIGHT 2).
  apply times_preserves; [apply P_car|].
  apply foldl_preserves; [intros; by apply branchRoad_ind|].
  apply foldl_preserves.
  { intros s1 y Hy%elem_of_seqZ_1 HP1. case_bool_decide as Ht; [|done].
    apply P_road; auto. split; lia. }
  apply foldl_preserves; [|done].
  intros s1 x Hx%elem_of_seqZ_1 HP1. case_bool_decide as Ht; [|done].
  apply P_road; auto. split; lia.
Qed.
End RoadInduction.

Lemma blank_cell {A} (v : A) x y :
  cell v (replicate (Z.to_nat GRID_WIDTH) (replicate (Z.to_nat GRID_HEIGHT) v)) x y
  = v.
Proof.
  unfold cell. destruct (_ && _); [|done].
  destruct (replicate _ _ !! _) as [col|] eqn:Hc; [|done].
  apply lookup_replicate in Hc as [-> _].
  destruct (replicate _ _ !! _) as [w|] eqn:Hw; [|done].
  by apply lookup_replicate in Hw as [-> _].
Qed.

Lemma Inv_blank r : Inv (blank r).
Proof.
  split; simpl; try apply shaped_replicate.
  - intros c Hc. inversion Hc.
  - intros x y _. unfold tag. simpl. by rewrite blank_cell.
  - intros c Hc. inversion Hc.
  - intros x y. unfold record. simpl. by rewrite blank_cell.
Qed.

(** ** growCity: the placement loop *)

Lemma chooseType_placed s x y r : isPlaced (chooseType s x y r) = true.
Proof.
  unfold chooseType.
  repeat match goal with |- context [if ?b then _ else _] => destruct b end; done.
Qed.

Lemma isPlaced_isBuilt t : isPlaced t = true -> isBuilt t = true.
Proof. by destruct t. Qed.

Lemma chooseType_set_rng r s x y v :
  chooseType (set_rng r s) x y v = chooseType s x y v.
Proof.
  unfold chooseType, countNeighborsOfTypeInRadius.
  change (tag (set_rng r s)) with (tag s).
  change (currentStep (set_rng r s)) with (currentStep s).
  reflexivity.
Qed.

Lemma record_set_rng r s x y : record (set_rng r s) x y = record s x y.
Proof. reflexivity. Qed.

(** What one round of the placement loop does to the state: the tag of
    the candidate becomes the chosen type, its record is rewritten with
    density 1 and age 0, nothing else but the engine changes. *)
Lemma placeBuilding_spec s x y :
  Inv s -> inGrid x y ->
  let t := chooseType s x y (uniform_int 0 100 (rng s)).1 in
  let s' := placeBuilding s (x, y) in
  grid s' = setCell (grid s) x y t
  /\ roads s' = roads s /\ cars s' = cars s
  /\ waterCells s' = waterCells s /\ currentStep s' = currentStep s
  /\ shaped GRID_WIDTH GRID_HEIGHT (buildings s')
  /\ exists b, b_type b = t /\ density b = 1 /\ age b = 0
      /\ forall x' y', record s' x' y'
                       = if decide ((x, y) = (x', y')) then b else record s x' y'.
Proof.
  intros HI Hin t s'.
  assert (s' = placeBuilding s (x, y)) as Hs' by done. clearbody s'.
  unfold placeBuilding in Hs'. rewrite !drawUniform_eq in Hs'.
  cbv zeta in Hs'. rewrite !chooseType_set_rng in Hs'. fold t in Hs'.
  pose proof (inv_bld _ HI) as Hb.
  set (st := styleOfInt _) in Hs'. set (va := (uniform_int 0 4 _).1) in Hs'.
  set (s4 := set_rng _ (set_rng _ (setTag x y t (set_rng _ s)))) in Hs'.
  set (b0 := mkBuilding t 1 0 st va (hasTree (record s4 x y)) (hasCar (record s4 x y))) in Hs'.
  assert (shaped GRID_WIDTH GRID_HEIGHT (buildings (setRecord x y b0 s4))) as Hb5
    by by apply shaped_setCell.
  assert (forall x' y', record (setRecord x y b0 s4) x' y'
            = if decide ((x, y) = (x', y')) then b0 else record s x' y') as Hr5.
  { intros x' y'. by rewrite record_setRecord. }
  destruct (bool_decide (t = RESIDENTIAL) || bool_decide (t = COMMERCIAL)).
  - destruct (_ <? 40); subst s'.
    + repeat (split; [done|]). split; [by apply shaped_setCell|].
      exists (withTree b0). repeat (split; [done|]).
      intros x' y'. rewrite record_setRecord by done.
      rewrite !record_set_rng, !Hr5. case_decide; [|done].
      by rewrite decide_True.
    + repeat (split; [done|]). exists b0. by repeat (split; [done|]).
  - subst s'. repeat (split; [done|]). exists b0. by repeat (split; [done|]).
Qed.

Lemma PlaceInv_set_rng s0 s r : PlaceInv s0 s -> PlaceInv s0 (set_rng r s).
Proof.
  intros [HI HG HR HT].
  split; [by apply Inv_set_rng|by destruct HG|done|done].
Qed.

Lemma PlaceInv_placeBuilding s0 s x y :
  inGrid x y -> tag s0 x y = EMPTY ->
  PlaceInv s0 s -> PlaceInv s0 (placeBuilding s (x, y)).
Proof.
  intros Hin He [HI HG HR HT].
  destruct (placeBuilding_spec s x y HI Hin)
    as (Hg & Hr & Hc & Hw & Hs & Hb & b & Hbt & Hbd & Hba & Hrec).
  set (t := chooseType _ _ _ _) in *. set (s' := placeBuilding _ _) in *.
  pose proof (chooseType_placed s x y (uniform_int 0 100 (rng s)).1) as Hpl.
  fold t in Hpl.
  assert (forall x' y', tag s' x' y'
            = if decide ((x, y) = (x', y')) then t else tag s x' y') as Htag.
  { intros x' y'. unfold tag at 1. rewrite Hg.
    apply (tag_setTag s x y t x' y'); [apply HI|done]. }
  split.
  - destruct HI as [Hig Hib Hir Hirt Hiw Hid]. split.
    + rewrite Hg. by apply shaped_setCell.
    + done.
    + intros c. rewrite Hr. intros Hc'. destruct (Hir c Hc') as [? Hct].
      split; [done|]. rewrite Htag. case_decide as Heq; [|done].
      destruct c; inversion Heq; subst; simpl in *.
      destruct (HT _ _ He) as [Hx|Hx]; rewrite Hct in Hx; done.
    + intros x' y' Hin'. rewrite Htag, Hr. case_decide; [|by apply Hirt].
      intros ->. done.
    + intros c. rewrite Hw. intros Hc'. destruct (Hiw c Hc') as [? Hct].
      split; [done|]. rewrite Htag. case_decide as Heq; [|done].
      destruct c; inversion Heq; subst; simpl in *.
      destruct (HT _ _ He) as [Hx|Hx]; rewrite Hct in Hx; done.
    + intros x' y'. rewrite Hrec. case_decide; [lia|apply Hid].
  - destruct HG as [Gt Gc Gw Gs Gr Gb]. split; try congruence.
    + intros x' y' Hne. rewrite Htag. case_decide as Heq; [|by apply Gt].
      inversion Heq; subst. done.
    + intros x' y' Hbuilt. rewrite Hrec. case_decide as Heq; [|by apply Gb].
      inversion Heq; subst. by rewrite He in Hbuilt.
  - congruence.
  - intros x' y' He'. rewrite Htag. case_decide; [by right|by apply HT].
Qed.

Lemma buildingSpots_spec s c :
  c ∈ buildingSpots s ->
  inGrid c.1 c.2 /\ tag s c.1 c.2 = EMPTY
  /\ exists r, r ∈ roads s /\ c ∈ neighbours4 r.1 r.2.
Proof.
  unfold buildingSpots. intros ([rx ry] & Hc & Hr)%list_elem_of_bind.
  apply list_elem_of_filter in Hc as [He Hn].
  apply Is_true_true in He. unfold isEmptyCell in He.
  apply andb_true_iff in He as [Hv Ht].
  apply isValidCell_true in Hv. apply bool_decide_eq_true in Ht.
  split; [done|]. split; [done|]. by exists (rx, ry).
Qed.

Lemma PlaceInv_placeBuildings s : Inv s -> PlaceInv s (placeBuildings s).
Proof.
  intros HI. unfold placeBuildings.
  destruct (shuffle (buildingSpots s) (rng s)) as [spots r] eqn:Hsh.
  apply foldl_preserves.
  - intros s1 [x y] Hc.
    replace spots with (shuffle (buildingSpots s) (rng s)).1 in Hc
      by by rewrite Hsh.
    apply elem_of_take_shuffle, buildingSpots_spec in Hc as (Hin & He & _).
    by apply PlaceInv_placeBuilding.
  - apply PlaceInv_set_rng. split; [done|apply Grows_refl|done|by left].
Qed.

(** ** growCity: the maturation pass *)

Lemma RecUpd_refl x y s :
  shaped GRID_WIDTH GRID_HEIGHT (buildings s) -> RecUpd x y s s.
Proof. intros Hs. split; try done; lia. Qed.

Lemma RecUpd_set_rng x y s s1 r : RecUpd x y s s1 -> RecUpd x y s (set_rng r s1).
Proof. by intros []. Qed.

Lemma RecUpd_setRecord x y s s1 b :
  inGrid x y -> RecUpd x y s s1 ->
  b_type b = b_type (record s1 x y) ->
  age (record s1 x y) <= age b ->
  density (record s1 x y) <= density b ->
  (density (record s1 x y) <= 3 -> density b <= 3) ->
  RecUpd x y s (setRecord x y b s1).
Proof.
  intros Hin [Hg Hr Hc Hw Hs Hsh Ho Ht Ha Hd Hb] Hbt Hba Hbd Hbb.
  assert (record (setRecord x y b s1) x y = b) as Hxy
    by by rewrite record_setRecord, decide_True.
  split; try done; rewrite ?Hxy; try congruence; try lia.
  - by apply shaped_setCell.
  - intros x' y' Hne. rewrite record_setRecord, decide_False by done. auto.
Qed.

Lemma tag_same_grid s s' x y : grid s' = grid s -> tag s' x y = tag s x y.
Proof. unfold tag. by intros ->. Qed.

Lemma Inv_RecUpd x y s s' : Inv s -> RecUpd x y s s' -> Inv s'.
Proof.
  intros [Hig Hib Hir Hirt Hiw Hid] [Hg Hr Hc Hw Hs Hsh Ho Ht Ha Hd Hb].
  split; try done.
  - by rewrite Hg.
  - intros c. rewrite Hr, (tag_same_grid s s') by done. apply Hir.
  - intros x' y'. rewrite Hr, (tag_same_grid s s') by done. apply Hirt.
  - intros c. rewrite Hw, (tag_same_grid s s') by done. apply Hiw.
  - intros x' y'. destruct (decide ((x, y) = (x', y'))) as [Heq|Hne].
    + inversion Heq; subst. apply Hb, Hid.
    + rewrite Ho by done. apply Hid.
Qed.

Lemma Grows_RecUpd x y s s' : RecUpd x y s s' -> Grows s s'.
Proof.
  intros [Hg Hr Hc Hw Hs Hsh Ho Ht Ha Hd Hb]. split; try done.
  - intros x' y' _. by apply tag_same_grid.
  - intros c. by rewrite Hr.
  - intros x' y' _. destruct (decide ((x, y) = (x', y'))) as [Heq|Hne].
    + inversion Heq; subst. lia.
    + by rewrite Ho.
Qed.

Lemma matureCell_RecUpd s x y :
  shaped GRID_WIDTH GRID_HEIGHT (buildings s) -> inGrid x y ->
  RecUpd x y s (matureCell x y s).
Proof.
  intros Hsh Hin. unfold matureCell.
  destruct (isBuilt (tag s x y)); [|by apply RecUpd_refl].
  set (s1 := setRecord x y _ s).
  assert (RecUpd x y s s1) as R1.
  { apply RecUpd_setRecord; simpl; try done; try lia; by apply RecUpd_refl. }
  match goal with |- context [if negb (hasTree (record ?s x y)) && _ && _
                              then _ else _] => set (s2 := s) end.
  assert (RecUpd x y s s2) as R2.
  { unfold s2. destruct (_ && (density _ <? 3)) eqn:Hc; [|done].
    apply andb_true_iff in Hc as [_ Hd%Z.ltb_lt].
    destruct (_ || _ || _); [|done].
    rewrite draw_eq. destruct (_ <? 3); [|by apply RecUpd_set_rng].
    apply RecUpd_setRecord; simpl; rewrite ?record_set_rng;
      try done; try lia; by apply RecUpd_set_rng. }
  clearbody s2. destruct (_ && _ && _); [|done].
  rewrite draw_eq. destruct (_ <? 4); [|by apply RecUpd_set_rng].
  apply RecUpd_setRecord; simpl; rewrite ?record_set_rng;
    try done; try lia; by apply RecUpd_set_rng.
Qed.

Lemma matureCell_idle s x y : isBuilt (tag s x y) = false -> matureCell x y s = s.
Proof. unfold matureCell. by intros ->. Qed.

Lemma MatInv_matureCell s0 s x y :
  inGrid x y -> MatInv s0 s -> MatInv s0 (matureCell x y s).
Proof.
  intros Hin [HI HG Hg Hr Ht Hi].
  pose proof (matureCell_RecUpd s x y (inv_bld _ HI) Hin) as R.
  split.
  - by eapply Inv_RecUpd.
  - eapply Grows_trans; [done|]. by eapply Grows_RecUpd.
  - rewrite <- Hg. apply R.
  - rewrite <- Hr. apply R.
  - intros x' y'. rewrite <- Ht.
    destruct (decide ((x, y) = (x', y'))) as [Heq|Hne].
    + inversion Heq; subst. apply R.
    + by rewrite (ru_other _ _ _ _ R).
  - intros x' y' Hidle. rewrite <- Hi by done.
    destruct (decide ((x, y) = (x', y'))) as [Heq|Hne].
    + inversion Heq; subst. rewrite matureCell_idle; [done|].
      by rewrite (tag_same_grid s0 s).
    + by rewrite (ru_other _ _ _ _ R).
Qed.

Lemma MatInv_matureBuildings s : Inv s -> MatInv s (matureBuildings s).
Proof.
  intros HI. unfold matureBuildings.
  apply foldl_preserves.
  - intros s1 x Hx%elem_of_seqZ_1. apply foldl_preserves.
    intros s2 y Hy%elem_of_seqZ_1. apply MatInv_matureCell. split; lia.
  - split; try done; apply Grows_refl.
Qed.

(** ** growCity: the road extension *)

Lemma roadSpots_spec s c :
  c ∈ roadSpots s ->
  inGrid c.1 c.2 /\ tag s c.1 c.2 = EMPTY /\ nearRoad s c = true.
Proof.
  unfold roadSpots. intros ([x y] & Hc & _)%list_elem_of_bind.
  destruct (isBuilt (tag s x y)); [|by apply elem_of_nil in Hc].
  apply list_elem_of_filter in Hc as [He _].
  apply Is_true_true in He. apply andb_true_iff in He as [He Hn].
  unfold isEmptyCell in He. apply andb_true_iff in He as [Hv Ht].
  apply isValidCell_true in Hv. by apply bool_decide_eq_true in Ht.
Qed.

Lemma ExtInv_claimRoad s0 s x y :
  inGrid x y -> tag s0 x y = EMPTY -> ExtInv s0 s -> ExtInv s0 (claimRoad x y s).
Proof.
  intros Hin He [HI HG Hb Ht]. split.
  - apply Inv_claimRoad; auto.
  - eapply Grows_trans; [done|]. apply Grows_claimRoad; auto.
  - done.
  - intros x' y' He'.
    change (tag (claimRoad x y s) x' y') with (tag (setTag x y ROAD s) x' y').
    rewrite tag_setTag by (done || apply HI). case_decide; auto.
Qed.

Lemma ExtInv_extendRoads s : Inv s -> ExtInv s (extendRoads s).
Proof.
  intros HI. unfold extendRoads.
  destruct (shuffle (roadSpots s) (rng s)) as [spots r] eqn:Hsh.
  apply foldl_preserves.
  - intros s1 [x y] Hc.
    replace spots with (shuffle (roadSpots s) (rng s)).1 in Hc by by rewrite Hsh.
    apply elem_of_take_shuffle, roadSpots_spec in Hc as (Hin & He & _).
    by apply ExtInv_claimRoad.
  - split; [by apply Inv_set_rng|apply Grows_set_rng|done|by left].
Qed.

Lemma growCity_Inv_Grows s :
  Inv s -> Inv (growCity s).1 /\ Grows s (growCity s).1.
Proof.
  intros HI. unfold growCity.
  destruct (PlaceInv_placeBuildings s HI) as [HI1 HG1 _ _].
  destruct (MatInv_matureBuildings _ HI1) as [HI2 HG2 _ _ _ _].
  assert (Grows s (matureBuildings (placeBuildings s))) as HG
    by by eapply Grows_trans.
  destruct (_ =? 0); simpl; [|done].
  destruct (ExtInv_extendRoads _ HI2) as [HI3 HG3 _ _].
  split; [done|]. by eapply Grows_trans.
Qed.

(** ** updateCars leaves the world alone *)

Lemma moveCars_length s cs r : length (moveCars s cs r).1 = length cs.
Proof.
  revert r. induction cs as [|c cs IH]; intros r; [done|]. simpl.
  destruct (moveCar s c r) as [c' r1]. specialize (IH r1).
  destruct (moveCars s cs r1) as [cs' r2]. simpl in *. by rewrite IH.
Qed.

Lemma updateCars_world s :
  exists cs r, updateCars s = set_cars cs (set_rng r s).
Proof.
  unfold updateCars. destruct (roads s) eqn:Hr.
  - exists (cars s), (rng s). by destruct s.
  - destruct (moveCars s (cars s) (rng s)) as [cs r]. rewrite draw_eq.
    destruct (_ && _).
    + destruct (addRandomCar_world
                  (set_rng (gen (rng (set_rng r (set_cars cs s)))).2
                           (set_rng r (set_cars cs s)))) as (cs' & r' & ->).
      by exists cs', r'.
    + by eexists cs, _.
Qed.

Lemma Evolves_refl s : Evolves s s.
Proof. by split. Qed.

Lemma Evolves_trans s1 s2 s3 : Evolves s1 s2 -> Evolves s2 s3 -> Evolves s1 s3.
Proof.
  intros [Ht Hw Hr Hb] [Ht' Hw' Hr' Hb']. split; try congruence.
  - intros x y Hne. rewrite Ht', Ht; try done. by rewrite Ht.
  - auto.
  - intros x y Hbuilt. pose proof (isBuilt_not_empty _ Hbuilt) as Hne.
    destruct (Hb x y Hbuilt). destruct (Hb' x y); [by rewrite Ht|]. lia.
Qed.

Lemma Grows_Evolves s s' : Grows s s' -> Evolves s s'.
Proof. by intros []. Qed.

Lemma simulationStep_Inv_Evolves s r :
  Inv s ->
  Inv (simulationStep (set_rng r s)).1
  /\ Evolves s (simulationStep (set_rng r s)).1.
Proof.
  intros HI. unfold simulationStep.
  destruct (updateCars_world (set_rng r s)) as (cs & r' & ->).
  set (s1 := set_cars cs (set_rng r' (set_rng r s))).
  assert (Inv s1) as HI1 by by repeat (apply Inv_set_cars || apply Inv_set_rng).
  assert (Evolves s s1) as HE1 by by split.
  destruct (Z.rem (currentStep s1) 3 =? 0).
  - destruct (growCity_Inv_Grows s1 HI1) as [HI2 HG2].
    destruct (growCity s1) as [s2 log]. simpl in *. split.
    + by apply Inv_set_currentStep.
    + eapply Evolves_trans; [done|]. by destruct HG2.
  - simpl. split; [by apply Inv_set_currentStep|done].
Qed.

(** ** Runs *)

Lemma ticks_Inv_Evolves s s' : Inv s -> ticks s s' -> Inv s' /\ Evolves s s'.
Proof.
  intros HI. induction 1 as [|s' r _ [HI' HE'] _].
  - split; [done|apply Evolves_refl].
  - destruct (simulationStep_Inv_Evolves s' r HI') as [HI2 HE2].
    split; [done|]. by eapply Evolves_trans.
Qed.

Section Dimensions.
Hypothesis width_pos : 0 < GRID_WIDTH.
Hypothesis height_pos : 0 < GRID_HEIGHT.

Lemma generateInitialRoads_Inv_Evolves s :
  Inv s ->
  Inv (generateInitialRoads s) /\ Evolves s (generateInitialRoads s).
Proof.
  intros HI.
  apply (generateInitialRoads_ind width_pos height_pos
           (fun s1 => Inv s1 /\ Evolves s s1)).
  - intros s1 r [HI1 HE1]. split; [by apply Inv_set_rng|by destruct HE1].
  - intros s1 x y [HI1 HE1] Hin He. split; [apply Inv_claimRoad; auto|].
    eapply Evolves_trans; [done|].
    apply Grows_Evolves, Grows_claimRoad; auto.
  - intros s1 [HI1 HE1]. destruct (addRandomCar_world s1) as (cs & r & ->).
    split; [by apply Inv_set_cars, Inv_set_rng|by destruct HE1].
  - split; [done|apply Evolves_refl].
Qed.

Lemma Inv_initializeGrid r : Inv (initializeGrid r).
Proof.
  apply generateInitialRoads_Inv_Evolves, Inv_generateTerrain, Inv_blank.
Qed.

Lemma reachable_Inv s : reachable s -> Inv s.
Proof.
  intros [r Ht]. eapply ticks_Inv_Evolves; [|done].
  by apply Inv_initializeGrid.
Qed.
End Dimensions.

(** ** Properties of the run *)

(** C1.  In every state of a run (after [initializeGrid] and any number
    of ticks) every coordinate of the road sequence is a cell of the
    grid tagged Road, and every cell of the grid tagged Road is in the
    road sequence. *)
Theorem roads_and_road_tags_agree s :
  0 < GRID_WIDTH -> 0 < GRID_HEIGHT -> reachable s ->
  (forall x y, (x, y) ∈ roads s -> inGrid x y /\ tag s x y = ROAD)
  /\ (forall x y, inGrid x y -> tag s x y = ROAD -> (x, y) ∈ roads s).
Proof.
  intros Hw Hh Hr. destruct (reachable_Inv Hw Hh s Hr) as [_ _ Hroads Htags _ _].
  split; [|done]. intros x y Hxy. apply (Hroads (x, y) Hxy).
Qed.

(** C6.  Along a run, the record of a cell that carries a building
    (any tag but Empty, Road and Water) never loses age or density from
    one tick to a later one, and its density stays at most 3. *)
Theorem age_and_density_monotone s s' x y :
  0 < GRID_WIDTH -> 0 < GRID_HEIGHT ->
  reachable s -> ticks s s' -> isBuilt (tag s x y) = true ->
  age (record s x y) <= age (record s' x y)
  /\ density (record s x y) <= density (record s' x y)
  /\ density (record s' x y) <= 3.
Proof.
  intros Hw Hh Hr Ht Hb. pose proof (reachable_Inv Hw Hh s Hr) as HI.
  destruct (ticks_Inv_Evolves s s' HI Ht) as [HI' HE].
  destruct (ev_records _ _ HE x y Hb). pose proof (inv_density _ HI' x y). lia.
Qed.

(** C9.  Every coordinate of the water sequence built by
    [generateTerrain] is a cell of the grid tagged Water when terrain
    generation ends; the road layout and the ticks that follow leave the
    sequence as it is and leave each of its cells tagged Water. *)
Theorem water_cells_stay_water r s :
  0 < GRID_WIDTH -> 0 < GRID_HEIGHT ->
  ticks (generateInitialRoads (generateTerrain (blank r))) s ->
  (forall x y, (x, y) ∈ waterCells (generateTerrain (blank r)) ->
     inGrid x y /\ tag (generateTerrain (blank r)) x y = WATER)
  /\ waterCells s = waterCells (generateTerrain (blank r))
  /\ (forall x y, (x, y) ∈ waterCells (generateTerrain (blank r)) ->
        tag s x y = WATER).
Proof.
  intros Hw Hh Ht. set (t := generateTerrain (blank r)) in *.
  assert (Inv t) as HIt by apply Inv_generateTerrain, Inv_blank.
  destruct (generateInitialRoads_Inv_Evolves Hw Hh t HIt) as [HI0 HE0].
  destruct (ticks_Inv_Evolves _ s HI0 Ht) as [HI HE].
  pose proof (Evolves_trans _ _ _ HE0 HE) as [Htags Hwater _ _].
  assert (forall x y, (x, y) ∈ waterCells t -> inGrid x y /\ tag t x y = WATER)
    as Hwt by (intros x y Hxy; apply (inv_water _ HIt (x, y) Hxy)).
  split; [done|]. split; [done|].
  intros x y Hxy. destruct (Hwt x y Hxy) as [_ Htw].
  rewrite Htags; [done|]. by rewrite Htw.
Qed.

(** ** Traffic: what happens to a blocked car *)

Lemma possibleDirs_candidateDirs s car :
  0 <= direction car <= 3 -> possibleDirs s car = candidateDirs s car.
Proof.
  intros Hd. unfold possibleDirs, candidateDirs.
  change (seqZ 0 4) with [0; 1; 2; 3]. cbn [foldl List.filter].
  repeat match goal with
         | |- context [isValidCell (to_int (car_x car) + dx ?d) ?b && ?c] =>
             change (isValidCell (to_int (car_x car) + dx d) b && c)
               with (leadsToRoad s car d)
         end.
  assert (direction car = 0 \/ direction car = 1
          \/ direction car = 2 \/ direction car = 3) as Hc by lia.
  destruct Hc as [-> | [-> | [-> | ->]]]; simpl;
    destruct (leadsToRoad s car 0), (leadsToRoad s car 1),
             (leadsToRoad s car 2), (leadsToRoad s car 3); reflexivity.
Qed.

Lemma elem_of_candidateDirs s car d :
  d ∈ candidateDirs s car ->
  0 <= d <= 3 /\ d <> reverse (direction car) /\ leadsToRoad s car d = true.
Proof.
  unfold candidateDirs. rewrite list_elem_of_In, filter_In.
  intros [Hin Hf]. apply andb_true_iff in Hf as [Hr Hl].
  apply negb_true_iff, Z.eqb_neq in Hr.
  split; [|done]. simpl in Hin. lia.
Qed.

Lemma uniform_index {A} (l : list A) r :
  l <> [] ->
  exists a, l !! Z.to_nat (uniform_int 0 (Z.of_nat (length l) - 1) r).1 = Some a.
Proof.
  intros Hl. apply lookup_lt_is_Some_2.
  assert (0 < length l)%nat by (destruct l; simpl; [done|lia]).
  pose proof (uniform_int_range 0 (Z.of_nat (length l) - 1) r). lia.
Qed.

Lemma moveCar_blocked s car r :
  roads s <> [] -> 0 <= direction car <= 3 ->
  blocked s (stepX car (direction car)) (stepY car (direction car)) = true ->
  rerouted s car (moveCar s car r).1.
Proof.
  intros Hroads Hdir Hb. unfold moveCar. rewrite Hb.
  rewrite possibleDirs_candidateDirs by done.
  destruct (candidateDirs s car) as [|d ds] eqn:Hc.
  - destruct (uniform_index (roads s) r Hroads) as [[rx ry] Hi].
    destruct (uniform_int 0 (Z.of_nat (length (roads s)) - 1) r) as [idx r1].
    simpl in Hi. rewrite Hi. simpl.
    pose proof (uniform_int_range 0 3 r1 ltac:(lia)).
    destruct (uniform_int 0 3 r1) as [dir r2]. simpl in *.
    split; [done|]. split; [done|]. intros _. exists (Z.to_nat idx), rx, ry.
    repeat split; try done; simpl; lia.
  - destruct (uniform_index (d :: ds) r) as [dir Hi]; [done|].
    destruct (uniform_int 0 (Z.of_nat (length (d :: ds)) - 1) r) as [k r1].
    simpl in Hi. rewrite Hi. simpl. split; [done|].
    split; [|by rewrite Hc]. intros _.
    split; [|done]. rewrite Hc. by eapply list_elem_of_lookup_2.
Qed.

Lemma moveCars_lookup s cs r i car :
  cs !! i = Some car ->
  exists r', (moveCars s cs r).1 !! i = Some (moveCar s car r').1.
Proof.
  revert r i. induction cs as [|c cs IH]; intros r i Hi; [done|]. simpl.
  destruct (moveCar s c r) as [c' r1] eqn:Hc.
  destruct i as [|i]; simpl in Hi.
  - inversion Hi; subst. exists r.
    destruct (moveCars s cs r1). simpl. by rewrite Hc.
  - destruct (IH r1 i Hi) as [r' Hr']. exists r'.
    by destruct (moveCars s cs r1).
Qed.

Lemma addRandomCar_spec s :
  roads s <> [] ->
  exists i x y g dir col r,
    roads s !! i = Some (x, y) /\ 0 <= dir <= 3
    /\ addRandomCar s
       = set_cars (cars s ++ [mkCar (of_int x) (of_int y) (dist_speed g) dir
                                    (Z.of_nat i) col])
                  (set_rng r s).
Proof.
  intros Hroads. unfold addRandomCar.
  destruct (roads s) as [|c cs] eqn:Hr; [done|]. rewrite <- Hr in *.
  rewrite drawUniform_eq.
  destruct (uniform_index (roads s) (rng s) Hroads) as [[x y] Hi].
  pose proof (uniform_int_range 0 (Z.of_nat (length (roads s)) - 1) (rng s)) as Hrg.
  assert (0 < length (roads s))%nat by (rewrite Hr; simpl; lia).
  set (idx := (uniform_int 0 _ (rng s)).1) in *.
  rewrite Hi. simpl. rewrite draw_eq, !drawUniform_eq.
  match goal with |- context [uniform_int 0 3 ?r] =>
    pose proof (uniform_int_range 0 3 r) as Hd end.
  eexists (Z.to_nat idx), x, y, _, _, _, _.
  split; [done|]. split; [apply Hd; lia|].
  rewrite Z2Nat.id by lia. reflexivity.
Qed.

Lemma updateCars_cars s :
  roads s <> [] ->
  exists extra, cars (updateCars s) = (moveCars s (cars s) (rng s)).1 ++ extra.
Proof.
  intros Hroads. unfold updateCars.
  destruct (roads s) as [|c cs] eqn:Hr; [done|].
  destruct (moveCars s (cars s) (rng s)) as [moved r]. rewrite draw_eq.
  destruct (_ && _).
  - match goal with |- context [addRandomCar ?s2] =>
      destruct (addRandomCar_spec s2) as (i & x & y & g & dir & col & r' & _ & _ & ->)
    end; [simpl; by rewrite Hr|].
    simpl. eauto.
  - exists []. simpl. by rewrite app_nil_r.
Qed.

(** C7.  A car whose straight-ahead target cell is outside the grid or
    not a Road cell is, in the same [updateCars] call, either turned to
    one of the directions that are not the reverse of its direction and
    lead from its integer cell to a Road cell of the grid, its position
    being recomputed from the position before the move, or, when there
    is no such direction, put on an entry of the road sequence with a
    direction in 0..3 and not moved. *)
Theorem blocked_car_is_rerouted s i car :
  roads s <> [] -> cars s !! i = Some car -> 0 <= direction car <= 3 ->
  blocked s (stepX car (direction car)) (stepY car (direction car)) = true ->
  exists car',
    cars (updateCars s) !! i = Some car'
    /\ (forall d, d ∈ candidateDirs s car <->
                  (0 <= d <= 3 /\ d <> reverse (direction car)
                   /\ inGrid (to_int (car_x car) + dx d) (to_int (car_y car) + dy d)
                   /\ tag s (to_int (car_x car) + dx d) (to_int (car_y car) + dy d)
                      = ROAD))
    /\ rerouted s car car'.
Proof.
  intros Hroads Hi Hdir Hb.
  destruct (updateCars_cars s Hroads) as [extra ->].
  destruct (moveCars_lookup s (cars s) (rng s) i car Hi) as [r' Hr'].
  exists (moveCar s car r').1. split; [by apply lookup_app_l_Some|].
  split; [|by apply moveCar_blocked].
  intros d. unfold candidateDirs. rewrite list_elem_of_In, filter_In.
  unfold leadsToRoad. rewrite !andb_true_iff, negb_true_iff, Z.eqb_neq.
  rewrite isValidCell_true, bool_decide_eq_true. simpl. split.
  - intros (Hin & Hne & Hv & Ht). split; [simpl in Hin; lia|done].
  - intros (Hin & Hne & Hv & Ht). split; [simpl; lia|done].
Qed.

(** ** Traffic: the cars stay on the roads

    This needs two facts about [float]: small integers survive the
    round trip through [float], and a step at a speed the speed
    distribution produces moves the truncated coordinate by at most one
    cell, in the direction of the step ([slow]).  Both hold for exact
    arithmetic with speeds below one cell per tick. *)

Lemma cardinal d :
  0 <= d <= 3 ->
  (dx d = -1 /\ dy d = 0) \/ (dx d = 0 /\ dy d = 1)
  \/ (dx d = 1 /\ dy d = 0) \/ (dx d = 0 /\ dy d = -1).
Proof.
  intros Hd.
  assert (d = 0 \/ d = 1 \/ d = 2 \/ d = 3) as [-> | [-> | [-> | ->]]] by lia;
    compute; auto.
Qed.

Section Traffic.
Context {FL : FloatLaws}.
Hypothesis width_small : GRID_WIDTH <= 2 ^ 24.
Hypothesis height_small : GRID_HEIGHT <= 2 ^ 24.

Lemma road_entry_ok s i rx ry :
  Inv s -> roads s !! i = Some (rx, ry) ->
  inGrid (to_int (of_int rx)) (to_int (of_int ry))
  /\ tag s (to_int (of_int rx)) (to_int (of_int ry)) = ROAD.
Proof.
  intros HI Hi. apply list_elem_of_lookup_2 in Hi.
  destruct (inv_roads _ HI _ Hi) as [[Hx Hy] Ht]. simpl in *.
  rewrite !to_int_of_int by lia. done.
Qed.

Lemma moveCar_ok s car r :
  Inv s -> roads s <> [] -> carOK s car -> carOK s (moveCar s car r).1.
Proof.
  intros HI Hroads (Hdir & Hslow & Hin & Htag).
  destruct (blocked s (stepX car (direction car)) (stepY car (direction car)))
    eqn:Hb.
  - destruct (moveCar_blocked s car r Hroads Hdir Hb) as (Hsp & Hturn & Htele).
    set (car' := (moveCar s car r).1) in *.
    destruct (candidateDirs s car) as [|d0 ds] eqn:Hc.
    + destruct Htele as (i & rx & ry & Hi & Hx & Hy & Hd); [done|].
      destruct (road_entry_ok s i rx ry HI Hi) as [Hin' Htag'].
      unfold carOK. by rewrite Hsp, Hx, Hy.
    + destruct Hturn as (Hd & Hx & Hy); [done|]. rewrite <- Hc in Hd.
      apply elem_of_candidateDirs in Hd as (Hd & _ & Hl).
      unfold leadsToRoad in Hl. apply andb_true_iff in Hl as [Hv Ht].
      apply isValidCell_true in Hv. apply bool_decide_eq_true in Ht.
      unfold carOK. rewrite Hsp, Hx, Hy. split; [done|]. split; [done|].
      destruct Hin as [Hinx Hiny].
      pose proof (cardinal _ Hd) as Hcard.
      destruct (Hslow (car_x car) (dx (direction car'))) as [Ex|Ex];
        [lia|lia| |];
        destruct (Hslow (car_y car) (dy (direction car'))) as [Ey|Ey];
        try lia; rewrite Ex, Ey;
        destruct Hcard as [[Dx Dy]|[[Dx Dy]|[[Dx Dy]|[Dx Dy]]]];
        rewrite Dx, Dy in *; rewrite ?Z.add_0_r in *; done.
  - unfold moveCar. rewrite Hb. simpl. unfold blocked in Hb.
    apply orb_false_iff in Hb as [Hv Ht].
    apply negb_false_iff in Hv, Ht.
    apply isValidCell_true in Hv. apply bool_decide_eq_true in Ht.
    done.
Qed.

Lemma moveCars_ok s cs r :
  Inv s -> roads s <> [] ->
  Forall (carOK s) cs -> Forall (carOK s) (moveCars s cs r).1.
Proof.
  intros HI Hroads. revert r.
  induction cs as [|c cs IH]; intros r Hcs; [done|]. simpl.
  inversion Hcs as [|? ? Hc Hcs']; subst.
  pose proof (moveCar_ok s c r HI Hroads Hc) as Hc'.
  destruct (moveCar s c r) as [c' r1]. specialize (IH r1 Hcs').
  destruct (moveCars s cs r1) as [cs' r2]. by constructor.
Qed.

Lemma carsOK_addRandomCar s : Inv s -> carsOK s -> carsOK (addRandomCar s).
Proof.
  intros HI Hcs. destruct (roads s) as [|c0 rs] eqn:Hr.
  { unfold addRandomCar. by rewrite Hr. }
  destruct (addRandomCar_spec s)
    as (i & x & y & g & dir & col & r & Hi & Hdir & ->); [by rewrite Hr|].
  unfold carsOK. simpl. apply list.Forall_app. split; [done|].
  apply list.Forall_singleton.
  destruct (road_entry_ok s i x y HI Hi) as [Hin Ht].
  split; [done|]. split; [apply dist_speed_slow|done].
Qed.

Lemma carsOK_updateCars s : Inv s -> carsOK s -> carsOK (updateCars s).
Proof.
  intros HI Hcs. unfold updateCars.
  destruct (roads s) as [|c0 rs] eqn:Hr; [done|].
  pose proof (moveCars_ok s (cars s) (rng s) HI) as Hm.
  destruct (moveCars s (cars s) (rng s)) as [moved r]. rewrite draw_eq.
  assert (carsOK (set_rng (gen (rng (set_rng r (set_cars moved s)))).2
                          (set_rng r (set_cars moved s)))) as Hok.
  { apply Hm; [by rewrite Hr|done]. }
  destruct (_ && _); [|done].
  apply carsOK_addRandomCar; [|done].
  by apply Inv_set_rng, Inv_set_rng, Inv_set_cars.
Qed.

Lemma carsOK_Grows s s' : Grows s s' -> carsOK s -> carsOK s'.
Proof.
  intros [Ht Hc _ _ _ _] Hcs. unfold carsOK. rewrite Hc.
  eapply list.Forall_impl; [done|].
  intros car (Hd & Hs & Hin & Htag).
  split; [done|]. split; [done|]. split; [done|].
  rewrite Ht; [done|]. by rewrite Htag.
Qed.

Lemma simulationStep_carsOK s r :
  Inv s -> carsOK s ->
  carsOK (updateCars (set_rng r s))
  /\ carsOK (simulationStep (set_rng r s)).1.
Proof.
  intros HI Hcs.
  assert (carsOK (updateCars (set_rng r s))) as H1
    by by apply carsOK_updateCars; [apply Inv_set_rng|].
  split; [done|]. unfold simulationStep.
  assert (Inv (updateCars (set_rng r s))) as HI1.
  { destruct (updateCars_world (set_rng r s)) as (cs & r' & ->).
    by repeat (apply Inv_set_cars || apply Inv_set_rng). }
  destruct (Z.rem _ 3 =? 0); [|done].
  destruct (growCity_Inv_Grows _ HI1) as [_ HG].
  destruct (growCity (updateCars (set_rng r s))) as [s2 log]. simpl in *.
  change (carsOK s2). by apply (carsOK_Grows (updateCars (set_rng r s))).
Qed.

Lemma initializeGrid_carsOK r :
  0 < GRID_WIDTH -> 0 < GRID_HEIGHT -> carsOK (initializeGrid r).
Proof.
  intros Hw Hh. unfold initializeGrid.
  apply (generateInitialRoads_ind Hw Hh (fun s => Inv s /\ carsOK s)).
  - intros s r' [HI Hcs]. split; [by apply Inv_set_rng|done].
  - intros s x y [HI Hcs] Hin He. split; [apply Inv_claimRoad; auto|].
    apply (carsOK_Grows s); [|done]. apply Grows_claimRoad; auto.
  - intros s [HI Hcs].
    split; [|by apply carsOK_addRandomCar].
    destruct (addRandomCar_world s) as (cs & r' & ->).
    by apply Inv_set_cars, Inv_set_rng.
  - split; [apply Inv_generateTerrain, Inv_blank|].
    unfold carsOK. destruct (generateTerrain_frame (blank r)) as (-> & _).
    apply Forall_nil_2.
Qed.

(** C10.  In every state of a run, and after the [updateCars] call of
    every tick, each car is drawn in a cell of the grid that is tagged
    Road: its truncated coordinates are within the bounds and the tag
    there is Road. *)
Theorem cars_stay_on_roads s :
  0 < GRID_WIDTH -> 0 < GRID_HEIGHT -> reachable s ->
  forall r car,
    (car ∈ cars s \/ car ∈ cars (updateCars (set_rng r s))) ->
    inGrid (to_int (car_x car)) (to_int (car_y car))
    /\ tag (updateCars (set_rng r s))
           (to_int (car_x car)) (to_int (car_y car)) = ROAD.
Proof.
  intros Hw Hh [r0 Ht].
  assert (Inv s /\ carsOK s) as [HI Hcs].
  { induction Ht as [|s' r' Ht' [HI' Hcs'] Hlt].
    - split; [by apply Inv_initializeGrid|by apply initializeGrid_carsOK].
    - split; [by apply simulationStep_Inv_Evolves|].
      by apply simulationStep_carsOK. }
  intros r car Hcar.
  destruct (simulationStep_carsOK s r HI Hcs) as [Hup _].
  assert (forall x y, tag (updateCars (set_rng r s)) x y = tag s x y) as Htag.
  { intros x y. by destruct (updateCars_world (set_rng r s)) as (cs & r' & ->). }
  rewrite Htag. unfold carsOK in *. rewrite list.Forall_forall in Hcs, Hup.
  destruct Hcar as [Hcar|Hcar].
  - destruct (Hcs car Hcar) as (_ & _ & Hin & Ht'). done.
  - destruct (Hup car Hcar) as (_ & _ & Hin & Ht'). by rewrite <- Htag.
Qed.
End Traffic.

(** ** The cadence of the road extension *)

Lemma placeBuilding_frame s c :
  roads (placeBuilding s c) = roads s
  /\ currentStep (placeBuilding s c) = currentStep s.
Proof.
  destruct c as [x y]. unfold placeBuilding. rewrite !drawUniform_eq. cbv zeta.
  destruct (_ || _); [|done]. destruct (_ <? 40); done.
Qed.

Lemma matureCell_frame x y s :
  roads (matureCell x y s) = roads s
  /\ currentStep (matureCell x y s) = currentStep s.
Proof.
  unfold matureCell. destruct (isBuilt _); [|done].
  set (s1 := setRecord x y _ s).
  match goal with |- context [if negb (hasTree (record ?s x y)) && _ && _
                              then _ else _] => set (s2 := s) end.
  assert (roads s2 = roads s /\ currentStep s2 = currentStep s) as [E1 E2].
  { unfold s2. destruct (_ && (density _ <? 3)); [|done].
    destruct (_ || _ || _); [|done]. rewrite draw_eq. by destruct (_ <? 3). }
  clearbody s2. destruct (_ && _ && _); [|done].
  rewrite draw_eq. by destruct (_ <? 4).
Qed.

Lemma grown_frame s :
  roads (matureBuildings (placeBuildings s)) = roads s
  /\ currentStep (matureBuildings (placeBuildings s)) = currentStep s.
Proof.
  pose (P := fun s1 : State => roads s1 = roads s /\ currentStep s1 = currentStep s).
  change (P (matureBuildings (placeBuildings s))).
  unfold matureBuildings. apply foldl_preserves.
  { intros s1 x _. apply foldl_preserves. intros s2 y _ [E1 E2].
    destruct (matureCell_frame x y s2) as [E3 E4]. split; congruence. }
  unfold placeBuildings. destruct (shuffle _ _) as [spots r].
  apply foldl_preserves; [|done].
  intros s1 c _ [E1 E2].
  destruct (placeBuilding_frame s1 c) as [E3 E4]. split; congruence.
Qed.

(** C2, as the code has it.  The road extension is called during a tick
    exactly when the step counter is a multiple of 3 and of 10 at once:
    the extension sits inside [growCity], which [simulationStep] calls
    on every third tick only.  On every other tick the road sequence
    is left as it is. *)
Theorem road_extension_cadence s :
  (CallRoadExtension ∈ (simulationStep s).2
   <-> Z.rem (currentStep s) 3 = 0 /\ Z.rem (currentStep s) 10 = 0)
  /\ (CallRoadExtension ∉ (simulationStep s).2 ->
      roads (simulationStep s).1 = roads s).
Proof.
  unfold simulationStep.
  destruct (updateCars_world s) as (cs & r & ->).
  set (s1 := set_cars cs (set_rng r s)).
  change (currentStep s1) with (currentStep s).
  destruct (Z.rem (currentStep s) 3 =? 0) eqn:H3.
  - apply Z.eqb_eq in H3. unfold growCity.
    destruct (grown_frame s1) as [Er Es]. rewrite Es.
    change (currentStep s1) with (currentStep s).
    destruct (Z.rem (currentStep s) 10 =? 0) eqn:H10; simpl;
      rewrite !elem_of_cons, elem_of_nil.
    + apply Z.eqb_eq in H10. split; [intuition congruence|]. intros Hn.
      destruct Hn. auto.
    + apply Z.eqb_neq in H10. split; [intuition congruence|done].
  - apply Z.eqb_neq in H3. simpl. rewrite !elem_of_cons, elem_of_nil.
    split; [intuition congruence|done].
Qed.

(** ** An empty road sequence *)

Lemma no_road_tags s : Inv s -> roads s = [] -> forall x y, tag s x y <> ROAD.
Proof.
  intros HI Hr x y Ht. destruct (decide (inGrid x y)) as [Hin|Hout].
  - pose proof (inv_road_tags _ HI x y Hin Ht) as Hx. rewrite Hr in Hx.
    by apply elem_of_nil in Hx.
  - rewrite tag_outside in Ht; [done|apply HI|done].
Qed.

Lemma roadSpots_no_roads s :
  (forall x y, tag s x y <> ROAD) -> roadSpots s = [].
Proof.
  intros Hno. apply elem_of_nil_inv. intros c Hc.
  apply roadSpots_spec in Hc as (_ & _ & Hn). unfold nearRoad in Hn.
  apply existsb_exists in Hn as (n & _ & Hn).
  apply andb_true_iff in Hn as [_ Hn]. apply bool_decide_eq_true in Hn.
  by eapply Hno.
Qed.

Lemma placeBuildings_no_spots s :
  buildingSpots s = [] -> placeBuildings s = set_rng (rng s) s.
Proof. unfold placeBuildings. intros ->. simpl. by rewrite take_nil. Qed.

Lemma extendRoads_no_spots s :
  roadSpots s = [] -> extendRoads s = set_rng (rng s) s.
Proof. unfold extendRoads. intros ->. simpl. by rewrite take_nil. Qed.

(** ** The type of a new building *)

Lemma count_row s x y t i l c :
  foldl (fun count j =>
           if (i =? 0) && (j =? 0) then count
           else if isValidCell (x + i) (y + j)
                   && bool_decide (tag s (x + i) (y + j) = t)
                then count + 1 else count) c l
  = c + Z.of_nat (length (List.filter (hit s x y t) (j ← l; [(i, j)]))).
Proof.
  revert c. induction l as [|j l IH]; intros c; [simpl; lia|].
  cbn [foldl]. rewrite IH. csimpl. unfold hit at 2. simpl.
  destruct ((i =? 0) && (j =? 0)); simpl; [lia|].
  destruct (isValidCell _ _ && _); simpl; lia.
Qed.

Lemma count_window s x y t l1 l2 c :
  foldl (fun count i =>
    foldl (fun count j =>
             if (i =? 0) && (j =? 0) then count
             else if isValidCell (x + i) (y + j)
                     && bool_decide (tag s (x + i) (y + j) = t)
                  then count + 1 else count) count l2) c l1
  = c + Z.of_nat (length (List.filter (hit s x y t)
                                      (i ← l1; j ← l2; [(i, j)]))).
Proof.
  revert c. induction l1 as [|i l1 IH]; intros c; [simpl; lia|].
  cbn [foldl]. rewrite IH, count_row. csimpl.
  rewrite List.filter_app, length_app. lia.
Qed.

Lemma count_positive {A} (p : A -> bool) l :
  (0 <? Z.of_nat (length (List.filter p l))) = existsb p l.
Proof.
  induction l as [|a l IH]; [done|]. simpl. destruct (p a); simpl; [|done].
  apply Z.ltb_lt. lia.
Qed.

Lemma countNeighborsOfTypeInRadius_anyWithin s x y t radius :
  (0 <? countNeighborsOfTypeInRadius s x y t radius) = anyWithin s x y t radius.
Proof.
  unfold countNeighborsOfTypeInRadius, anyWithin, window.
  rewrite (count_window s x y t _ _ 0), Z.add_0_l. apply count_positive.
Qed.

Lemma chooseType_typeOfRoll s x y roll :
  chooseType s x y roll
  = typeOfRoll roll (anyWithin s x y WATER 3)
               (anyWithin s x y PARK 3 || anyWithin s x y FOREST 3)
               (currentStep s).
Proof.
  unfold chooseType, typeOfRoll.
  by rewrite !countNeighborsOfTypeInRadius_anyWithin.
Qed.

(** C4.  One round of the placement loop on a candidate cell draws one
    roll in 0..100 and writes, as tag and as record type of the cell,
    the type the description derives from that roll: Residential below
    60, Commercial below 85, else Industrial; Residential if there is
    Water within radius 3 and the roll is below 80; Residential if there
    is Park or Forest within radius 3 and the roll is below 75; Park if
    the roll is above 95 and the step counter above 50. *)
Theorem placed_type_follows_roll s x y :
  Inv s -> inGrid x y ->
  let roll := (uniform_int 0 100 (rng s)).1 in
  let type :=
    typeOfRoll roll (anyWithin s x y WATER 3)
               (anyWithin s x y PARK 3 || anyWithin s x y FOREST 3)
               (currentStep s) in
  0 <= roll <= 100
  /\ tag (placeBuilding s (x, y)) x y = type
  /\ b_type (record (placeBuilding s (x, y)) x y) = type.
Proof.
  intros HI Hin roll type.
  destruct (placeBuilding_spec s x y HI Hin)
    as (Hg & _ & _ & _ & _ & _ & b & Hbt & _ & _ & Hrec).
  split; [apply uniform_int_range; lia|].
  unfold type, roll. rewrite <- chooseType_typeOfRoll. split.
  - unfold tag. rewrite Hg.
    eapply cell_setCell_eq; [apply HI|apply Hin|apply Hin].
  - by rewrite Hrec, decide_True.
Qed.

(** ** Counting the buildings *)

Lemma neighbours4_adjacent x y c : c ∈ neighbours4 x y -> adjacent4 c (x, y).
Proof.
  unfold neighbours4. change (seqZ 0 4) with [0; 1; 2; 3].
  rewrite !fmap_cons, !elem_of_cons, fmap_nil, elem_of_nil. unfold adjacent4.
  intros [-> | [-> | [-> | [-> | []]]]]; compute -[Z.add Z.sub Z.abs]; lia.
Qed.

Lemma elem_of_allCells x y : (x, y) ∈ allCells <-> inGrid x y.
Proof.
  unfold allCells, inGrid. rewrite list_elem_of_bind. split.
  - intros (x' & Hy & Hx). apply list_elem_of_bind in Hy as (y' & Hc & Hy).
    apply list_elem_of_singleton in Hc. inversion Hc; subst.
    apply elem_of_seqZ in Hx, Hy. lia.
  - intros [Hx Hy]. exists x. split; [|apply elem_of_seqZ; lia].
    apply list_elem_of_bind. exists y.
    split; [by apply list_elem_of_singleton|apply elem_of_seqZ; lia].
Qed.

Lemma NoDup_allCells : NoDup allCells.
Proof.
  unfold allCells. apply NoDup_bind; [| |apply NoDup_seqZ].
  - intros x1 x2 c _ _ (y1 & Hc1 & _)%list_elem_of_bind
                       (y2 & Hc2 & _)%list_elem_of_bind.
    apply list_elem_of_singleton in Hc1, Hc2. congruence.
  - intros x _. apply NoDup_bind; [| |apply NoDup_seqZ].
    + intros y1 y2 c _ _ Hc1%list_elem_of_singleton Hc2%list_elem_of_singleton.
      congruence.
    + intros y _. apply NoDup_singleton.
Qed.

Lemma filter_one_more {A} (p q : A -> bool) l c :
  NoDup l -> c ∈ l -> p c = false -> q c = true ->
  (forall a, a <> c -> q a = p a) ->
  length (List.filter q l) = S (length (List.filter p l)).
Proof.
  intros Hnd Hc Hp Hq Hext. induction Hnd as [|a l Ha Hnd IH]; [by apply elem_of_nil in Hc|].
  apply elem_of_cons in Hc as [<- | Hc]; simpl.
  - rewrite Hp, Hq. simpl. f_equal. f_equal. apply List.filter_ext_in.
    intros a Hin. apply Hext. intros ->. by apply list_elem_of_In in Hin.
  - rewrite (Hext a) by (intros ->; done).
    destruct (p a); simpl; by rewrite (IH Hc).
Qed.

Lemma builtCount_same s s' :
  (forall x y, isBuilt (tag s' x y) = isBuilt (tag s x y)) ->
  builtCount s' = builtCount s.
Proof.
  intros Hext. unfold builtCount. f_equal. f_equal.
  apply List.filter_ext. intros [x y]. apply Hext.
Qed.

Lemma builtCount_placeBuilding s x y :
  Inv s -> inGrid x y -> tag s x y = EMPTY ->
  builtCount (placeBuilding s (x, y)) = builtCount s + 1.
Proof.
  intros HI Hin He.
  destruct (placeBuilding_spec s x y HI Hin) as (Hg & _).
  pose proof (chooseType_placed s x y (uniform_int 0 100 (rng s)).1) as Hpl.
  set (t := chooseType _ _ _ _) in *.
  assert (forall x' y', tag (placeBuilding s (x, y)) x' y'
            = if decide ((x, y) = (x', y')) then t else tag s x' y') as Htag.
  { intros x' y'. unfold tag at 1. rewrite Hg.
    apply (tag_setTag s x y t x' y'); [apply HI|done]. }
  unfold builtCount.
  rewrite (filter_one_more (fun c => isBuilt (tag s c.1 c.2)) _ allCells (x, y)).
  - lia.
  - apply NoDup_allCells.
  - by apply elem_of_allCells.
  - simpl. by rewrite He.
  - simpl. rewrite Htag, decide_True by done. by apply isPlaced_isBuilt.
  - intros [x' y'] Hne. simpl. by rewrite Htag, decide_False.
Qed.

(** While the step counter is below 50 a call of [growCity] builds on
    exactly one candidate, if there is one. *)
Lemma growCity_builtCount s :
  Inv s -> 0 <= currentStep s < 50 ->
  builtCount (growCity s).1
  = builtCount s + Z.min 1 (Z.of_nat (length (buildingSpots s))).
Proof.
  intros HI Hstep.
  assert (builtCount (placeBuildings s)
          = builtCount s + Z.min 1 (Z.of_nat (length (buildingSpots s)))) as Hplace.
  { unfold placeBuildings.
    pose proof (shuffle_Permutation (buildingSpots s) (rng s)) as Hperm.
    destruct (shuffle (buildingSpots s) (rng s)) as [spots r]. simpl in Hperm.
    rewrite <- Hperm. change (currentStep (set_rng r s)) with (currentStep s).
    rewrite (Z.quot_small (currentStep s) 50) by lia.
    destruct spots as [|[x y] spots].
    { rewrite take_nil. simpl.
      change (builtCount (set_rng r s)) with (builtCount s). lia. }
    replace (Z.to_nat (Z.min (1 + 0) (Z.of_nat (length ((x, y) :: spots)))))
      with 1%nat by (simpl length; lia).
    simpl take. cbn [foldl]. rewrite take_0. cbn [foldl].
    assert ((x, y) ∈ buildingSpots s) as Hc by (rewrite <- Hperm; by left).
    apply buildingSpots_spec in Hc as (Hin & He & _). simpl in Hin, He.
    rewrite builtCount_placeBuilding; [|by apply Inv_set_rng|done|done].
    change (builtCount (set_rng r s)) with (builtCount s). simpl length. lia. }
  rewrite <- Hplace. unfold growCity.
  destruct (PlaceInv_placeBuildings s HI) as [HI1 _ _ _].
  destruct (MatInv_matureBuildings _ HI1) as [HI2 _ Hg _ _ _].
  set (s2 := matureBuildings (placeBuildings s)) in *.
  assert (builtCount s2 = builtCount (placeBuildings s)) as <-.
  { apply builtCount_same. intros x y.
    by rewrite (tag_same_grid (placeBuildings s) s2). }
  destruct (_ =? 0); simpl; [|done].
  destruct (ExtInv_extendRoads s2 HI2) as [_ [Gt _ _ _ _ _] _ Ht].
  apply builtCount_same. intros x y.
  destruct (decide (tag s2 x y = EMPTY)) as [He|Hne].
  - rewrite He. by destruct (Ht x y He) as [-> | ->].
  - by rewrite Gt.
Qed.

(** ** Running the main loop *)

Lemma currentStep_initializeGrid r :
  0 < GRID_WIDTH -> 0 < GRID_HEIGHT -> currentStep (initializeGrid r) = 0.
Proof.
  intros Hw Hh. unfold initializeGrid.
  apply (generateInitialRoads_ind Hw Hh (fun s => currentStep s = 0)); try done.
  - intros s Hs. by destruct (addRandomCar_world s) as (cs & r' & ->).
  - by destruct (generateTerrain_frame (blank r)) as (_ & _ & ->).
Qed.

Lemma currentStep_simulationStep s :
  currentStep (simulationStep s).1 = currentStep s + 1.
Proof.
  unfold simulationStep.
  destruct (updateCars_world s) as (cs & r & ->).
  set (s1 := set_cars cs (set_rng r s)).
  change (currentStep s1) with (currentStep s).
  destruct (Z.rem (currentStep s) 3 =? 0); [|done].
  unfold growCity. destruct (grown_frame s1) as [_ Es].
  destruct (_ =? 0); simpl; [|by rewrite Es].
  unfold extendRoads. destruct (shuffle _ _) as [spots r'].
  f_equal. change (currentStep s) with (currentStep s1). rewrite <- Es.
  by apply (foldl_preserves
              (fun s2 => currentStep s2
                         = currentStep (matureBuildings (placeBuildings s1)))).
Qed.

Lemma currentStep_run rs s :
  currentStep (run rs s) = currentStep s + Z.of_nat (length rs).
Proof.
  revert s. induction rs as [|r rs IH]; intros s; simpl; [lia|].
  unfold run in *. simpl. rewrite IH, currentStep_simulationStep. simpl. lia.
Qed.

Lemma ticks_run rs s :
  currentStep s + Z.of_nat (length rs) <= MAX_SIMULATION_STEPS ->
  ticks s (run rs s).
Proof.
  induction rs as [|r rs IH] using rev_ind; intros Hlen; [apply ticks_refl|].
  rewrite length_app in Hlen. simpl in Hlen.
  unfold run. rewrite foldl_app. simpl. apply ticks_step.
  - apply IH. lia.
  - fold (run rs s). rewrite currentStep_run. lia.
Qed.

Lemma reachable_run rs r :
  0 < GRID_WIDTH -> 0 < GRID_HEIGHT ->
  Z.of_nat (length rs) <= MAX_SIMULATION_STEPS ->
  reachable (run rs (initializeGrid r)).
Proof.
  intros Hw Hh Hlen. exists r. apply ticks_run.
  rewrite currentStep_initializeGrid by done. lia.
Qed.

Lemma buildingSpots_next_to_road s c :
  Inv s -> c ∈ buildingSpots s ->
  inGrid c.1 c.2 /\ tag s c.1 c.2 = EMPTY
  /\ exists n, inGrid n.1 n.2 /\ tag s n.1 n.2 = ROAD /\ adjacent4 c n.
Proof.
  intros HI Hc. apply buildingSpots_spec in Hc as (Hin & He & [rx ry] & Hr & Hn).
  split; [done|]. split; [done|]. exists (rx, ry).
  destruct (inv_roads _ HI _ Hr). split; [done|]. split; [done|].
  by apply neighbours4_adjacent.
Qed.
End CitySimFacts.

(** ** Exact arithmetic obeys the two laws *)

Lemma quot_step_lin a b m d e :
  0 < b -> 0 <= m < 1000 * b ->
  (d = -1 /\ e = - m) \/ (d = 0 /\ e = 0) \/ (d = 1 /\ e = m) ->
  0 <= Z.quot a b ->
  Z.quot (a * 1000 + e) (b * 1000) = Z.quot a b
  \/ Z.quot (a * 1000 + e) (b * 1000) = Z.quot a b + d.
Proof.
  intros Hb Hm Hd Hq.
  assert (- b < a) as Hab.
  { destruct (Z_lt_le_dec (- b) a) as [Hab|Hab]; [done|]. exfalso.
    rewrite <- (Z.opp_involutive a), Z.quot_opp_l in Hq by lia.
    assert (1 <= Z.quot (- a) b); [|lia].
    rewrite Z.quot_div_nonneg by lia. apply Z.div_le_lower_bound; lia. }
  set (N := a * 1000 + e). set (D := b * 1000).
  assert (0 < D) by lia.
  assert (forall M, 0 <= M < D -> Z.quot M D = 0) as Hsmall
    by (intros; apply Z.quot_small; lia).
  assert (forall M, - D < M <= 0 -> Z.quot M D = 0) as Hsmall'.
  { intros M HM. rewrite <- (Z.opp_involutive M), Z.quot_opp_l by lia.
    rewrite Z.quot_small; lia. }
  destruct (Z_lt_le_dec a 0) as [Ha|Ha].
  - assert (Z.quot a b = 0) as Hk.
    { rewrite <- (Z.opp_involutive a), Z.quot_opp_l by lia.
      rewrite Z.quot_small; lia. }
    rewrite Hk.
    destruct (Z_lt_le_dec (- D) N) as [HN|HN].
    + left. destruct (Z_lt_le_dec N 0); [apply Hsmall'|apply Hsmall];
        unfold N, D in *; lia.
    + right. assert (d = -1) as -> by (unfold N, D in *; lia).
      rewrite <- (Z.opp_involutive N), Z.quot_opp_l by lia.
      rewrite Z.quot_div_nonneg by lia.
      assert (1 <= - N / D) by (apply Z.div_le_lower_bound; lia).
      assert (- N / D < 2) by (apply Z.div_lt_upper_bound; unfold N, D; lia).
      lia.
  - rewrite (Z.quot_div_nonneg a b) in * by lia.
    pose proof (Z.mul_div_le a b Hb) as Hlo.
    pose proof (Z.mul_succ_div_gt a b Hb) as Hhi.
    set (k := a / b) in *.
    assert (0 <= k) by (apply Z.div_pos; lia).
    replace (b * Z.succ k) with (b * k + b) in Hhi by lia.
    destruct (Z_lt_le_dec N 0) as [HN|HN].
    + assert (k = 0) by (unfold N in HN; nia).
      left. rewrite Hsmall'; unfold N, D in *; lia.
    + rewrite Z.quot_div_nonneg by lia.
      assert (k - 1 <= N / D)
        by (apply Z.div_le_lower_bound; unfold N, D; lia).
      assert (N / D < k + 2)
        by (apply Z.div_lt_upper_bound; unfold N, D; lia).
      destruct Hd as [[-> ->] | [[-> ->] | [-> ->]]].
      * assert (N / D < k + 1)
          by (apply Z.div_lt_upper_bound; unfold N, D; lia). lia.
      * assert (k <= N / D)
          by (apply Z.div_le_lower_bound; unfold N, D; lia).
        assert (N / D < k + 1)
          by (apply Z.div_lt_upper_bound; unfold N, D; lia). lia.
      * assert (k <= N / D)
          by (apply Z.div_le_lower_bound; unfold N, D; lia). lia.
Qed.

Lemma exact_speed_slow g : slow (FO := ExactFloat) (dist_speed g).
Proof.
  intros [a b] d Hd Hx. simpl in *. unfold Qtrunc in *. simpl in *.
  pose proof (Z.mod_pos_bound g 151 ltac:(lia)) as Hg.
  set (n := 50 + g mod 151) in *.
  change (1 * 1000)%positive with 1000%positive. rewrite Pos2Z.inj_mul.
  replace (a * 1000 + d * n * Z.pos b) with (a * 1000 + d * (n * Z.pos b)) by ring.
  apply (quot_step_lin a (Z.pos b) (n * Z.pos b) d); [lia|nia| |lia].
  assert (d = -1 \/ d = 0 \/ d = 1) as [-> | [-> | ->]] by lia; lia.
Qed.

Lemma ExactFloat_laws : FloatLaws (FO := ExactFloat).
Proof.
  split.
  - intros z _. simpl. unfold Qtrunc. simpl. apply Z.quot_1_r.
  - apply exact_speed_slow.
Qed.

Section AtSourceSize.
#[local] Existing Instance sourceDim.
#[local] Existing Instance ExactFloat.
#[local] Existing Instance ExactFloat_laws.

(** ** The properties at concrete states *)

Lemma grid_is_positive : 0 < GRID_WIDTH /\ 0 < GRID_HEIGHT.
Proof. split; reflexivity. Qed.

Lemma reachable_city0 : reachable city0.
Proof. exists []. unfold city0. apply ticks_refl. Qed.

Lemma reachable_roadlessCity : reachable roadlessCity.
Proof. exists noRoadRolls. unfold roadlessCity. apply ticks_refl. Qed.

Lemma reachable_cityAfter n :
  Z.of_nat n <= MAX_SIMULATION_STEPS ->
  reachable (cityAfter n).
Proof.
  intros Hn. unfold cityAfter, city0.
  apply reachable_run; [reflexivity|reflexivity|]. by rewrite length_replicate.
Qed.

Lemma roads_and_road_tags_agree_witness :
  reachable city0
  /\ (forall x y, (x, y) ∈ roads city0 ->
        inGrid x y /\ tag city0 x y = ROAD)
  /\ (forall x y, inGrid x y ->
        tag city0 x y = ROAD -> (x, y) ∈ roads city0).
Proof.
  split; [exact reachable_city0|].
  apply (roads_and_road_tags_agree city0);
    [reflexivity|reflexivity|exact reachable_city0].
Defined.

(** C2 as stated fails at tick 10 of the zero-engine run: the step counter
    is a multiple of 10 and the road extension is not called. *)
Lemma no_road_extension_at_tick_10 :
  reachable (cityAfter 10)
  /\ currentStep (cityAfter 10) = 10
  /\ ~ (CallRoadExtension ∈ (simulationStep (cityAfter 10)).2
        <-> Z.rem (currentStep (cityAfter 10)) 10 = 0).
Proof.
  split; [apply reachable_cityAfter; vm_compute; discriminate|].
  split; [vm_compute; reflexivity|]. intros [_ H].
  assert (CallRoadExtension
            ∈ (simulationStep (cityAfter 10)).2) as Hin
    by (apply H; vm_compute; reflexivity).
  vm_compute in Hin. apply elem_of_cons in Hin as [Hin|Hin]; [discriminate Hin|].
  by apply elem_of_nil in Hin.
Qed.

(** C3 as stated fails in a state of a run: the road sequence of
    [roadlessCity] is empty and [growCity] changes the state, the forest
    cell (40, 20) being one tick older afterwards. *)
Lemma growth_changes_roadless_city :
  reachable roadlessCity
  /\ roads roadlessCity = []
  /\ tag roadlessCity 40 20 = FOREST
  /\ age (record roadlessCity 40 20) = 0
  /\ age (record (growCity roadlessCity).1 40 20) = 1
  /\ (growCity roadlessCity).1 <> roadlessCity.
Proof.
  split; [exact reachable_roadlessCity|].
  assert (age (record roadlessCity 40 20) = 0) as H0 by (vm_compute; reflexivity).
  assert (age (record (growCity roadlessCity).1 40 20) = 1)
    as H1 by (vm_compute; reflexivity).
  split; [vm_compute; reflexivity|]. split; [vm_compute; reflexivity|].
  split; [exact H0|]. split; [exact H1|].
  intros Heq. rewrite Heq, H0 in H1. discriminate H1.
Qed.

Lemma placed_type_follows_roll_witness :
  tag (placeBuilding city0 (39, 21)) 39 21
  = typeOfRoll (uniform_int 0 100 (rng city0)).1
               (anyWithin city0 39 21 WATER 3)
               (anyWithin city0 39 21 PARK 3
                || anyWithin city0 39 21 FOREST 3)
               (currentStep city0).
Proof.
  destruct (placed_type_follows_roll city0 39 21)
    as (_ & Ht & _); [|vm_compute; intuition discriminate|exact Ht].
  unfold city0. apply Inv_initializeGrid; reflexivity.
Defined.

(** C5 fails in the code.  After 51 ticks of the zero-engine run the
    empty cell (39, 21) is a candidate twice, once for the road cell
    (39, 22) and once for (40, 21).  With the engine [doubleRolls] both
    entries are shuffled to the front; tick 52 builds on two candidates,
    so the cell is placed as Residential and then placed again as
    Industrial. *)
Theorem cell_is_placed_twice :
  let s := cityAfter 51 in
  let r := doubleRolls 79 198 233 in
  let s1 := updateCars (set_rng r s) in
  let sh := shuffle (buildingSpots s1) (rng s1) in
  reachable s
  /\ currentStep s = 51
  /\ tag s 39 21 = EMPTY
  /\ take 2 sh.1 = [(39, 21); (39, 21)]
  /\ tag (placeBuilding (set_rng sh.2 s1) (39, 21)) 39 21
     = RESIDENTIAL
  /\ tag (simulationStep (set_rng r s)).1 39 21 = INDUSTRIAL
  /\ b_type (record (simulationStep (set_rng r s)).1 39 21)
     = INDUSTRIAL.
Proof.
  intros s r s1 sh.
  split; [apply reachable_cityAfter; vm_compute; discriminate|].
  revert s r s1 sh. vm_compute. repeat split.
Qed.

Lemma age_and_density_monotone_witness :
  isBuilt (tag roadlessCity 40 20) = true
  /\ age (record roadlessCity 40 20)
     <= age (record (run [[]] roadlessCity) 40 20)
  /\ density (record roadlessCity 40 20)
     <= density (record (run [[]] roadlessCity) 40 20)
  /\ density (record (run [[]] roadlessCity) 40 20) <= 3.
Proof.
  assert (isBuilt (tag roadlessCity 40 20) = true) as Hb by (vm_compute; reflexivity).
  split; [exact Hb|].
  apply (age_and_density_monotone roadlessCity);
    [reflexivity|reflexivity|exact reachable_roadlessCity| |exact Hb].
  apply ticks_run. unfold roadlessCity.
  rewrite currentStep_initializeGrid by reflexivity. vm_compute. discriminate.
Defined.

Lemma blocked_car_is_rerouted_witness :
  exists car',
    cars (updateCars cityWithBlockedCar) !! 15%nat = Some car'
    /\ rerouted cityWithBlockedCar blockedCar car'.
Proof.
  destruct (blocked_car_is_rerouted cityWithBlockedCar
              15 blockedCar) as (car' & Hc & _ & Hr).
  - vm_compute. discriminate.
  - vm_compute. reflexivity.
  - vm_compute. intuition discriminate.
  - vm_compute. reflexivity.
  - exists car'. split; [exact Hc|exact Hr].
Defined.

Lemma water_cells_stay_water_witness :
  waterCells city0 = waterCells terrain0
  /\ (forall x y, (x, y) ∈ waterCells terrain0 -> tag city0 x y = WATER).
Proof.
  unfold city0, initializeGrid, terrain0.
  destruct (water_cells_stay_water []
              (generateInitialRoads
                 (generateTerrain
                    (blank []))))
    as (_ & Hw & Ht); [reflexivity|reflexivity|apply ticks_refl|].
  split; [exact Hw|exact Ht].
Defined.

Lemma cars_stay_on_roads_witness :
  reachable city0
  /\ forall r car,
       (car ∈ cars city0
        \/ car ∈ cars (updateCars (set_rng r city0))) ->
       inGrid (to_int (car_x car)) (to_int (car_y car))
       /\ tag (updateCars (set_rng r city0))
              (to_int (car_x car)) (to_int (car_y car)) = ROAD.
Proof.
  split; [exact reachable_city0|].
  apply (cars_stay_on_roads);
    [vm_compute; discriminate|vm_compute; discriminate|reflexivity|reflexivity
    |exact reachable_city0].
Defined.
End AtSourceSize.

(** * Further properties of the run, the renderer and the program *)

Section OrderlyFacts.
Context {D : Dim} {FO : FloatOps}.

(** ** Single writes *)

Lemma tag_claimWater s x y x' y' :
  Inv s -> inGrid x y ->
  tag (claimWater x y s) x' y'
  = if decide ((x, y) = (x', y')) then WATER else tag s x' y'.
Proof.
  intros HI Hin.
  change (tag (claimWater x y s) x' y') with (tag (setTag x y WATER s) x' y').
  apply tag_setTag; [apply HI|done].
Qed.

Lemma tag_claimRoad s x y x' y' :
  Inv s -> inGrid x y ->
  tag (claimRoad x y s) x' y'
  = if decide ((x, y) = (x', y')) then ROAD else tag s x' y'.
Proof.
  intros HI Hin.
  change (tag (claimRoad x y s) x' y') with (tag (setTag x y ROAD s) x' y').
  apply tag_setTag; [apply HI|done].
Qed.

(** What a forest or farm claim writes. *)
Lemma claimGreen_spec t s x y :
  Inv s -> inGrid x y ->
  let s' := claimGreen t x y s in
  let b := record s x y in
  (forall x' y', tag s' x' y'
                 = if decide ((x, y) = (x', y')) then t else tag s x' y')
  /\ (forall x' y', record s' x' y'
        = if decide ((x, y) = (x', y'))
          then mkBuilding t (density b) (age b) (style b)
                          ((gen (rng s)).1 mod 3) (hasTree b) (hasCar b)
          else record s x' y')
  /\ waterCells s' = waterCells s /\ roads s' = roads s
  /\ cars s' = cars s /\ currentStep s' = currentStep s.
Proof.
  intros HI Hin s' b. unfold s', claimGreen. rewrite draw_eq.
  pose proof (inv_grid _ HI) as Hg. pose proof (inv_bld _ HI) as Hb.
  split.
  { intros x' y'. change (tag (setTag x y t s) x' y' = if decide ((x, y) = (x', y')) then t else tag s x' y').
    by apply tag_setTag. }
  split; [|repeat split].
  intros x' y'.
  rewrite record_setRecord; [|by apply shaped_setCell|done].
  rewrite !record_set_rng.
  rewrite !(record_setRecord (setTag x y t s)) by (exact Hb || exact Hin).
  destruct (decide ((x, y) = (x', y'))) as [Heq|Hne]; [|reflexivity].
  rewrite !decide_True by done. reflexivity.
Qed.

(** ** Road neighbours *)

Lemma nearRoad_spec s c :
  nearRoad s c = true
  <-> exists n, n ∈ neighbours4 c.1 c.2 /\ inGrid n.1 n.2 /\ tag s n.1 n.2 = ROAD.
Proof.
  unfold nearRoad. rewrite existsb_exists. split.
  - intros (n & Hn & Hr). apply andb_true_iff in Hr as [Hv Ht].
    apply isValidCell_true in Hv. apply bool_decide_eq_true in Ht.
    exists n. by rewrite list_elem_of_In.
  - intros (n & Hn & Hv & Ht). exists n. rewrite <- list_elem_of_In.
    split; [done|]. apply andb_true_iff.
    split; [by apply isValidCell_true|by apply bool_decide_eq_true_2].
Qed.

Lemma nearRoad_mono s s' c :
  (forall x y, tag s x y = ROAD -> tag s' x y = ROAD) ->
  nearRoad s c = true -> nearRoad s' c = true.
Proof.
  intros Hroad. rewrite !nearRoad_spec. intros (n & Hn & Hv & Ht).
  exists n. auto.
Qed.

Lemma neighbours4_sym x y c :
  c ∈ neighbours4 x y -> (x, y) ∈ neighbours4 c.1 c.2.
Proof.
  unfold neighbours4. change (seqZ 0 4) with [0; 1; 2; 3].
  rewrite !fmap_cons, !fmap_nil, !elem_of_cons, !elem_of_nil.
  intros [-> | [-> | [-> | [-> | []]]]]; compute -[Z.add Z.sub];
    [right; right; left|right; right; right; left|left|right; left];
    f_equal; lia.
Qed.

(** ** The invariant [Orderly], write by write *)

Lemma carFit_roads s s' car :
  (length (roads s) <= length (roads s'))%nat -> carFit s car -> carFit s' car.
Proof. intros Hl (Hd & Hi & Hc). split; [done|]. split; [lia|done]. Qed.

Lemma Orderly_set_rng s r : Orderly s -> Orderly (set_rng r s).
Proof. intros []. split; try done. by apply Inv_set_rng. Qed.

Lemma Orderly_set_currentStep s n :
  0 <= n -> Orderly s -> Orderly (set_currentStep n s).
Proof. intros Hn []. split; try done. by apply Inv_set_currentStep. Qed.

Lemma Orderly_set_cars s cs :
  Forall (carFit s) cs -> Orderly s -> Orderly (set_cars cs s).
Proof. intros Hcs []. split; try done. by apply Inv_set_cars. Qed.

(** Writing the tag [t] and a record that fits it at one cell that was
    neither Road (unless [t] is Road) nor Water keeps the invariant, as
    long as a placed building gets a Road neighbour. *)
Lemma Orderly_retag s s' x y t :
  Orderly s -> inGrid x y -> Inv s' ->
  (forall x' y', tag s' x' y'
                 = if decide ((x, y) = (x', y')) then t else tag s x' y') ->
  (forall x' y', (x, y) <> (x', y') -> record s' x' y' = record s x' y') ->
  fits t (record s' x y) ->
  (tag s x y = ROAD -> t = ROAD) ->
  t <> WATER -> tag s x y <> WATER ->
  (isPlaced t = true -> nearRoad s (x, y) = true) ->
  waterCells s' = waterCells s -> cars s' = cars s ->
  (length (roads s) <= length (roads s'))%nat ->
  currentStep s' = currentStep s ->
  Orderly s'.
Proof.
  intros [HI Hc Hw Hnd Ha Hf Hs] Hin HI' Htag Hrec Hfit Hroad Htw Hsw Hnear
         Ewc Ecars Eroads Estep.
  assert (forall x0 y0, tag s x0 y0 = ROAD -> tag s' x0 y0 = ROAD) as Hkeep.
  { intros x0 y0 H0. rewrite Htag. case_decide as Heq; [|done].
    inversion Heq; subst. auto. }
  split.
  - done.
  - intros x' y'. rewrite Htag. case_decide as Heq.
    + by inversion Heq; subst.
    + rewrite Hrec by done. apply Hc.
  - intros x' y' Hin'. rewrite Htag, Ewc. case_decide as Heq; [done|]. by apply Hw.
  - by rewrite Ewc.
  - intros x' y'. rewrite Htag. case_decide as Heq.
    + inversion Heq; subst. intros Hp. apply (nearRoad_mono s); auto.
    + intros Hp. apply (nearRoad_mono s); auto.
  - rewrite Ecars. eapply list.Forall_impl; [done|].
    intros car. by apply carFit_roads.
  - by rewrite Estep.
Qed.

Lemma Orderly_claimWater s x y :
  Orderly s -> inGrid x y -> tag s x y = EMPTY -> Orderly (claimWater x y s).
Proof.
  intros [HI Hc Hw Hnd Ha Hf Hs] Hin He.
  pose proof (tag_claimWater s x y) as Htag.
  assert (forall x0 y0, tag s x0 y0 = ROAD -> tag (claimWater x y s) x0 y0 = ROAD)
    as Hkeep.
  { intros x0 y0 H0. rewrite Htag by done. case_decide as Heq; [|done].
    inversion Heq; subst. congruence. }
  split.
  - by apply Inv_claimWater.
  - intros x' y'. rewrite Htag by done.
    change (record (claimWater x y s) x' y') with (record s x' y').
    case_decide as Heq; [|apply Hc].
    inversion Heq; subst. specialize (Hc x' y'). by rewrite He in Hc.
  - intros x' y' Hin'. rewrite Htag by done.
    change (waterCells (claimWater x y s)) with (waterCells s ++ [(x, y)]).
    rewrite elem_of_app, list_elem_of_singleton.
    case_decide as Heq; [by right|]. intros Ht. left. by apply Hw.
  - change (waterCells (claimWater x y s)) with (waterCells s ++ [(x, y)]).
    apply list.NoDup_app. split; [done|]. split; [|apply NoDup_singleton].
    intros c Hcw ->%list_elem_of_singleton.
    destruct (inv_water _ HI _ Hcw) as [_ Ht]. simpl in Ht. congruence.
  - intros x' y'. rewrite Htag by done. case_decide as Heq; [done|].
    intros Hp. apply (nearRoad_mono s); auto.
  - exact Hf.
  - exact Hs.
Qed.

Lemma Orderly_claimGreen t s x y :
  t = FOREST \/ t = FARM ->
  Orderly s -> inGrid x y -> tag s x y = EMPTY -> Orderly (claimGreen t x y s).
Proof.
  intros Ht HO Hin He. pose proof (od_inv _ HO) as HI.
  destruct (claimGreen_spec t s x y HI Hin) as (Htag & Hrec & Ew & Er & Ec & Es).
  pose proof (od_cells _ HO x y) as Hb. rewrite He in Hb. simpl in Hb.
  apply (Orderly_retag s _ x y t); try done.
  - apply Inv_claimGreen; try done. by destruct Ht as [-> | ->].
  - intros x' y' Hne. by rewrite Hrec, decide_False.
  - rewrite Hrec, decide_True, Hb by done. simpl.
    pose proof (Z.mod_pos_bound (gen (rng s)).1 3 ltac:(lia)).
    destruct Ht as [-> | ->]; simpl; repeat split; lia.
  - congruence.
  - by destruct Ht as [-> | ->].
  - congruence.
  - by destruct Ht as [-> | ->].
  - by rewrite Er.
Qed.

Lemma Orderly_claimRoad s x y :
  Orderly s -> inGrid x y -> tag s x y = EMPTY \/ tag s x y = ROAD ->
  Orderly (claimRoad x y s).
Proof.
  intros HO Hin Ht. pose proof (od_inv _ HO) as HI.
  apply (Orderly_retag s _ x y ROAD); try done.
  - by apply Inv_claimRoad.
  - intros x' y'. by apply tag_claimRoad.
  - change (record (claimRoad x y s) x y) with (record s x y).
    pose proof (od_cells _ HO x y) as Hb. by destruct Ht as [Ht|Ht]; rewrite Ht in Hb.
  - destruct Ht; congruence.
  - change (roads (claimRoad x y s)) with (roads s ++ [(x, y)]).
    rewrite length_app. lia.
Qed.

(** The record the placement loop writes. *)
Lemma placeBuilding_cell s x y :
  Inv s -> inGrid x y ->
  exists st va tr,
    0 <= va <= 4
    /\ record (placeBuilding s (x, y)) x y
       = mkBuilding (chooseType s x y (uniform_int 0 100 (rng s)).1) 1 0 st va tr
                    (hasCar (record s x y)).
Proof.
  intros HI Hin. set (t := chooseType _ _ _ _).
  set (s' := placeBuilding s (x, y)).
  assert (s' = placeBuilding s (x, y)) as Hs' by done. clearbody s'.
  unfold placeBuilding in Hs'. rewrite !drawUniform_eq in Hs'.
  cbv zeta in Hs'. rewrite !chooseType_set_rng in Hs'. fold t in Hs'.
  pose proof (inv_bld _ HI) as Hb.
  set (st := styleOfInt _) in Hs'.
  match type of Hs' with context [uniform_int 0 4 ?r] =>
    pose proof (uniform_int_range 0 4 r ltac:(lia)) as Hva end.
  set (va := (uniform_int 0 4 _).1) in *.
  set (s4 := set_rng _ (set_rng _ (setTag x y t (set_rng _ s)))) in Hs'.
  change (record s4 x y) with (record s x y) in Hs'.
  set (b0 := mkBuilding t 1 0 st va (hasTree (record s x y)) (hasCar (record s x y))) in Hs'.
  assert (record (setRecord x y b0 s4) x y = b0) as Hr5
    by by rewrite record_setRecord, decide_True.
  destruct (bool_decide (t = RESIDENTIAL) || bool_decide (t = COMMERCIAL)).
  - destruct (_ <? 40); subst s'.
    + exists st, va, true. split; [done|].
      rewrite record_setRecord, decide_True; [|done|by apply shaped_setCell|done].
      rewrite record_set_rng, Hr5. reflexivity.
    + exists st, va, (hasTree (record s x y)). split; [done|].
      by rewrite record_set_rng, Hr5.
  - subst s'. exists st, va, (hasTree (record s x y)). by split.
Qed.

Lemma Orderly_placeBuilding s x y :
  Orderly s -> inGrid x y ->
  tag s x y = EMPTY \/ isPlaced (tag s x y) = true ->
  nearRoad s (x, y) = true ->
  Orderly (placeBuilding s (x, y)).
Proof.
  intros HO Hin Ht Hnear. pose proof (od_inv _ HO) as HI.
  destruct (placeBuilding_spec s x y HI Hin)
    as (Hg & Hr & Hc & Hw & Hs & Hb & b & Hbt & Hbd & Hba & Hrec).
  destruct (placeBuilding_cell s x y HI Hin) as (st & va & tr & Hva & Hcell).
  pose proof (chooseType_placed s x y (uniform_int 0 100 (rng s)).1) as Hpl.
  set (t := chooseType _ _ _ _) in *. set (s' := placeBuilding _ _) in *.
  assert (forall x' y', tag s' x' y'
            = if decide ((x, y) = (x', y')) then t else tag s x' y') as Htag.
  { intros x' y'. unfold tag at 1. rewrite Hg.
    apply (tag_setTag s x y t x' y'); [apply HI|done]. }
  assert (tag s x y <> ROAD /\ tag s x y <> WATER) as [Hnr Hnw].
  { destruct Ht as [Ht|Ht]; [rewrite Ht; done|]. by destruct (tag s x y). }
  assert (hasCar (record s x y) = false) as Hcar.
  { pose proof (od_cells _ HO x y) as Hf.
    destruct (tag s x y); simpl in Hf; first [by rewrite Hf|tauto]. }
  apply (Orderly_retag s s' x y t); try done.
  - split.
    + rewrite Hg. apply shaped_setCell, HI.
    + done.
    + intros c. rewrite Hr. intros Hc'. destruct (inv_roads _ HI c Hc') as [? Hct].
      split; [done|]. rewrite Htag. case_decide as Heq; [|done].
      destruct c; inversion Heq; subst; simpl in *. done.
    + intros x' y' Hin'. rewrite Htag, Hr. case_decide; [|by apply (inv_road_tags _ HI)].
      intros ->. done.
    + intros c. rewrite Hw. intros Hc'. destruct (inv_water _ HI c Hc') as [? Hct].
      split; [done|]. rewrite Htag. case_decide as Heq; [|done].
      destruct c; inversion Heq; subst; simpl in *. done.
    + intros x' y'. rewrite Hrec. case_decide; [lia|apply (inv_density _ HI)].
  - intros x' y' Hne. by rewrite Hrec, decide_False.
  - rewrite Hcell, Hcar. destruct t; try done; simpl; repeat split; lia.
  - by destruct t.
  - by rewrite Hr.
Qed.

(** ** The maturation pass, cell by cell *)

Local Ltac mat_done :=
  repeat match goal with
         | |- shaped _ _ _ => assumption
         | |- _ /\ _ => split
         | |- _ = _ => reflexivity || assumption
         | |- _ < _ => assumption
         | |- _ \/ _ => first [left; reflexivity | assumption | right]
         end.

Lemma matureCell_cell s x y :
  shaped GRID_WIDTH GRID_HEIGHT (buildings s) -> inGrid x y ->
  isBuilt (tag s x y) = true ->
  matured (tag s x y) (record s x y) (record (matureCell x y s) x y).
Proof.
  intros Hsh Hin Hbuilt. unfold matureCell. rewrite Hbuilt.
  set (b := record s x y).
  set (s1 := setRecord x y (withAge (age b + 1) b) s).
  assert (shaped GRID_WIDTH GRID_HEIGHT (buildings s1)) as Hsh1
    by by apply shaped_setCell.
  assert (record s1 x y = withAge (age b + 1) b) as H1
    by (unfold s1; by rewrite record_setRecord, decide_True).
  change (tag s1 x y) with (tag s x y).
  match goal with |- context [if negb (hasTree (record ?s x y)) && _ && _
                              then _ else _] => set (s2 := s) end.
  assert (shaped GRID_WIDTH GRID_HEIGHT (buildings s2)
          /\ grid s2 = grid s
          /\ b_type (record s2 x y) = b_type b /\ age (record s2 x y) = age b + 1
          /\ style (record s2 x y) = style b /\ variant (record s2 x y) = variant b
          /\ hasCar (record s2 x y) = hasCar b
          /\ hasTree (record s2 x y) = hasTree b
          /\ (density (record s2 x y) = density b
              \/ (density (record s2 x y) = density b + 1
                  /\ Z.rem (age b + 1) 20 = 0 /\ density b < 3
                  /\ (tag s x y = RESIDENTIAL \/ tag s x y = COMMERCIAL
                      \/ tag s x y = INDUSTRIAL))))
    as (Hsh2 & Hg2 & Et & Ea & Es & Ev & Ec & Etr & Ed).
  { unfold s2. rewrite H1. simpl.
    destruct ((Z.rem (age b + 1) 20 =? 0) && (density b <? 3)) eqn:Hc;
      [|rewrite H1; simpl; mat_done].
    apply andb_true_iff in Hc as [Hr%Z.eqb_eq Hd%Z.ltb_lt].
    destruct (bool_decide (tag s x y = RESIDENTIAL)
              || bool_decide (tag s x y = COMMERCIAL)
              || bool_decide (tag s x y = INDUSTRIAL)) eqn:Hrci;
      [|rewrite H1; simpl; mat_done].
    assert (tag s x y = RESIDENTIAL \/ tag s x y = COMMERCIAL
            \/ tag s x y = INDUSTRIAL) as Hrci'.
    { apply orb_true_iff in Hrci as [Hrci|Hrci];
        [apply orb_true_iff in Hrci as [Hrci|Hrci]|];
        apply bool_decide_eq_true in Hrci; auto. }
    rewrite draw_eq. destruct ((gen (rng s1)).1 mod 5 <? 3).
    - rewrite record_set_rng, H1.
      rewrite record_setRecord, decide_True by done. simpl.
      split; [by apply shaped_setCell|]. mat_done.
    - rewrite record_set_rng, H1. simpl. mat_done. }
  assert (tag s2 x y = tag s x y) as Etag by by apply tag_same_grid.
  clearbody s2. rewrite Etag, Etr.
  destruct (negb (hasTree b) && bool_decide (tag s x y = RESIDENTIAL)
            && (Z.rem (age (record s2 x y)) 30 =? 0)) eqn:Hc.
  - apply andb_true_iff in Hc as [Hc Hr%Z.eqb_eq].
    apply andb_true_iff in Hc as [Hnt%negb_true_iff Hres%bool_decide_eq_true].
    rewrite Ea in Hr.
    rewrite draw_eq. destruct ((gen (rng s2)).1 mod 10 <? 4).
    + rewrite record_setRecord, decide_True by done.
      rewrite record_set_rng. unfold matured. simpl.
      rewrite Et, Ea, Es, Ev, Ec. mat_done.
    + rewrite record_set_rng. unfold matured.
      rewrite Et, Ea, Es, Ev, Ec, Etr. mat_done.
  - unfold matured. rewrite Et, Ea, Es, Ev, Ec, Etr. mat_done.
Qed.

Lemma fits_matured t b b' :
  isBuilt t = true -> fits t b -> matured t b b' -> fits t b'.
Proof.
  intros Hb Hf (Et & Ea & Es & Ev & Ec & Ed & Etr).
  pose proof (Z.quot_rem' (age b + 1) 20) as Hq.
  destruct t; simpl in *; try done.
  - rewrite Et, Ea, Ev, Ec.
    destruct Ed as [-> | (-> & Hr & Hd & _)]; intuition lia.
  - rewrite Et, Ea, Ev, Ec.
    destruct Ed as [-> | (-> & Hr & Hd & _)]; intuition lia.
  - rewrite Et, Ea, Ev, Ec.
    destruct Ed as [-> | (-> & Hr & Hd & _)]; intuition lia.
  - rewrite Et, Ea, Ev, Ec.
    destruct Ed as [-> | (_ & _ & _ & [?|[?|?]])]; try done. intuition lia.
  - rewrite Et, Ea, Ev, Ec, Es.
    destruct Ed as [-> | (_ & _ & _ & [?|[?|?]])]; try done.
    destruct Etr as [-> | (_ & _ & ? & _)]; try done. intuition lia.
  - rewrite Et, Ea, Ev, Ec, Es.
    destruct Ed as [-> | (_ & _ & _ & [?|[?|?]])]; try done.
    destruct Etr as [-> | (_ & _ & ? & _)]; try done. intuition lia.
Qed.

Lemma Orderly_matureCell s x y :
  Orderly s -> inGrid x y -> Orderly (matureCell x y s).
Proof.
  intros HO Hin. pose proof (od_inv _ HO) as HI.
  destruct (isBuilt (tag s x y)) eqn:Hb; [|by rewrite matureCell_idle].
  pose proof (matureCell_RecUpd s x y (inv_bld _ HI) Hin) as R.
  pose proof (matureCell_cell s x y (inv_bld _ HI) Hin Hb) as Hm.
  apply (Orderly_retag s _ x y (tag s x y)); try done.
  - by eapply Inv_RecUpd.
  - intros x' y'. rewrite (tag_same_grid s) by apply R.
    case_decide as Heq; [by inversion Heq|done].
  - apply R.
  - eapply fits_matured; [done| |done]. apply (od_cells _ HO).
  - by destruct (tag s x y).
  - by destruct (tag s x y).
  - apply (od_access _ HO).
  - apply R.
  - apply R.
  - by rewrite (ru_roads _ _ _ _ R).
  - apply R.
Qed.

(** ** The cars *)

Lemma addRandomCar_fit s :
  roads s <> [] ->
  exists car r,
    addRandomCar s = set_cars (cars s ++ [car]) (set_rng r s) /\ carFit s car.
Proof.
  intros Hroads. unfold addRandomCar.
  destruct (roads s) as [|c cs] eqn:Hr; [done|]. rewrite <- Hr in *.
  rewrite drawUniform_eq.
  pose proof (uniform_int_range 0 (Z.of_nat (length (roads s)) - 1) (rng s)) as Hrg.
  assert (0 < length (roads s))%nat by (rewrite Hr; simpl; lia).
  set (idx := (uniform_int 0 _ (rng s)).1) in *.
  destruct (default (0, 0) (roads s !! Z.to_nat idx)) as [x y].
  rewrite draw_eq, !drawUniform_eq. simpl.
  repeat match goal with |- context [uniform_int ?a ?b ?r] =>
    let H := fresh "Hu" in
    pose proof (uniform_int_range a b r ltac:(lia)) as H;
    let v := fresh "v" in set (v := uniform_int a b r) in * end.
  eexists _, _. split; [reflexivity|].
  split; [simpl; lia|]. split; simpl; lia.
Qed.

Lemma moveCar_fit s car r :
  roads s <> [] -> carFit s car -> carFit s (moveCar s car r).1.
Proof.
  intros Hroads (Hd & Hi & Hc). unfold moveCar.
  destruct (blocked _ _ _); [|split; [exact Hd|split; [exact Hi|exact Hc]]].
  rewrite possibleDirs_candidateDirs by done.
  destruct (candidateDirs s car) as [|d ds] eqn:Hcd.
  - pose proof (uniform_int_range 0 (Z.of_nat (length (roads s)) - 1) r) as Hrg.
    assert (0 < length (roads s))%nat by (destruct (roads s); simpl; [done|lia]).
    destruct (uniform_int 0 (Z.of_nat (length (roads s)) - 1) r) as [idx r1].
    destruct (default (0, 0) (roads s !! Z.to_nat idx)) as [nx ny].
    pose proof (uniform_int_range 0 3 r1 ltac:(lia)) as Hdir.
    destruct (uniform_int 0 3 r1) as [dir r2]. simpl in *.
    split; [exact Hdir|]. split; [simpl; lia|exact Hc].
  - destruct (uniform_int 0 (Z.of_nat (length (d :: ds)) - 1) r) as [k r1].
    simpl. split; [|split; [exact Hi|exact Hc]].
    destruct ((d :: ds) !! Z.to_nat k) as [dir|] eqn:Hk; simpl; [|lia].
    apply list_elem_of_lookup_2 in Hk. rewrite <- Hcd in Hk.
    by apply elem_of_candidateDirs in Hk as [? _].
Qed.

Lemma moveCars_fit s cs r :
  roads s <> [] -> Forall (carFit s) cs -> Forall (carFit s) (moveCars s cs r).1.
Proof.
  intros Hroads. revert r.
  induction cs as [|c cs IH]; intros r Hcs; [done|]. simpl.
  inversion Hcs as [|? ? Hc Hcs']; subst.
  pose proof (moveCar_fit s c r Hroads Hc) as Hc'.
  destruct (moveCar s c r) as [c' r1]. specialize (IH r1 Hcs').
  destruct (moveCars s cs r1) as [cs' r2]. by constructor.
Qed.

Lemma Orderly_addRandomCar s : Orderly s -> Orderly (addRandomCar s).
Proof.
  intros HO. destruct (roads s) as [|c0 rs] eqn:Hr.
  { unfold addRandomCar. by rewrite Hr. }
  destruct (addRandomCar_fit s) as (car & r & -> & Hfit); [by rewrite Hr|].
  apply Orderly_set_cars; [|by apply Orderly_set_rng].
  apply list.Forall_app. split; [apply HO|by apply list.Forall_singleton].
Qed.

Lemma Orderly_updateCars s : Orderly s -> Orderly (updateCars s).
Proof.
  intros HO. unfold updateCars.
  destruct (roads s) as [|c0 rs] eqn:Hr; [done|].
  pose proof (moveCars_fit s (cars s) (rng s)) as Hm.
  destruct (moveCars s (cars s) (rng s)) as [moved r]. rewrite draw_eq.
  assert (Orderly (set_rng (gen (rng (set_rng r (set_cars moved s)))).2
                           (set_rng r (set_cars moved s)))) as Hok.
  { apply Orderly_set_rng, Orderly_set_rng, Orderly_set_cars; [|done].
    apply Hm; [by rewrite Hr|apply HO]. }
  destruct (_ && _); [|done]. by apply Orderly_addRandomCar.
Qed.

(** ** The invariant along the program *)

Lemma Orderly_blank r : Orderly (blank r).
Proof.
  split.
  - apply Inv_blank.
  - intros x y. unfold tag, record. simpl. by rewrite !blank_cell.
  - intros x y _. unfold tag. simpl. by rewrite blank_cell.
  - apply NoDup_nil_2.
  - intros x y. unfold tag. simpl. by rewrite blank_cell.
  - apply Forall_nil_2.
  - done.
Qed.

Lemma Orderly_generateTerrain s : Orderly s -> Orderly (generateTerrain s).
Proof.
  apply generateTerrain_ind.
  - intros; by apply Orderly_set_rng.
  - apply Orderly_claimWater.
  - intros t s1 x y Ht. by apply Orderly_claimGreen.
Qed.

Lemma Orderly_placeBuildings s : Orderly s -> Orderly (placeBuildings s).
Proof.
  intros HO. pose proof (od_inv _ HO) as HI.
  cut (PlaceInv s (placeBuildings s) /\ Orderly (placeBuildings s)); [by intros []|].
  unfold placeBuildings.
  destruct (shuffle (buildingSpots s) (rng s)) as [spots r] eqn:Hsh.
  apply foldl_preserves.
  - intros s1 [x y] Hc [HP HO1].
    replace spots with (shuffle (buildingSpots s) (rng s)).1 in Hc
      by by rewrite Hsh.
    apply elem_of_take_shuffle, buildingSpots_spec in Hc
      as (Hin & He & [rx ry] & Hroad & Hn).
    simpl in Hin, He, Hn.
    split; [by apply PlaceInv_placeBuilding|].
    apply Orderly_placeBuilding; [done|done|apply (pl_tags _ _ HP _ _ He)|].
    apply nearRoad_spec. exists (rx, ry).
    rewrite <- (pl_roads _ _ HP) in Hroad.
    destruct (inv_roads _ (od_inv _ HO1) _ Hroad) as [Hrin Hrt].
    split; [|done]. by apply (neighbours4_sym rx ry (x, y)).
  - split; [|by apply Orderly_set_rng].
    apply PlaceInv_set_rng. split; [done|apply Grows_refl|done|by left].
Qed.

Lemma Orderly_matureBuildings s : Orderly s -> Orderly (matureBuildings s).
Proof.
  intros HO. unfold matureBuildings. apply foldl_preserves; [|done].
  intros s1 x Hx%elem_of_seqZ_1. apply foldl_preserves.
  intros s2 y Hy%elem_of_seqZ_1 HO2. apply Orderly_matureCell; [done|].
  split; lia.
Qed.

Lemma Orderly_extendRoads s : Orderly s -> Orderly (extendRoads s).
Proof.
  intros HO. pose proof (od_inv _ HO) as HI.
  cut (ExtInv s (extendRoads s) /\ Orderly (extendRoads s)); [by intros []|].
  unfold extendRoads.
  destruct (shuffle (roadSpots s) (rng s)) as [spots r] eqn:Hsh.
  apply foldl_preserves.
  - intros s1 [x y] Hc [HE HO1].
    replace spots with (shuffle (roadSpots s) (rng s)).1 in Hc by by rewrite Hsh.
    apply elem_of_take_shuffle, roadSpots_spec in Hc as (Hin & He & _).
    simpl in Hin, He.
    split; [by apply ExtInv_claimRoad|].
    apply Orderly_claimRoad; [done|done|apply (ex_tags _ _ HE _ _ He)].
  - split; [|by apply Orderly_set_rng].
    split; [by apply Inv_set_rng|apply Grows_set_rng|done|by left].
Qed.

Lemma Orderly_growCity s : Orderly s -> Orderly (growCity s).1.
Proof.
  intros HO. unfold growCity.
  assert (Orderly (matureBuildings (placeBuildings s))) as HO2
    by by apply Orderly_matureBuildings, Orderly_placeBuildings.
  destruct (_ =? 0); simpl; [|done]. by apply Orderly_extendRoads.
Qed.

Lemma Orderly_simulationStep s : Orderly s -> Orderly (simulationStep s).1.
Proof.
  intros HO. unfold simulationStep.
  pose proof (Orderly_updateCars s HO) as HO1.
  set (s1 := updateCars s) in *.
  destruct (Z.rem (currentStep s1) 3 =? 0).
  - pose proof (Orderly_growCity s1 HO1) as HO2.
    destruct (growCity s1) as [s2 log]. simpl in *.
    apply Orderly_set_currentStep; [|done]. pose proof (od_step _ HO2). lia.
  - simpl. apply Orderly_set_currentStep; [|done]. pose proof (od_step _ HO1). lia.
Qed.

Section OrderlyRun.
Hypothesis width_pos : 0 < GRID_WIDTH.
Hypothesis height_pos : 0 < GRID_HEIGHT.

Lemma Orderly_generateInitialRoads s :
  Orderly s -> Orderly (generateInitialRoads s).
Proof.
  apply (generateInitialRoads_ind width_pos height_pos).
  - intros; by apply Orderly_set_rng.
  - intros s1 x y HO Hin He. apply Orderly_claimRoad; auto.
  - apply Orderly_addRandomCar.
Qed.

Lemma Orderly_initializeGrid r : Orderly (initializeGrid r).
Proof.
  apply Orderly_generateInitialRoads, Orderly_generateTerrain, Orderly_blank.
Qed.

Lemma reachable_Orderly s : reachable s -> Orderly s.
Proof.
  intros [r Ht]. induction Ht as [|s' r' _ IH _].
  - apply Orderly_initializeGrid.
  - by apply Orderly_simulationStep, Orderly_set_rng.
Qed.
End OrderlyRun.

End OrderlyFacts.

Section RoutineFacts.
Context {D : Dim} {FO : FloatOps}.

(** ** Roads are only appended *)

Lemma claimRoads_roads l s :
  roads (foldl (fun s c => claimRoad c.1 c.2 s) s l) = roads s ++ l.
Proof.
  revert s. induction l as [|[x y] l IH]; intros s; simpl.
  - by rewrite app_nil_r.
  - rewrite IH. simpl. by rewrite <- app_assoc.
Qed.

Lemma shuffle_length {A} (l : list A) r : length (shuffle l r).1 = length l.
Proof. by rewrite (shuffle_Permutation l r). Qed.

Lemma extendRoads_roads s : roads (extendRoads s) = roads s ++ newRoads s.
Proof.
  unfold extendRoads, newRoads.
  pose proof (shuffle_length (roadSpots s) (rng s)) as Hl.
  destruct (shuffle (roadSpots s) (rng s)) as [spots r]. simpl in *.
  rewrite claimRoads_roads, Hl. reflexivity.
Qed.

Lemma growCity_roads s : roads s `prefix_of` roads (growCity s).1.
Proof.
  unfold growCity. destruct (grown_frame s) as [Er _].
  destruct (_ =? 0); simpl.
  - rewrite extendRoads_roads, Er. by apply prefix_app_r.
  - by rewrite Er.
Qed.

Lemma simulationStep_roads s : roads s `prefix_of` roads (simulationStep s).1.
Proof.
  unfold simulationStep. destruct (updateCars_world s) as (cs & r & ->).
  set (s1 := set_cars cs (set_rng r s)).
  change (roads s) with (roads s1).
  destruct (_ =? 0); [|done].
  pose proof (growCity_roads s1) as Hp.
  by destruct (growCity s1) as [s2 log].
Qed.

Lemma ticks_roads s s' : ticks s s' -> roads s `prefix_of` roads s'.
Proof.
  induction 1 as [|s' r _ IH _]; [done|].
  etrans; [done|]. apply (simulationStep_roads (set_rng r s')).
Qed.

(** ** The cars are kept *)

Lemma moveCar_keeps s car r :
  speed (moveCar s car r).1 = speed car /\ color (moveCar s car r).1 = color car.
Proof.
  unfold moveCar. destruct (blocked _ _ _); [|done].
  destruct (possibleDirs s car) as [|d ds].
  - destruct (uniform_int _ _ r) as [idx r1].
    destruct (default _ _) as [nx ny]. by destruct (uniform_int 0 3 r1).
  - by destruct (uniform_int _ _ r).
Qed.

Lemma addRandomCar_cars s :
  roads (addRandomCar s) = roads s
  /\ exists extra, cars (addRandomCar s) = cars s ++ extra
                   /\ length extra = if decide (roads s = []) then 0%nat else 1%nat.
Proof.
  destruct (decide (roads s = [])) as [Hr|Hr].
  - unfold addRandomCar. rewrite Hr. split; [done|].
    exists []. by rewrite app_nil_r.
  - destruct (addRandomCar_spec s Hr)
      as (i & x & y & g & dir & col & r & _ & _ & ->).
    split; [done|]. by eexists [_].
Qed.

Lemma updateCars_lookup s i car :
  cars s !! i = Some car ->
  exists car', cars (updateCars s) !! i = Some car'
               /\ speed car' = speed car /\ color car' = color car.
Proof.
  intros Hi. destruct (decide (roads s = [])) as [Hr|Hr].
  { unfold updateCars. rewrite Hr. by exists car. }
  destruct (updateCars_cars s Hr) as [extra ->].
  destruct (moveCars_lookup s (cars s) (rng s) i car Hi) as [r' Hr'].
  exists (moveCar s car r').1. split; [by apply lookup_app_l_Some|].
  apply moveCar_keeps.
Qed.

Lemma updateCars_length s :
  (length (cars s) <= length (cars (updateCars s)) <= length (cars s) + 1)%nat
  /\ ((length (cars s) < length (cars (updateCars s)))%nat ->
      Z.of_nat (length (cars s)) < Z.of_nat (length (roads s)) / 5).
Proof.
  unfold updateCars. destruct (roads s) as [|c0 rs] eqn:Hr; [lia|].
  rewrite <- Hr.
  pose proof (moveCars_length s (cars s) (rng s)) as Hl.
  destruct (moveCars s (cars s) (rng s)) as [moved r]. simpl in Hl.
  rewrite draw_eq.
  set (s2 := set_rng _ (set_rng r (set_cars moved s))).
  change (cars s2) with moved. change (roads s2) with (roads s).
  destruct ((_ <? 5) && (_ <? _ / 5)) eqn:Hc.
  - apply andb_true_iff in Hc as [_ Hc%Z.ltb_lt]. rewrite Hl in Hc.
    destruct (addRandomCar_cars s2) as (_ & extra & -> & Hex).
    change (cars s2) with moved. change (roads s2) with (roads s) in Hex.
    rewrite decide_False in Hex by (by rewrite Hr).
    rewrite length_app, Hl, Hex. split; [lia|]. intros _. exact Hc.
  - change (cars s2) with moved. rewrite Hl. split; [lia|]. intros Hlt. lia.
Qed.

Lemma placeBuilding_cars s c : cars (placeBuilding s c) = cars s.
Proof.
  destruct c as [x y]. unfold placeBuilding. rewrite !drawUniform_eq. cbv zeta.
  destruct (_ || _); [|done]. destruct (_ <? 40); done.
Qed.

Lemma matureCell_cars x y s : cars (matureCell x y s) = cars s.
Proof.
  unfold matureCell. destruct (isBuilt _); [|done].
  set (s1 := setRecord x y _ s).
  match goal with |- context [if negb (hasTree (record ?s x y)) && _ && _
                              then _ else _] => set (s2 := s) end.
  assert (cars s2 = cars s) as E.
  { unfold s2. destruct (_ && (density _ <? 3)); [|done].
    destruct (_ || _ || _); [|done]. rewrite draw_eq.
    by destruct ((gen (rng s1)).1 mod 5 <? 3). }
  clearbody s2. destruct (_ && _ && _); [|done].
  rewrite draw_eq. by destruct ((gen (rng s2)).1 mod 10 <? 4).
Qed.

Lemma growCity_cars s : cars (growCity s).1 = cars s.
Proof.
  assert (cars (matureBuildings (placeBuildings s)) = cars s) as E.
  { unfold matureBuildings.
    apply (foldl_preserves (fun s1 : State => cars s1 = cars s)).
    { intros s1 x _. apply (foldl_preserves (fun s2 : State => cars s2 = cars s)).
      intros s2 y _ E. by rewrite matureCell_cars. }
    unfold placeBuildings. destruct (shuffle _ _) as [spots r].
    apply (foldl_preserves (fun s1 : State => cars s1 = cars s)); [|done].
    intros s1 c _ E. by rewrite placeBuilding_cars. }
  unfold growCity. destruct (_ =? 0); simpl; [|done].
  unfold extendRoads. destruct (shuffle _ _) as [spots r].
  by apply (foldl_preserves (fun s1 : State => cars s1 = cars s)).
Qed.

Lemma simulationStep_cars s : cars (simulationStep s).1 = cars (updateCars s).
Proof.
  unfold simulationStep. destruct (_ =? 0); [|done].
  pose proof (growCity_cars (updateCars s)) as E.
  by destruct (growCity (updateCars s)).
Qed.

(** ** The first cars *)

Lemma addRandomCars_cars {A} (l : list A) s :
  roads (foldl (fun s _ => addRandomCar s) s l) = roads s
  /\ length (cars (foldl (fun s _ => addRandomCar s) s l))
     = (length (cars s) + if decide (roads s = []) then 0 else length l)%nat.
Proof.
  revert s. induction l as [|a l IH]; intros s; simpl.
  - split; [done|]. destruct (decide (roads s = [])); lia.
  - destruct (IH (addRandomCar s)) as [Er El].
    destruct (addRandomCar_cars s) as (Er' & extra & Ec & Ex).
    rewrite Er, El, Er', Ec, length_app, Ex. split; [done|].
    destruct (decide (roads s = [])); lia.
Qed.

Lemma generateInitialRoads_cars s :
  exists s3, generateInitialRoads s = times 15 addRandomCar s3 /\ cars s3 = cars s.
Proof.
  unfold generateInitialRoads. eexists. split; [reflexivity|].
  pose (P := fun s1 : State => cars s1 = cars s).
  assert (forall s1 r, P s1 -> P (set_rng r s1)) as P_rng by done.
  assert (forall s1 x y, P s1 -> inGrid x y -> tag s1 x y = EMPTY ->
                         P (claimRoad x y s1)) as P_road by done.
  apply (foldl_preserves P); [intros; by apply branchRoad_ind|].
  apply (foldl_preserves P).
  { intros s1 y _ HP. by case_bool_decide. }
  apply (foldl_preserves P); [|done].
  intros s1 x _ HP. by case_bool_decide.
Qed.

Lemma initializeGrid_cars r :
  length (cars (initializeGrid r))
  = if decide (roads (initializeGrid r) = []) then 0%nat else 15%nat.
Proof.
  unfold initializeGrid.
  destruct (generateInitialRoads_cars (generateTerrain (blank r)))
    as (s3 & -> & Ec).
  destruct (generateTerrain_frame (blank r)) as (Ec0 & _).
  unfold times. destruct (addRandomCars_cars (seqZ 0 15) s3) as [-> ->].
  rewrite Ec, Ec0. simpl. by destruct (decide _).
Qed.

(** ** The step counter *)

Lemma ticks_currentStep s s' :
  ticks s s' -> currentStep s <= MAX_SIMULATION_STEPS ->
  currentStep s <= currentStep s' <= MAX_SIMULATION_STEPS.
Proof.
  intros Ht Hs. induction Ht as [|s' r _ IH Hlt]; [lia|].
  rewrite currentStep_simulationStep. simpl. lia.
Qed.

(** ** What the road extension writes *)

Lemma claimRoads_tags l s :
  shaped GRID_WIDTH GRID_HEIGHT (grid s) ->
  (forall c, c ∈ l -> inGrid c.1 c.2) ->
  let s' := foldl (fun s c => claimRoad c.1 c.2 s) s l in
  buildings s' = buildings s /\ waterCells s' = waterCells s
  /\ currentStep s' = currentStep s
  /\ forall x y, tag s' x y = if decide ((x, y) ∈ l) then ROAD else tag s x y.
Proof.
  revert s. induction l as [|[cx cy] l IH]; intros s Hsh Hl; simpl.
  { by repeat split. }
  assert (inGrid cx cy) as Hin by (apply (Hl (cx, cy)); by left).
  destruct (IH (claimRoad cx cy s)) as (Eb & Ew & Es & Et).
  { by apply shaped_setCell. }
  { intros c Hc. apply Hl. by right. }
  split; [by rewrite Eb|]. split; [by rewrite Ew|]. split; [by rewrite Es|].
  intros x y. rewrite Et.
  change (tag (claimRoad cx cy s) x y) with (tag (setTag cx cy ROAD s) x y).
  rewrite tag_setTag by done.
  destruct (decide ((x, y) ∈ l)) as [Hxl|Hxl].
  - rewrite decide_True; [done|]. by right.
  - case_decide as Heq.
    + rewrite decide_True; [done|]. inversion Heq. by left.
    + rewrite decide_False; [done|]. intros [E|E]%elem_of_cons; [|done].
      inversion E; subst. done.
Qed.

Lemma roadSpots_built s c :
  c ∈ roadSpots s ->
  exists b, inGrid b.1 b.2 /\ isBuilt (tag s b.1 b.2) = true
            /\ c ∈ neighbours4 b.1 b.2.
Proof.
  unfold roadSpots. intros ([x y] & Hc & Hxy)%list_elem_of_bind.
  destruct (isBuilt (tag s x y)) eqn:Hb; [|by apply elem_of_nil in Hc].
  apply list_elem_of_filter in Hc as [_ Hn].
  exists (x, y). split; [by apply elem_of_allCells|]. by split.
Qed.

Lemma elem_of_newRoads s c : c ∈ newRoads s -> c ∈ roadSpots s.
Proof. apply elem_of_take_shuffle. Qed.

Lemma elem_of_newBuildings s c : c ∈ newBuildings s -> c ∈ buildingSpots s.
Proof. apply elem_of_take_shuffle. Qed.

Lemma extendRoads_spec s :
  Inv s ->
  buildings (extendRoads s) = buildings s
  /\ waterCells (extendRoads s) = waterCells s
  /\ currentStep (extendRoads s) = currentStep s
  /\ forall x y, tag (extendRoads s) x y
                 = if decide ((x, y) ∈ newRoads s) then ROAD else tag s x y.
Proof.
  intros HI.
  pose proof (claimRoads_tags (newRoads s) (set_rng (shuffle (roadSpots s) (rng s)).2 s))
    as Hc.
  assert (extendRoads s
          = foldl (fun s c => claimRoad c.1 c.2 s)
                  (set_rng (shuffle (roadSpots s) (rng s)).2 s) (newRoads s)) as ->.
  { unfold extendRoads, newRoads.
    pose proof (shuffle_length (roadSpots s) (rng s)) as Hl.
    destruct (shuffle (roadSpots s) (rng s)) as [spots r]. simpl in *.
    by rewrite Hl. }
  apply Hc; [apply HI|].
  intros c Hcn%elem_of_newRoads. by apply roadSpots_spec in Hcn as [? _].
Qed.

(** ** The maturation pass visits every cell once *)

Lemma foldl_grid {S} (f : Z -> Z -> S -> S) xs ys (s : S) :
  foldl (fun s x => foldl (fun s y => f x y s) s ys) s xs
  = foldl (fun s c => f c.1 c.2 s) s (x ← xs; y ← ys; [(x, y)]).
Proof.
  assert (forall x s0, foldl (fun s y => f x y s) s0 ys
                       = foldl (fun s c => f c.1 c.2 s) s0 (y ← ys; [(x, y)]))
    as Hrow.
  { intros x. induction ys as [|y ys IHy]; intros s0; [done|].
    csimpl. apply IHy. }
  revert s. induction xs as [|x xs IH]; intros s; [done|].
  csimpl. by rewrite foldl_app, <- IH, Hrow.
Qed.

Lemma matureCells_spec l s :
  NoDup l -> (forall c, c ∈ l -> inGrid c.1 c.2) ->
  shaped GRID_WIDTH GRID_HEIGHT (buildings s) ->
  let s' := foldl (fun s c => matureCell c.1 c.2 s) s l in
  grid s' = grid s
  /\ forall x y,
       if decide ((x, y) ∈ l /\ isBuilt (tag s x y) = true)
       then matured (tag s x y) (record s x y) (record s' x y)
       else record s' x y = record s x y.
Proof.
  intros Hnd. revert s. induction Hnd as [|[cx cy] l Hc Hnd IH];
    intros s Hl Hsh; simpl.
  { split; [done|]. by intros x y. }
  assert (inGrid cx cy) as Hin by (apply (Hl (cx, cy)); by left).
  pose proof (matureCell_RecUpd s cx cy Hsh Hin) as R.
  destruct (IH (matureCell cx cy s)) as [Eg Hrec].
  { intros c Hc'. apply Hl. by right. }
  { apply R. }
  split; [by rewrite Eg, (ru_grid _ _ _ _ R)|].
  intros x y. specialize (Hrec x y).
  rewrite (tag_same_grid s (matureCell cx cy s)) in Hrec by apply R.
  destruct (decide ((cx, cy) = (x, y))) as [Heq|Hne].
  - inversion Heq; subst.
    rewrite decide_False in Hrec by (by intros [? _]).
    rewrite Hrec.
    destruct (isBuilt (tag s x y)) eqn:Hb.
    + rewrite decide_True by (split; [by left|done]).
      by apply matureCell_cell.
    + rewrite decide_False by (by intros [_ ?]).
      by rewrite matureCell_idle.
  - rewrite (ru_other _ _ _ _ R) in Hrec by done.
    destruct (decide ((x, y) ∈ l /\ isBuilt (tag s x y) = true)) as [[H1 H2]|Hn].
    + rewrite decide_True by (split; [by right|done]). done.
    + rewrite decide_False; [done|].
      intros [[E|H1]%elem_of_cons H2]; [by inversion E; subst|]. by apply Hn.
Qed.

Lemma matureBuildings_spec s :
  shaped GRID_WIDTH GRID_HEIGHT (buildings s) ->
  grid (matureBuildings s) = grid s
  /\ forall x y,
       if decide (inGrid x y /\ isBuilt (tag s x y) = true)
       then matured (tag s x y) (record s x y) (record (matureBuildings s) x y)
       else record (matureBuildings s) x y = record s x y.
Proof.
  intros Hsh. unfold matureBuildings.
  rewrite (foldl_grid matureCell). fold allCells.
  destruct (matureCells_spec allCells s NoDup_allCells) as [Eg Hrec]; [|done|].
  { intros [x y]. apply elem_of_allCells. }
  split; [done|]. intros x y. specialize (Hrec x y).
  destruct (decide (inGrid x y /\ isBuilt (tag s x y) = true)) as [[H1 H2]|Hn].
  - rewrite decide_True in Hrec; [done|]. split; [by apply elem_of_allCells|done].
  - rewrite decide_False in Hrec; [done|].
    intros [H1%elem_of_allCells H2]. by apply Hn.
Qed.

(** ** How many cells the placement loop builds on *)

Lemma placeBuildings_eq s :
  placeBuildings s
  = foldl placeBuilding (set_rng (shuffle (buildingSpots s) (rng s)).2 s)
          (newBuildings s).
Proof.
  unfold placeBuildings, newBuildings.
  pose proof (shuffle_length (buildingSpots s) (rng s)) as Hl.
  destruct (shuffle (buildingSpots s) (rng s)) as [spots r]. simpl in *.
  by rewrite Hl.
Qed.

Lemma placeBuilding_tags s x y :
  Inv s -> inGrid x y ->
  forall x' y', tag (placeBuilding s (x, y)) x' y'
                = if decide ((x, y) = (x', y'))
                  then chooseType s x y (uniform_int 0 100 (rng s)).1
                  else tag s x' y'.
Proof.
  intros HI Hin x' y'. destruct (placeBuilding_spec s x y HI Hin) as (Hg & _).
  unfold tag at 1. rewrite Hg. apply (tag_setTag s x y); [apply HI|done].
Qed.

Lemma builtCount_placeBuilding_again s x y :
  Inv s -> inGrid x y -> isBuilt (tag s x y) = true ->
  builtCount (placeBuilding s (x, y)) = builtCount s.
Proof.
  intros HI Hin Hb. apply builtCount_same. intros x' y'.
  rewrite placeBuilding_tags by done. case_decide as Heq; [|done].
  inversion Heq; subst. rewrite Hb. apply isPlaced_isBuilt, chooseType_placed.
Qed.

Lemma placeList_count s0 l s1 :
  PlaceInv s0 s1 ->
  (forall c, c ∈ l -> inGrid c.1 c.2 /\ tag s0 c.1 c.2 = EMPTY) ->
  builtCount s1 <= builtCount (foldl placeBuilding s1 l)
                <= builtCount s1 + Z.of_nat (length l).
Proof.
  revert s1. induction l as [|[x y] l IH]; intros s1 HP Hl; cbn [foldl length];
    [lia|].
  destruct (Hl (x, y)) as [Hin He]; [by left|]. simpl in Hin, He.
  specialize (IH (placeBuilding s1 (x, y))
                 (PlaceInv_placeBuilding s0 s1 x y Hin He HP)
                 (fun c Hc => Hl c (list_elem_of_further _ _ _ Hc))).
  destruct (pl_tags _ _ HP x y He) as [Ht|Ht].
  - rewrite builtCount_placeBuilding in IH by (done || apply HP). lia.
  - rewrite builtCount_placeBuilding_again in IH
      by (done || apply HP || by apply isPlaced_isBuilt). lia.
Qed.

Lemma placeBuildings_count s :
  Inv s -> 0 <= currentStep s ->
  Z.min 1 (Z.of_nat (length (buildingSpots s)))
  <= builtCount (placeBuildings s) - builtCount s
  <= Z.min (1 + Z.quot (currentStep s) 50) (Z.of_nat (length (buildingSpots s))).
Proof.
  intros HI Hstep. rewrite placeBuildings_eq.
  set (s1 := set_rng _ s).
  assert (PlaceInv s s1) as HP.
  { apply PlaceInv_set_rng. split; [done|apply Grows_refl|done|by left]. }
  assert (forall c, c ∈ newBuildings s -> inGrid c.1 c.2 /\ tag s c.1 c.2 = EMPTY)
    as Hl.
  { intros c Hc%elem_of_newBuildings. by apply buildingSpots_spec in Hc as (? & ? & _). }
  assert (Z.of_nat (length (newBuildings s))
          = Z.min (1 + Z.quot (currentStep s) 50)
                  (Z.of_nat (length (buildingSpots s)))) as Hlen.
  { unfold newBuildings. rewrite length_take, shuffle_length.
    pose proof (Z.quot_pos (currentStep s) 50). lia. }
  pose proof (Z.quot_pos (currentStep s) 50 Hstep ltac:(lia)) as Hq.
  change (builtCount s) with (builtCount s1).
  destruct (newBuildings s) as [|[x y] l] eqn:Hnb.
  - cbn [foldl length] in *. lia.
  - destruct (Hl (x, y)) as [Hin He]; [by left|]. simpl in Hin, He.
    cbn [foldl length] in *.
    pose proof (placeList_count s l (placeBuilding s1 (x, y))
                  (PlaceInv_placeBuilding s s1 x y Hin He HP)
                  (fun c Hc => Hl c (list_elem_of_further _ _ _ Hc))) as Hc.
    rewrite builtCount_placeBuilding in Hc by (done || apply HP). lia.
Qed.

Lemma builtCount_growCity s :
  Inv s -> builtCount (growCity s).1 = builtCount (placeBuildings s).
Proof.
  intros HI. unfold growCity.
  destruct (PlaceInv_placeBuildings s HI) as [HI1 _ _ _].
  destruct (MatInv_matureBuildings _ HI1) as [HI2 _ Hg _ _ _].
  set (s2 := matureBuildings (placeBuildings s)) in *.
  assert (builtCount s2 = builtCount (placeBuildings s)) as <-.
  { apply builtCount_same. intros x y.
    by rewrite (tag_same_grid (placeBuildings s) s2). }
  destruct (_ =? 0); simpl; [|done].
  destruct (ExtInv_extendRoads s2 HI2) as [_ [Gt _ _ _ _ _] _ Ht].
  apply builtCount_same. intros x y.
  destruct (decide (tag s2 x y = EMPTY)) as [He|Hne].
  - rewrite He. by destruct (Ht x y He) as [-> | ->].
  - by rewrite Gt.
Qed.

(** ** The city before the first tick *)

Lemma initializeGrid_unbuilt r :
  0 < GRID_WIDTH -> 0 < GRID_HEIGHT ->
  forall x y, isPlaced (tag (initializeGrid r) x y) = false
              /\ age (record (initializeGrid r) x y) = 0.
Proof.
  intros Hw Hh.
  pose (P := fun s : State =>
    Inv s /\ forall x y, isPlaced (tag s x y) = false /\ age (record s x y) = 0).
  cut (P (initializeGrid r)); [by intros []|].
  unfold initializeGrid. apply (generateInitialRoads_ind Hw Hh P).
  - intros s r' [HI HP]. split; [by apply Inv_set_rng|done].
  - intros s x y [HI HP] Hin He. split; [apply Inv_claimRoad; auto|].
    intros x' y'. rewrite tag_claimRoad by done.
    change (record (claimRoad x y s) x' y') with (record s x' y').
    case_decide; [split; [done|apply HP]|apply HP].
  - intros s [HI HP]. destruct (addRandomCar_world s) as (cs & r' & ->).
    split; [by apply Inv_set_cars, Inv_set_rng|done].
  - apply (generateTerrain_ind P).
    + intros s r' [HI HP]. split; [by apply Inv_set_rng|done].
    + intros s x y [HI HP] Hin He. split; [by apply Inv_claimWater|].
      intros x' y'. rewrite tag_claimWater by done.
      change (record (claimWater x y s) x' y') with (record s x' y').
      case_decide; [split; [done|apply HP]|apply HP].
    + intros t s x y Ht [HI HP] Hin He.
      split; [apply Inv_claimGreen; try done; by destruct Ht as [-> | ->]|].
      destruct (claimGreen_spec t s x y HI Hin) as (Htag & Hrec & _).
      intros x' y'. rewrite Htag, Hrec. case_decide; [|apply HP].
      split; [by destruct Ht as [-> | ->]|apply HP].
    + split; [apply Inv_blank|]. intros x y. unfold tag, record. simpl.
      by rewrite !blank_cell.
Qed.

(** ** Counting neighbours *)

Lemma length_window_rows {A B} (l1 : list A) (l2 : list B) :
  length (i ← l1; j ← l2; [(i, j)]) = (length l1 * length l2)%nat.
Proof.
  assert (forall i : A, length (j ← l2; [(i, j)]) = length l2) as Hrow.
  { intros i. induction l2 as [|j l2 IHj]; [done|]. csimpl. by f_equal. }
  induction l1 as [|i l1 IH]; [done|]. csimpl.
  rewrite length_app, IH, Hrow. lia.
Qed.

Lemma filter_length_lt {A} (p : A -> bool) l a :
  a ∈ l -> p a = false -> (length (List.filter p l) < length l)%nat.
Proof.
  intros Ha Hp. induction l as [|b l IH]; [by apply elem_of_nil in Ha|].
  pose proof (List.filter_length_le p l) as Hle.
  apply elem_of_cons in Ha as [<- | Ha]; simpl.
  - rewrite Hp. lia.
  - specialize (IH Ha). destruct (p b); simpl; lia.
Qed.

Lemma elem_of_window radius i j :
  (i, j) ∈ window radius <-> - radius <= i <= radius /\ - radius <= j <= radius.
Proof.
  unfold window. rewrite list_elem_of_bind. split.
  - intros (i' & Hj & Hi). apply list_elem_of_bind in Hj as (j' & Hc & Hj).
    apply list_elem_of_singleton in Hc. inversion Hc; subst.
    apply elem_of_seqZ in Hi, Hj. lia.
  - intros [Hi Hj]. exists i. split; [|apply elem_of_seqZ; lia].
    apply list_elem_of_bind. exists j.
    split; [by apply list_elem_of_singleton|apply elem_of_seqZ; lia].
Qed.

Lemma countNeighborsOfTypeInRadius_length s x y t radius :
  countNeighborsOfTypeInRadius s x y t radius
  = Z.of_nat (length (List.filter (hit s x y t) (window radius))).
Proof.
  unfold countNeighborsOfTypeInRadius, window.
  by rewrite (count_window s x y t _ _ 0), Z.add_0_l.
Qed.

(** ** A river turn *)

Lemma turnRiver_cases dir g :
  0 <= dir <= 3 -> turnRiver dir g = (dir + g mod 3 - 1) mod 4.
Proof.
  intros Hd. pose proof (Z.mod_pos_bound g 3 ltac:(lia)) as Hg.
  unfold turnRiver.
  assert (g mod 3 = 0 \/ g mod 3 = 1 \/ g mod 3 = 2) as [-> | [-> | ->]] by lia;
    assert (dir = 0 \/ dir = 1 \/ dir = 2 \/ dir = 3) as [-> | [-> | [-> | ->]]]
      by lia; reflexivity.
Qed.

(** ** Ticks that leave the map alone *)


(** ** Cars that are not blocked *)

Lemma moveCars_free s cs r :
  Forall (fun car => blocked s (stepX car (direction car))
                               (stepY car (direction car)) = false) cs ->
  moveCars s cs r = (straight <$> cs, r).
Proof.
  induction 1 as [|car cs Hb _ IH]; [done|]. simpl.
  unfold moveCar at 1. rewrite Hb, IH. reflexivity.
Qed.

End RoutineFacts.

Section RunFacts.
Context {D : Dim} {FO : FloatOps}.

(** ** How many cars there are *)

Lemma fleet_size_step s r :
  Z.of_nat (length (cars s)) <= Z.max 15 (Z.of_nat (length (roads s)) / 5)
  /\ (roads s = [] -> cars s = []) ->
  let s' := (simulationStep (set_rng r s)).1 in
  Z.of_nat (length (cars s')) <= Z.max 15 (Z.of_nat (length (roads s')) / 5)
  /\ (roads s' = [] -> cars s' = []).
Proof.
  intros [Hn He] s'.
  pose proof (simulationStep_roads (set_rng r s)) as [k Hk].
  pose proof (simulationStep_cars (set_rng r s)) as Hc.
  destruct (updateCars_length (set_rng r s)) as [Hl Hs].
  fold s' in Hk, Hc. change (roads (set_rng r s)) with (roads s) in *.
  change (cars (set_rng r s)) with (cars s) in *.
  rewrite Hc.
  assert (Z.of_nat (length (roads s)) / 5 <= Z.of_nat (length (roads s')) / 5)
    as Hmono.
  { apply Z.div_le_mono; [lia|]. rewrite Hk, length_app. lia. }
  split.
  - destruct (decide (length (cars s) < length (cars (updateCars (set_rng r s))))%nat)
      as [Hlt|Hge].
    + specialize (Hs Hlt). lia.
    + lia.
  - intros Hr'. rewrite Hr' in Hk. symmetry in Hk.
    apply app_eq_nil in Hk as [Hr _]. specialize (He Hr).
    apply nil_length_inv.
    destruct (decide (length (cars s) < length (cars (updateCars (set_rng r s))))%nat)
      as [Hlt|Hge].
    + specialize (Hs Hlt). rewrite Hr in Hs. simpl in Hs.
      rewrite Z.div_0_l in Hs by lia. lia.
    + rewrite He in *. simpl in *. lia.
Qed.

Lemma reachable_fleet_size s :
  0 < GRID_WIDTH -> 0 < GRID_HEIGHT -> reachable s ->
  Z.of_nat (length (cars s)) <= Z.max 15 (Z.of_nat (length (roads s)) / 5)
  /\ (roads s = [] -> cars s = []).
Proof.
  intros Hw Hh [r Ht]. induction Ht as [|s' r' _ IH _].
  - pose proof (initializeGrid_cars r) as Hc.
    destruct (decide (roads (initializeGrid r) = [])) as [Hr|Hr].
    + apply nil_length_inv in Hc. rewrite Hc. split; [|done]. cbn [length]. lia.
    + rewrite Hc. split; [lia|done].
  - by apply fleet_size_step.
Qed.

Lemma reachable_currentStep s :
  0 < GRID_WIDTH -> 0 < GRID_HEIGHT -> reachable s ->
  0 <= currentStep s <= MAX_SIMULATION_STEPS.
Proof.
  intros Hw Hh [r Ht].
  pose proof (ticks_currentStep _ _ Ht) as Hs.
  rewrite currentStep_initializeGrid in Hs by done.
  apply Hs. unfold MAX_SIMULATION_STEPS. lia.
Qed.

Lemma adjacent4_sym c n : adjacent4 c n -> adjacent4 n c.
Proof. unfold adjacent4. lia. Qed.

(** ** More properties of the run *)

(** X1.  In every state of a run no cell is tagged as a power plant or
    as a government building, the record of every cell that carries a
    building (any tag but Empty, Road and Water) has the tag of the cell
    as its type, and the record of every other cell is still the one
    [initializeGrid] wrote. *)
Theorem records_agree_with_tags s x y :
  0 < GRID_WIDTH -> 0 < GRID_HEIGHT -> reachable s ->
  tag s x y <> POWER_PLANT /\ tag s x y <> GOVERNMENT
  /\ (isBuilt (tag s x y) = true -> b_type (record s x y) = tag s x y)
  /\ (isBuilt (tag s x y) = false -> record s x y = emptyBuilding).
Proof.
  intros Hw Hh Hr. pose proof (od_cells _ (reachable_Orderly Hw Hh s Hr) x y) as Hf.
  destruct (tag s x y); simpl in *; try done; repeat split; try done; tauto.
Qed.

(** X2.  In every state of a run the fields of every record stay in
    their ranges: no record has [hasCar] set, age and variant are not
    negative, the variant is at most 4 and the density at most 3; a placed
    building (Residential, Commercial, Industrial, Park) has a density of
    at least 1 that its age has paid for, 20 units of age per level above
    1; a park stays at density 1; every other cell has density 0, a
    variant of at most 2, no tree and the basic style. *)
Theorem record_fields_stay_in_range s x y :
  0 < GRID_WIDTH -> 0 < GRID_HEIGHT -> reachable s ->
  let b := record s x y in
  hasCar b = false /\ 0 <= age b /\ 0 <= variant b <= 4 /\ 0 <= density b <= 3
  /\ (isPlaced (tag s x y) = true ->
      1 <= density b /\ 20 * (density b - 1) <= age b)
  /\ (tag s x y = PARK -> density b = 1)
  /\ (isPlaced (tag s x y) = false ->
      density b = 0 /\ variant b <= 2 /\ hasTree b = false /\ style b = BASIC).
Proof.
  intros Hw Hh Hr b.
  pose proof (od_cells _ (reachable_Orderly Hw Hh s Hr) x y) as Hf. fold b in Hf.
  destruct (tag s x y); simpl in Hf; try done;
    try (rewrite Hf; simpl; repeat split; (done || lia));
    repeat split; try done; intuition (try done; lia).
Qed.

(** X3.  In every state of a run the water sequence has no duplicates
    and holds exactly the cells of the grid that are tagged Water. *)
Theorem water_sequence_lists_water_cells s :
  0 < GRID_WIDTH -> 0 < GRID_HEIGHT -> reachable s ->
  NoDup (waterCells s)
  /\ forall x y, (x, y) ∈ waterCells s <-> inGrid x y /\ tag s x y = WATER.
Proof.
  intros Hw Hh Hr. pose proof (reachable_Orderly Hw Hh s Hr) as HO.
  split; [apply HO|]. intros x y. split.
  - intros Hxy. apply (inv_water _ (od_inv _ HO) (x, y) Hxy).
  - intros [Hin Ht]. by apply (od_water _ HO).
Qed.

(** X4.  In every state of a run every placed building (Residential,
    Commercial, Industrial or Park cell) has a Road cell of the grid
    among its four neighbours. *)
Theorem buildings_have_road_access s x y :
  0 < GRID_WIDTH -> 0 < GRID_HEIGHT -> reachable s ->
  isPlaced (tag s x y) = true ->
  exists n, adjacent4 (x, y) n /\ inGrid n.1 n.2 /\ tag s n.1 n.2 = ROAD.
Proof.
  intros Hw Hh Hr Hp.
  pose proof (od_access _ (reachable_Orderly Hw Hh s Hr) x y Hp) as Hn.
  apply nearRoad_spec in Hn as (n & Hn & Hin & Ht). exists n.
  split; [|done]. by apply adjacent4_sym, neighbours4_adjacent.
Qed.

(** X5.  In every state of a run every car has a direction in 0..3, a
    road index that is an index into the road sequence, colour channels
    in 150..250 and alpha 255. *)
Theorem cars_are_well_formed s car :
  0 < GRID_WIDTH -> 0 < GRID_HEIGHT -> reachable s -> car ∈ cars s ->
  0 <= direction car <= 3
  /\ 0 <= roadIndex car < Z.of_nat (length (roads s))
  /\ exists r g b, color car = (r, g, b, 255)
       /\ 150 <= r <= 250 /\ 150 <= g <= 250 /\ 150 <= b <= 250.
Proof.
  intros Hw Hh Hr Hc.
  pose proof (od_fleet _ (reachable_Orderly Hw Hh s Hr)) as Hf.
  rewrite list.Forall_forall in Hf. destruct (Hf car Hc) as (Hd & Hi & Hcol).
  split; [done|]. split; [done|].
  destruct (color car) as [[[r g] b] a]. exists r, g, b.
  destruct Hcol as (? & ? & ? & ->). done.
Qed.

(** X6.  The road sequence only grows at its end: along the main loop
    the sequence of an earlier state is a prefix of the sequence of a
    later one, so an index into it keeps its entry. *)
Theorem roads_only_grow s s' :
  ticks s s' ->
  roads s `prefix_of` roads s'
  /\ forall i c, roads s !! i = Some c -> roads s' !! i = Some c.
Proof.
  intros Ht. pose proof (ticks_roads s s' Ht) as Hp. split; [done|].
  intros i c Hi. by eapply prefix_lookup_Some.
Qed.

(** X7.  The road extension appends the first
    [min(1 + currentStep/100, candidates)] shuffled candidates to the road
    sequence and tags them Road; no other tag and no record changes.
    Every one of them was an empty cell of the grid with a Road cell and a
    building cell among its four neighbours. *)
Theorem road_extension_appends s :
  Inv s -> 0 <= currentStep s ->
  roads (extendRoads s) = roads s ++ newRoads s
  /\ Z.of_nat (length (newRoads s))
     = Z.min (1 + Z.quot (currentStep s) 100) (Z.of_nat (length (roadSpots s)))
  /\ buildings (extendRoads s) = buildings s
  /\ (forall x y, tag (extendRoads s) x y
                  = if decide ((x, y) ∈ newRoads s) then ROAD else tag s x y)
  /\ (forall c, c ∈ newRoads s ->
        inGrid c.1 c.2 /\ tag s c.1 c.2 = EMPTY
        /\ (exists n, adjacent4 c n /\ inGrid n.1 n.2 /\ tag s n.1 n.2 = ROAD)
        /\ (exists b, adjacent4 c b /\ inGrid b.1 b.2
                      /\ isBuilt (tag s b.1 b.2) = true)).
Proof.
  intros HI Hstep. destruct (extendRoads_spec s HI) as (Eb & _ & _ & Et).
  split; [apply extendRoads_roads|]. split.
  { unfold newRoads. rewrite length_take, shuffle_length.
    pose proof (Z.quot_pos (currentStep s) 100). lia. }
  split; [done|]. split; [done|].
  intros c Hc%elem_of_newRoads.
  destruct (roadSpots_spec s c Hc) as (Hin & He & Hn).
  destruct (roadSpots_built s c Hc) as (b & Hbin & Hb & Hcb).
  split; [done|]. split; [done|]. split.
  - apply nearRoad_spec in Hn as (n & Hn & Hnin & Hnt). exists n.
    split; [|done]. by apply adjacent4_sym, neighbours4_adjacent.
  - exists b. split; [|done]. destruct b. by apply neighbours4_adjacent.
Qed.

(** X8.  No car is ever removed and a car keeps its speed and its
    colour: along the main loop the car at an index of the car sequence
    is still there, at the same index, with the speed and the colour it
    had. *)
Theorem cars_persist s s' i car :
  ticks s s' -> cars s !! i = Some car ->
  exists car', cars s' !! i = Some car'
               /\ speed car' = speed car /\ color car' = color car.
Proof.
  intros Ht. revert car. induction Ht as [|s' r _ IH _]; intros car Hi.
  - by exists car.
  - destruct (IH car Hi) as (car1 & H1 & Hs1 & Hc1).
    destruct (updateCars_lookup (set_rng r s') i car1 H1) as (car2 & H2 & Hs2 & Hc2).
    exists car2. rewrite simulationStep_cars. split; [done|]. split; congruence.
Qed.

(** X9.  In every state of a run there are at most
    [max(15, roads/5)] cars, and none if the road sequence is empty; a
    tick adds at most one car. *)
Theorem car_count_is_bounded s :
  0 < GRID_WIDTH -> 0 < GRID_HEIGHT -> reachable s ->
  Z.of_nat (length (cars s)) <= Z.max 15 (Z.of_nat (length (roads s)) / 5)
  /\ (roads s = [] -> cars s = [])
  /\ forall r, (length (cars s)
                <= length (cars (simulationStep (set_rng r s)).1)
                <= length (cars s) + 1)%nat.
Proof.
  intros Hw Hh Hr. destruct (reachable_fleet_size s Hw Hh Hr) as [Hn He].
  split; [done|]. split; [done|]. intros r.
  rewrite simulationStep_cars. apply (updateCars_length (set_rng r s)).
Qed.


(** X12.  When no car is blocked, [updateCars] moves every car one step
    on in its direction without drawing from the engine; the first value
    of the engine then decides whether a car is added: it is, on a road
    cell, if the value modulo 100 is below 5 and there are fewer cars than
    a fifth of the road cells. *)
Theorem free_cars_move_straight s :
  roads s <> [] ->
  Forall (fun car => blocked s (stepX car (direction car))
                               (stepY car (direction car)) = false) (cars s) ->
  let s1 := set_rng (gen (rng s)).2 (set_cars (straight <$> cars s) s) in
  updateCars s
  = if ((gen (rng s)).1 mod 100 <? 5)
       && (Z.of_nat (length (cars s)) <? Z.of_nat (length (roads s)) / 5)
    then addRandomCar s1 else s1.
Proof.
  intros Hroads Hfree s1. unfold updateCars.
  destruct (roads s) as [|c0 rs] eqn:Hr; [done|]. rewrite <- Hr.
  rewrite (moveCars_free s (cars s) (rng s) Hfree), draw_eq.
  change (cars (set_rng _ (set_rng (rng s) (set_cars (straight <$> cars s) s))))
    with (straight <$> cars s).
  by rewrite length_fmap.
Qed.

(** X13.  A turn of the river changes the direction by -1, 0 or +1
    modulo 4: for a direction in 0..3 the new direction is again in 0..3,
    so the correction [if (dir < 0) dir += 4] never fires. *)
Theorem river_turn_stays_cardinal dir g :
  0 <= dir <= 3 ->
  turnRiver dir g = (dir + g mod 3 - 1) mod 4 /\ 0 <= turnRiver dir g <= 3.
Proof.
  intros Hd. rewrite turnRiver_cases by done. split; [done|].
  pose proof (Z.mod_pos_bound (dir + g mod 3 - 1) 4). lia.
Qed.

(** X14.  [countNeighborsOfTypeInRadius] counts at most the
    [(2r+1)^2 - 1] cells of the square around a cell, and it is positive
    exactly if some cell of the grid at an offset within the radius, other
    than the cell itself, carries the type. *)
Theorem radius_count_is_bounded s x y t radius :
  0 <= radius ->
  0 <= countNeighborsOfTypeInRadius s x y t radius
    <= (2 * radius + 1) * (2 * radius + 1) - 1
  /\ (0 < countNeighborsOfTypeInRadius s x y t radius <->
      exists i j, - radius <= i <= radius /\ - radius <= j <= radius
                  /\ (i, j) <> (0, 0)
                  /\ inGrid (x + i) (y + j) /\ tag s (x + i) (y + j) = t).
Proof.
  intros Hr. split.
  - rewrite countNeighborsOfTypeInRadius_length.
    assert ((0, 0) ∈ window radius) as Hc by (apply elem_of_window; lia).
    pose proof (filter_length_lt (hit s x y t) (window radius) (0, 0) Hc eq_refl).
    assert (length (window radius)
            = (Z.to_nat (2 * radius + 1) * Z.to_nat (2 * radius + 1))%nat) as Hl.
    { unfold window. by rewrite length_window_rows, !length_seqZ. }
    nia.
  - rewrite <- Z.ltb_lt, countNeighborsOfTypeInRadius_anyWithin.
    unfold anyWithin. rewrite existsb_exists. split.
    + intros ([i j] & Hin & Hh). apply list_elem_of_In, elem_of_window in Hin.
      unfold hit in Hh. simpl in Hh.
      apply andb_true_iff in Hh as [Hne Hh]. apply andb_true_iff in Hh as [Hv Ht].
      apply isValidCell_true in Hv. apply bool_decide_eq_true in Ht.
      exists i, j. split; [lia|]. split; [lia|]. split; [|done].
      intros E. inversion E; subst. done.
    + intros (i & j & Hi & Hj & Hne & Hv & Ht). exists (i, j). split.
      { apply list_elem_of_In, elem_of_window. lia. }
      unfold hit. simpl. apply andb_true_iff. split.
      * apply negb_true_iff, andb_false_iff.
        destruct (decide (i = 0)) as [->|]; [|left; by apply Z.eqb_neq].
        right. apply Z.eqb_neq. intros ->. done.
      * apply andb_true_iff.
        split; [by apply isValidCell_true|by apply bool_decide_eq_true_2].
Qed.

(** X15.  After [initializeGrid] the step counter is 0, no cell carries
    a placed building -- every tag is Empty, Road, Water, Forest or Farm
    -- every record has age 0 and density 0, and there are 15 cars, or
    none if no road could be laid. *)
Theorem initial_city_has_no_buildings r x y :
  0 < GRID_WIDTH -> 0 < GRID_HEIGHT ->
  let s := initializeGrid r in
  currentStep s = 0
  /\ (tag s x y = EMPTY \/ tag s x y = ROAD \/ tag s x y = WATER
      \/ tag s x y = FOREST \/ tag s x y = FARM)
  /\ age (record s x y) = 0 /\ density (record s x y) = 0
  /\ length (cars s) = if decide (roads s = []) then 0%nat else 15%nat.
Proof.
  intros Hw Hh s.
  destruct (initializeGrid_unbuilt r Hw Hh x y) as [Hp Ha].
  pose proof (od_cells _ (Orderly_initializeGrid Hw Hh r) x y) as Hf.
  fold s in Hp, Ha, Hf.
  split; [by apply currentStep_initializeGrid|].
  split; [destruct (tag s x y); simpl in *; try done; auto 6|].
  split; [done|]. split; [|apply initializeGrid_cars].
  destruct (tag s x y); simpl in *; try done; try (by rewrite Hf); tauto.
Qed.

(** X16.  A call of [growCity] builds on at most
    [min(1 + currentStep/50, candidates)] cells and, if there is a
    candidate at all, on at least one: the number of cells that carry a
    building grows by that much. *)
Theorem growth_builds_within_budget s :
  Inv s -> 0 <= currentStep s ->
  Z.min 1 (Z.of_nat (length (buildingSpots s)))
  <= builtCount (growCity s).1 - builtCount s
  <= Z.min (1 + Z.quot (currentStep s) 50) (Z.of_nat (length (buildingSpots s))).
Proof.
  intros HI Hs. rewrite builtCount_growCity by done.
  by apply placeBuildings_count.
Qed.

(** X17.  The maturation pass leaves the grid alone, visits every cell
    of the grid that carries a building exactly once -- its age goes up
    by one, its density by one at most and only on a Residential,
    Commercial or Industrial cell below density 3 whose new age is a
    multiple of 20, a tree is added at most to a Residential cell whose
    new age is a multiple of 30 -- and leaves every other record as it
    is. *)
Theorem maturation_ages_by_one s x y :
  Inv s ->
  grid (matureBuildings s) = grid s
  /\ (inGrid x y -> isBuilt (tag s x y) = true ->
      matured (tag s x y) (record s x y) (record (matureBuildings s) x y))
  /\ (isBuilt (tag s x y) = false ->
      record (matureBuildings s) x y = record s x y).
Proof.
  intros HI. destruct (matureBuildings_spec s (inv_bld _ HI)) as [Eg Hrec].
  split; [done|]. specialize (Hrec x y). split.
  - intros Hin Hb. by rewrite decide_True in Hrec.
  - intros Hb. rewrite decide_False in Hrec; [done|]. intros [_ ?]. congruence.
Qed.

End RunFacts.

Section RenderingFacts.
Context {D : Dim} {FO : FloatOps}.

(** ** The water animation *)

Lemma animAfter_spec clock :
  waterColors (animAfter clock)
  = [(20, 100, 200, 255); (25, 110, 205, 255); (30, 120, 210, 255);
     (35, 130, 215, 255); (40, 140, 220, 255); (35, 130, 215, 255);
     (30, 120, 210, 255); (25, 110, 205, 255)]
  /\ 0 <= waterAnimPhase (animAfter clock) < WATER_ANIM_PHASES.
Proof.
  unfold animAfter.
  match goal with |- ?l = ?c /\ _ =>
    apply (foldl_preserves
             (fun a : Anim => waterColors a = c
                              /\ 0 <= waterAnimPhase a < WATER_ANIM_PHASES))
  end.
  - intros a t _ [Hc Hp]. unfold updateWaterAnimation.
    destruct (200 <? _); [|done]. simpl. split; [done|].
    unfold WATER_ANIM_PHASES in *.
    pose proof (Z.rem_bound_pos (waterAnimPhase a + 1) 8). lia.
  - split; [reflexivity|]. unfold WATER_ANIM_PHASES. simpl. lia.
Qed.

Lemma elapsed_mod last now :
  0 <= last < 2 ^ 32 -> 0 <= now < 2 ^ 32 ->
  (now - last) mod 2 ^ 32 = elapsed last now.
Proof.
  intros Hl Hn. unfold elapsed. destruct (last <=? now) eqn:Hc.
  - apply Z.leb_le in Hc. apply Z.mod_small. lia.
  - apply Z.leb_gt in Hc.
    rewrite <- (Z.mod_add (now - last) 1 (2 ^ 32)) by lia.
    rewrite Z.mod_small; lia.
Qed.

(** ** The colour of a building *)

Lemma buildingColor_fits t b :
  isBuilt t = true -> fits t b ->
  getBuildingColor b = buildingColor id b
  /\ c_a (getBuildingColor b) = 255
  /\ 0 <= c_r (getBuildingColor b) <= 255
  /\ 0 <= c_g (getBuildingColor b) <= 255
  /\ 0 <= c_b (getBuildingColor b) <= 255
  /\ (isPlaced t = true -> t <> PARK ->
      50 <= c_r (getBuildingColor b) /\ 50 <= c_g (getBuildingColor b)
      /\ 50 <= c_b (getBuildingColor b)).
Proof.
  intros Hb Hf. destruct b as [bt d a st v tr car].
  destruct t; simpl in Hb, Hf; try done.
  1-3: destruct Hf as (-> & Hd & _ & Hv & _);
    assert (d = 1 \/ d = 2 \/ d = 3) as [-> | [-> | ->]] by lia;
    assert (v = 0 \/ v = 1 \/ v = 2 \/ v = 3 \/ v = 4)
      as [-> | [-> | [-> | [-> | ->]]]] by lia;
    destruct st; vm_compute; repeat split; congruence.
  - destruct Hf as (-> & _ & _ & Hv & _).
    assert (v = 0 \/ v = 1 \/ v = 2 \/ v = 3 \/ v = 4)
      as [-> | [-> | [-> | [-> | ->]]]] by lia;
      vm_compute; repeat split; congruence.
  - destruct Hf as (-> & _ & _ & Hv & _).
    assert (v = 0 \/ v = 1 \/ v = 2) as [-> | [-> | ->]] by lia;
      vm_compute; repeat split; congruence.
  - destruct Hf as (-> & _ & _ & Hv & _).
    assert (v = 0 \/ v = 1 \/ v = 2) as [-> | [-> | ->]] by lia;
      vm_compute; repeat split; congruence.
Qed.

(** ** What a building paints *)

Lemma Forall_fill (P : Prim -> Prop) r g b a x y w h :
  P (SetRenderDrawColor r g b a) -> P (RenderFillRect x y w h) ->
  Forall P (fill r g b a x y w h).
Proof. intros H1 H2. unfold fill. by repeat constructor. Qed.

Local Ltac cell_arith :=
  unfold CELL_SIZE in *;
  repeat match goal with
         | |- context [Z.quot ?a ?b] =>
             let v := eval vm_compute in (Z.quot a b) in
             change (Z.quot a b) with v
         | H : context [Z.quot ?a ?b] |- _ =>
             let v := eval vm_compute in (Z.quot a b) in
             change (Z.quot a b) with v in H
         end;
  lia.

Local Ltac in_cell :=
  cbv zeta;
  repeat match goal with
         | |- Forall _ (_ ++ _) => apply list.Forall_app; split
         | |- Forall _ [] => apply Forall_nil_2
         | |- Forall _ (fill _ _ _ _ _ _ _ _) =>
             apply Forall_fill; [exact I|simpl; cell_arith]
         | |- Forall _ (_ ≫= _) =>
             apply Forall_bind; apply list.Forall_forall;
             intros ? ?%elem_of_seqZ_1; unfold compose; cbv beta
         | |- Forall _ (if ?c then _ else _) => destruct c
         | |- Forall _ [SetRenderDrawColor _ _ _ _] =>
             apply list.Forall_singleton; exact I
         | |- Forall _ [_] => apply list.Forall_singleton; simpl; cell_arith
         end.

Lemma drawTree_withinCell x y size : Forall (withinCell x y) (drawTree x y size).
Proof. unfold drawTree. in_cell. Qed.

Lemma drawBuilding_withinCell x y b : Forall (withinCell x y) (drawBuilding x y b).
Proof.
  pose proof (drawTree_withinCell x y) as Htree.
  unfold drawBuilding. apply list.Forall_app. split; [in_cell|].
  destruct (b_type b); try apply Forall_nil_2; try apply Htree.
  - unfold residentialDetails. apply list.Forall_app. split; [in_cell|].
    destruct (hasTree b); [apply Htree|apply Forall_nil_2].
  - unfold commercialDetails. apply list.Forall_app. split; [in_cell|].
    destruct (hasTree b); [apply Htree|apply Forall_nil_2].
  - unfold industrialDetails. in_cell.
  - unfold parkDetails. apply list.Forall_app. split; [apply Htree|in_cell].
  - unfold farmDetails. in_cell.
Qed.

(** ** Every cell is painted *)

Lemma fill_rect r g b a x y w h : RenderFillRect x y w h ∈ fill r g b a x y w h.
Proof. unfold fill. apply list_elem_of_further, list_elem_of_here. Qed.

(** X18.  [updateWaterAnimation] advances the phase by one, modulo 8,
    and notes the time exactly when more than 200 ms have passed since it
    last did so, also when the 32-bit millisecond clock has wrapped in
    between; otherwise it changes nothing. *)
Theorem water_animation_advances a now :
  0 <= lastWaterAnimTime a < 2 ^ 32 -> 0 <= now < 2 ^ 32 ->
  0 <= waterAnimPhase a < WATER_ANIM_PHASES ->
  updateWaterAnimation now a
  = if 200 <? elapsed (lastWaterAnimTime a) now
    then mkAnim (waterColors a) now ((waterAnimPhase a + 1) mod WATER_ANIM_PHASES)
    else a.
Proof.
  intros Hl Hn Hp. unfold updateWaterAnimation.
  rewrite elapsed_mod by done. unfold WATER_ANIM_PHASES in *.
  by rewrite Z.rem_mod_nonneg by lia.
Qed.

(** X19.  After [initializeWaterAnimation] and any number of
    [updateWaterAnimation] calls the phase is an index into the eight
    water colours, so [drawWater] reads a colour of the table; brightened
    by 20 for the wave lines its channels still fit a byte; and the three
    wave lines lie on rows of the cell. *)
Theorem water_is_drawn_in_phase clock x y :
  let a := animAfter clock in
  exists r g b o0 o1 o2,
    drawWater a x y
    = [SetRenderDrawColor r g b 255;
       RenderFillRect (x * CELL_SIZE) (y * CELL_SIZE) CELL_SIZE CELL_SIZE;
       SetRenderDrawColor (r + 20) (g + 20) (b + 20) 180;
       RenderDrawLine (x * CELL_SIZE) (y * CELL_SIZE + o0)
                      (x * CELL_SIZE + CELL_SIZE) (y * CELL_SIZE + o0);
       RenderDrawLine (x * CELL_SIZE) (y * CELL_SIZE + o1)
                      (x * CELL_SIZE + CELL_SIZE) (y * CELL_SIZE + o1);
       RenderDrawLine (x * CELL_SIZE) (y * CELL_SIZE + o2)
                      (x * CELL_SIZE + CELL_SIZE) (y * CELL_SIZE + o2)]
    /\ 0 <= waterAnimPhase a < WATER_ANIM_PHASES
    /\ waterColors a !! Z.to_nat (waterAnimPhase a) = Some (r, g, b, 255)
    /\ 0 <= r /\ r + 20 <= 255 /\ 0 <= g /\ g + 20 <= 255
    /\ 0 <= b /\ b + 20 <= 255
    /\ 0 <= o0 < CELL_SIZE /\ 0 <= o1 < CELL_SIZE /\ 0 <= o2 < CELL_SIZE.
Proof.
  intros a. destruct (animAfter_spec clock) as [Hc Hp]. fold a in Hc, Hp.
  set (col := default (0, 0, 0, 0) (waterColors a !! Z.to_nat (waterAnimPhase a))).
  set (off := fun i => Z.rem (Z.quot (i * CELL_SIZE) 3 + waterAnimPhase a * 2)
                             CELL_SIZE).
  assert (waterColors a !! Z.to_nat (waterAnimPhase a)
          = Some (c_r col, c_g col, c_b col, 255)
          /\ 0 <= c_r col /\ c_r col + 20 <= 255 /\ 0 <= c_g col
          /\ c_g col + 20 <= 255 /\ 0 <= c_b col /\ c_b col + 20 <= 255)
    as (Hcol & Hr0 & Hr1 & Hg0 & Hg1 & Hb0 & Hb1).
  { unfold col, WATER_ANIM_PHASES in *. rewrite Hc.
    assert (waterAnimPhase a = 0 \/ waterAnimPhase a = 1 \/ waterAnimPhase a = 2
            \/ waterAnimPhase a = 3 \/ waterAnimPhase a = 4 \/ waterAnimPhase a = 5
            \/ waterAnimPhase a = 6 \/ waterAnimPhase a = 7)
      as [E | [E | [E | [E | [E | [E | [E | E]]]]]]] by lia;
      rewrite E; vm_compute; repeat split; congruence. }
  assert (forall i, 0 <= i -> 0 <= off i < CELL_SIZE) as Hoff.
  { intros i Hi. unfold off, CELL_SIZE, WATER_ANIM_PHASES in *.
    apply Z.rem_bound_pos; [|lia].
    pose proof (Z.quot_pos (i * 16) 3). lia. }
  exists (c_r col), (c_g col), (c_b col), (off 0), (off 1), (off 2).
  split.
  { unfold drawWater. fold col. unfold Uint8.
    rewrite !Z.mod_small by lia. reflexivity. }
  split; [done|]. split; [done|].
  repeat (split; [done|]). repeat split; apply Hoff; lia.
Qed.

(** X20.  The colour of a building of a run never wraps around: with
    the variants and densities the run produces every channel
    [getBuildingColor] computes fits a byte as it is, so the conversion to
    [Uint8] changes nothing; alpha is 255; and the channels of a
    Residential, Commercial or Industrial building stay at 50 or above. *)
Theorem building_colours_do_not_wrap s x y :
  0 < GRID_WIDTH -> 0 < GRID_HEIGHT -> reachable s ->
  isBuilt (tag s x y) = true ->
  let c := getBuildingColor (record s x y) in
  c = buildingColor id (record s x y)
  /\ c_a c = 255
  /\ 0 <= c_r c <= 255 /\ 0 <= c_g c <= 255 /\ 0 <= c_b c <= 255
  /\ (isPlaced (tag s x y) = true -> tag s x y <> PARK ->
      50 <= c_r c /\ 50 <= c_g c /\ 50 <= c_b c).
Proof.
  intros Hw Hh Hr Hb c. apply (buildingColor_fits (tag s x y)); [done|].
  apply (od_cells _ (reachable_Orderly Hw Hh s Hr)).
Qed.

(** X21.  Density darkens: for a Residential, Commercial or Industrial
    record with a variant in 0..4, raising the density within 1..3 raises
    no channel of its colour. *)
Theorem denser_buildings_are_darker b d d' :
  b_type b = RESIDENTIAL \/ b_type b = COMMERCIAL \/ b_type b = INDUSTRIAL ->
  0 <= variant b <= 4 -> 1 <= d -> d <= d' -> d' <= 3 ->
  let c := getBuildingColor (withDensity d b) in
  let c' := getBuildingColor (withDensity d' b) in
  c_r c' <= c_r c /\ c_g c' <= c_g c /\ c_b c' <= c_b c.
Proof.
  intros Ht Hv Hd Hdd Hd'. destruct b as [bt d0 a st v tr car]. simpl in *.
  assert (v = 0 \/ v = 1 \/ v = 2 \/ v = 3 \/ v = 4)
    as [-> | [-> | [-> | [-> | ->]]]] by lia;
    assert (d = 1 \/ d = 2 \/ d = 3) as [-> | [-> | ->]] by lia;
    assert (d' = 1 \/ d' = 2 \/ d' = 3) as [-> | [-> | ->]] by lia;
    try lia;
    destruct Ht as [-> | [-> | ->]]; destruct st;
    vm_compute; repeat split; congruence.
Qed.

(** X22.  Whatever its record, a building paints inside its own cell:
    every rectangle and every point [drawBuilding] draws for the cell
    [(x, y)] lies within the 16x16 square of that cell, and it draws no
    lines. *)
Theorem buildings_paint_inside_their_cell x y b :
  Forall (withinCell x y) (drawBuilding x y b).
Proof. apply drawBuilding_withinCell. Qed.

Lemma bind_infix {A B} (f : A -> list B) l x :
  x ∈ l -> exists pre post, l ≫= f = pre ++ f x ++ post.
Proof.
  intros (l1 & l2 & ->)%list_elem_of_split.
  exists (l1 ≫= f), (l2 ≫= f). by rewrite bind_app, bind_cons.
Qed.

(** X23.  [drawGrid] paints every cell of the grid of a state of a run
    in the pass its tag calls for: the call sequence contains, as one
    block and before the cars are drawn, the calls of the routine for the
    cell -- the fill in [COLOR_EMPTY] for an empty cell, [drawWater] for a
    water cell, [drawRoad] for a road cell, [drawBuilding] with the record
    of the cell for any other -- and that block starts by filling the
    whole cell with an opaque colour. *)
Theorem every_cell_is_painted s a x y :
  0 < GRID_WIDTH -> 0 < GRID_HEIGHT -> reachable s -> inGrid x y ->
  (exists pre post,
     drawGrid s a = pre ++ cellCalls s a x y ++ post ++ drawCars s)
  /\ (exists r g b rest,
        cellCalls s a x y
        = SetRenderDrawColor r g b 255
          :: RenderFillRect (x * CELL_SIZE) (y * CELL_SIZE) CELL_SIZE CELL_SIZE
          :: rest)
  /\ RenderFillRect (x * CELL_SIZE) (y * CELL_SIZE) CELL_SIZE CELL_SIZE
     ∈ drawGrid s a.
Proof.
  intros Hw Hh Hr Hin. pose proof (reachable_Orderly Hw Hh s Hr) as HO.
  assert (exists pre post,
            drawGrid s a = pre ++ cellCalls s a x y ++ post ++ drawCars s) as Hblock.
  { unfold drawGrid, cellCalls.
    set (p1 := fun c : Z * Z => let '(x, y) := c in
                 if bool_decide (tag s x y = EMPTY)
                 then fill (c_r COLOR_EMPTY) (c_g COLOR_EMPTY) (c_b COLOR_EMPTY) 255
                           (x * CELL_SIZE) (y * CELL_SIZE) CELL_SIZE CELL_SIZE
                 else []).
    set (p2 := fun c : Z * Z => let '(wx, wy) := c in drawWater a wx wy).
    set (p3 := fun c : Z * Z => let '(x, y) := c in
                 if isBuilt (tag s x y) then drawBuilding x y (record s x y) else []).
    set (p4 := fun c : Z * Z => let '(rx, ry) := c in drawRoad s rx ry).
    destruct (isBuilt (tag s x y)) eqn:Hb.
    { destruct (bind_infix p3 allCells (x, y)) as (pre & post & E);
        [by apply elem_of_allCells|].
      rewrite E. unfold p3. rewrite Hb.
      exists ((allCells ≫= p1) ++ (waterCells s ≫= p2) ++ pre), (post ++ roads s ≫= p4).
      destruct (tag s x y); try done; by rewrite <- !(assoc_L (++)). }
    destruct (tag s x y) eqn:Ht; try done.
    - destruct (bind_infix p1 allCells (x, y)) as (pre & post & E);
        [by apply elem_of_allCells|].
      rewrite E. unfold p1. rewrite bool_decide_eq_true_2 by done.
      exists pre, (post ++ (waterCells s ≫= p2) ++ (allCells ≫= p3) ++ roads s ≫= p4).
      by rewrite <- !(assoc_L (++)).
    - destruct (bind_infix p4 (roads s) (x, y)) as (pre & post & E);
        [by apply (inv_road_tags _ (od_inv _ HO))|].
      rewrite E. unfold p4.
      exists ((allCells ≫= p1) ++ (waterCells s ≫= p2) ++ (allCells ≫= p3) ++ pre), post.
      by rewrite <- !(assoc_L (++)).
    - destruct (bind_infix p2 (waterCells s) (x, y)) as (pre & post & E);
        [by apply (od_water _ HO)|].
      rewrite E. unfold p2.
      exists ((allCells ≫= p1) ++ pre), (post ++ (allCells ≫= p3) ++ roads s ≫= p4).
      by rewrite <- !(assoc_L (++)). }
  assert (exists r g b rest,
            cellCalls s a x y
            = SetRenderDrawColor r g b 255
              :: RenderFillRect (x * CELL_SIZE) (y * CELL_SIZE) CELL_SIZE CELL_SIZE
              :: rest) as Hhead.
  { unfold cellCalls. destruct (tag s x y); by eexists _, _, _, _. }
  split; [exact Hblock|]. split; [exact Hhead|].
  destruct Hblock as (pre & post & ->). destruct Hhead as (r & g & b & rest & ->).
  apply elem_of_app. right. apply list_elem_of_further, list_elem_of_here.
Qed.

End RenderingFacts.

Section ProgramFacts.
Context {D : Dim} {FO : FloatOps}.

Lemma set_rng_same (s : State) : set_rng (rng s) s = s.
Proof. by destruct s. Qed.

Lemma handleEvents_true es : handleEvents true es = true.
Proof.
  unfold handleEvents. induction es as [|e es IH]; [done|]. simpl.
  destruct e as [|sym|]; try done. by destruct (sym =? SDLK_ESCAPE).
Qed.

Lemma handleEvents_quit quit es : asksToQuit es -> handleEvents quit es = true.
Proof.
  unfold asksToQuit. revert quit.
  induction es as [|e es IH]; intros quit Hq.
  { destruct Hq as [Hq|Hq]; by apply elem_of_nil in Hq. }
  unfold handleEvents in *. simpl.
  destruct Hq as [[<- | Hq]%elem_of_cons | [<- | Hq]%elem_of_cons].
  - apply handleEvents_true.
  - apply IH. by left.
  - rewrite Z.eqb_refl. apply handleEvents_true.
  - apply IH. by right.
Qed.

Lemma handleEvents_stay es :
  ~ asksToQuit es -> handleEvents false es = false.
Proof.
  unfold asksToQuit, handleEvents. induction es as [|e es IH]; intros Hn; [done|].
  simpl. destruct e as [|sym|].
  - destruct Hn. left. by left.
  - destruct (sym =? SDLK_ESCAPE) eqn:E.
    + apply Z.eqb_eq in E. subst. destruct Hn. right. by left.
    + apply IH. intros [H|H]; apply Hn; [left|right]; by right.
  - apply IH. intros [H|H]; apply Hn; [left|right]; by right.
Qed.

Lemma mainLoop_reachable fs quit lastTime w :
  reachable (sim w) ->
  forall w', w' ∈ (mainLoop fs quit lastTime w).1 ->
    reachable (sim w') /\ currentStep (sim w) <= currentStep (sim w').
Proof.
  revert quit lastTime w.
  induction fs as [|f fs IH]; intros quit lastTime w Hr w' Hw'; simpl in Hw'.
  { destruct (_ && _); by apply elem_of_nil in Hw'. }
  destruct (negb quit && _) eqn:Hgo; [|by apply elem_of_nil in Hw'].
  apply andb_true_iff in Hgo as [_ Hlt%Z.ltb_lt].
  set (w1 := if SIMULATION_DELAY <=? (ticksMain f - lastTime) mod 2 ^ 32
             then (stepWorld (ticksAnim f) w, ticksMain f) else (w, lastTime)) in *.
  assert (reachable (sim w1.1) /\ currentStep (sim w) <= currentStep (sim w1.1))
    as [Hr1 Hs1].
  { unfold w1. destruct (_ <=? _); simpl; [|split; [done|lia]].
    rewrite currentStep_simulationStep. split; [|lia].
    destruct Hr as [r Ht]. exists r.
    rewrite <- (set_rng_same (sim w)) at 1. by apply ticks_step. }
  destruct w1 as [w1 last1]. simpl in *.
  specialize (IH (handleEvents quit (events f)) last1 w1 Hr1).
  destruct (mainLoop fs _ last1 w1) as [ws ended]. simpl in *.
  apply elem_of_cons in Hw' as [-> | Hw']; [done|].
  destruct (IH w' Hw'). split; [done|lia].
Qed.

Lemma mainLoop_length fs quit lastTime w :
  (length (mainLoop fs quit lastTime w).1 <= length fs)%nat.
Proof.
  revert quit lastTime w. induction fs as [|f fs IH]; intros quit lastTime w; simpl.
  { destruct (_ && _); simpl; lia. }
  destruct (negb quit && _); [|simpl; lia].
  destruct (if _ <=? _ then _ else _) as [w1 last1].
  specialize (IH (handleEvents quit (events f)) last1 w1).
  destruct (mainLoop fs _ last1 w1) as [ws ended]. simpl in *. lia.
Qed.

Lemma mainLoop_quit fs lastTime w :
  mainLoop fs true lastTime w = ([], true).
Proof. by destruct fs. Qed.

Lemma animAfter_snoc clock t :
  updateWaterAnimation t (animAfter clock) = animAfter (clock ++ [t]).
Proof. unfold animAfter. by rewrite foldl_app. Qed.

Lemma mainLoop_anim fs quit lastTime w :
  (exists clock, anim w = animAfter clock) ->
  forall w', w' ∈ (mainLoop fs quit lastTime w).1 ->
    exists clock, anim w' = animAfter clock.
Proof.
  revert quit lastTime w.
  induction fs as [|f fs IH]; intros quit lastTime w Ha w' Hw'; simpl in Hw'.
  { destruct (_ && _); by apply elem_of_nil in Hw'. }
  destruct (negb quit && _); [|by apply elem_of_nil in Hw'].
  set (w1 := if SIMULATION_DELAY <=? (ticksMain f - lastTime) mod 2 ^ 32
             then (stepWorld (ticksAnim f) w, ticksMain f) else (w, lastTime)) in *.
  assert (exists clock, anim w1.1 = animAfter clock) as Ha1.
  { unfold w1. destruct (_ <=? _); simpl; [|done].
    destruct Ha as [clock ->]. eexists. apply animAfter_snoc. }
  destruct w1 as [w1 last1]. simpl in *.
  specialize (IH (handleEvents quit (events f)) last1 w1 Ha1).
  destruct (mainLoop fs _ last1 w1) as [ws ended]. simpl in *.
  apply elem_of_cons in Hw' as [-> | Hw']; [done|]. by apply IH.
Qed.

Lemma mainLoop_chain fs quit lastTime w i w1 w2 :
  (w :: (mainLoop fs quit lastTime w).1) !! i = Some w1 ->
  (w :: (mainLoop fs quit lastTime w).1) !! S i = Some w2 ->
  sim w2 = sim w1 \/ sim w2 = (simulationStep (sim w1)).1.
Proof.
  revert quit lastTime w i.
  induction fs as [|f fs IH]; intros quit lastTime w i H1 H2; simpl in H1, H2.
  { destruct (_ && _); simpl in H2; by rewrite lookup_nil in H2. }
  destruct (negb quit && _); [|simpl in H2; by rewrite lookup_nil in H2].
  set (w' := if SIMULATION_DELAY <=? (ticksMain f - lastTime) mod 2 ^ 32
             then (stepWorld (ticksAnim f) w, ticksMain f) else (w, lastTime)) in *.
  assert (sim w'.1 = sim w \/ sim w'.1 = (simulationStep (sim w)).1) as Hn.
  { unfold w'. destruct (_ <=? _); simpl; auto. }
  destruct w' as [wn last1]. simpl in Hn.
  specialize (IH (handleEvents quit (events f)) last1 wn).
  destruct (mainLoop fs _ last1 wn) as [ws ended]. simpl in *.
  destruct i as [|i]; simpl in *.
  - inversion H1; subst. inversion H2; subst. done.
  - by apply (IH i).
Qed.

Lemma mainLoop_stops fs1 f fs2 quit lastTime w :
  asksToQuit (events f) ->
  (length (mainLoop (fs1 ++ f :: fs2) quit lastTime w).1 <= length fs1 + 1)%nat
  /\ (mainLoop (fs1 ++ f :: fs2) quit lastTime w).2 = true.
Proof.
  intros Hq. revert quit lastTime w.
  induction fs1 as [|f1 fs1 IH]; intros quit lastTime w; simpl.
  - destruct (negb quit && _); [|simpl; split; [lia|done]].
    rewrite (handleEvents_quit quit _ Hq).
    destruct (if _ <=? _ then _ else _) as [w1 last1].
    rewrite mainLoop_quit. simpl. split; [lia|done].
  - destruct (negb quit && _); [|simpl; split; [lia|done]].
    destruct (if _ <=? _ then _ else _) as [w1 last1].
    specialize (IH (handleEvents quit (events f1)) last1 w1).
    destruct (mainLoop _ _ last1 w1) as [ws ended]. simpl in *.
    split; [lia|apply IH].
Qed.

(** X24.  Every world the main loop presents holds a state of a run,
    with a step counter of at most [MAX_SIMULATION_STEPS], and a water
    animation that [initializeWaterAnimation] and [updateWaterAnimation]
    calls lead to; the loop presents at most one world per frame. *)
Theorem main_loop_presents_states_of_a_run r fs t0 w :
  0 < GRID_WIDTH -> 0 < GRID_HEIGHT ->
  w ∈ (mainLoop fs false t0 (initializeWorld r)).1 ->
  reachable (sim w)
  /\ 0 <= currentStep (sim w) <= MAX_SIMULATION_STEPS
  /\ (exists clock, anim w = animAfter clock)
  /\ (length (mainLoop fs false t0 (initializeWorld r)).1 <= length fs)%nat.
Proof.
  intros Hw Hh Hin.
  assert (reachable (sim (initializeWorld r))) as Hr0.
  { exists r. change (sim (initializeWorld r)) with (initializeGrid r).
    apply ticks_refl. }
  destruct (mainLoop_reachable fs false t0 _ Hr0 w Hin) as [Hr _].
  split; [done|]. split; [by apply reachable_currentStep|].
  split; [|apply mainLoop_length].
  apply (mainLoop_anim fs false t0 (initializeWorld r)); [|done].
  by exists [].
Qed.

(** X25.  From one presented world to the next the main loop runs
    [simulationStep] once or not at all; the same holds from the world
    the loop starts with to the first one presented. *)
Theorem main_loop_steps_at_most_once_per_frame fs quit t0 w i w1 w2 :
  (w :: (mainLoop fs quit t0 w).1) !! i = Some w1 ->
  (w :: (mainLoop fs quit t0 w).1) !! S i = Some w2 ->
  sim w2 = sim w1 \/ sim w2 = (simulationStep (sim w1)).1.
Proof. apply mainLoop_chain. Qed.

Lemma last_cons_default {A} (a w : A) l : List.last (a :: l) w = List.last l a.
Proof.
  revert a w. induction l as [|b l IH]; intros a w; [done|].
  change (List.last (a :: b :: l) w) with (List.last (b :: l) w).
  by rewrite !IH.
Qed.

Lemma lookup_last_cons {A} (w : A) l :
  (w :: l) !! length l = Some (List.last l w).
Proof.
  revert w. induction l as [|a l IH]; intros w; [done|].
  cbn [length]. change ((w :: a :: l) !! S (length l)) with ((a :: l) !! length l).
  by rewrite IH, last_cons_default.
Qed.

Lemma mainLoop_at_quit fs1 f fs2 quit lastTime w :
  asksToQuit (events f) ->
  ((mainLoop fs1 quit lastTime w).2 = true ->
   mainLoop (fs1 ++ f :: fs2) quit lastTime w = mainLoop fs1 quit lastTime w)
  /\ ((mainLoop fs1 quit lastTime w).2 = false ->
      exists w', mainLoop (fs1 ++ f :: fs2) quit lastTime w
                 = ((mainLoop fs1 quit lastTime w).1 ++ [w'], true)).
Proof.
  intros Hq. revert quit lastTime w.
  induction fs1 as [|f1 fs1 IH]; intros quit lastTime w; simpl.
  - destruct (negb quit && _); [|by split].
    rewrite (handleEvents_quit quit _ Hq).
    destruct (if _ <=? _ then _ else _) as [w1 last1].
    rewrite mainLoop_quit. simpl. split; [done|]. intros _. by exists w1.
  - destruct (negb quit && _); [|by split].
    destruct (if _ <=? _ then _ else _) as [w1 last1].
    destruct (IH (handleEvents quit (events f1)) last1 w1) as [IH1 IH2].
    destruct (mainLoop fs1 _ last1 w1) as [ws ended]. simpl in *.
    split.
    + intros ->. by rewrite IH1.
    + intros ->. destruct IH2 as [w' ->]; [done|]. by exists w'.
Qed.

Lemma mainLoop_quit_pass f fs quit lastTime w :
  asksToQuit (events f) -> quit = false ->
  currentStep (sim w) < MAX_SIMULATION_STEPS ->
  mainLoop (f :: fs) quit lastTime w
  = ([if SIMULATION_DELAY <=? (ticksMain f - lastTime) mod 2 ^ 32
      then stepWorld (ticksAnim f) w else w], true).
Proof.
  intros Hq -> Hs. simpl.
  rewrite (proj2 (Z.ltb_lt _ _) Hs), (handleEvents_quit false _ Hq).
  destruct (_ <=? _); by rewrite mainLoop_quit.
Qed.

(** X26.  A pass of the main loop that polls [SDL_QUIT] or a key press
    of Escape is the last one.  If the loop has come to its end before
    that pass, the pass does not happen.  Otherwise the pass is carried
    out in full: it runs [simulationStep] if the delay has passed, and
    the world is presented, after the worlds of the passes before; then
    the loop comes to its end, without reading the frames after it. *)
Theorem main_loop_stops_on_quit fs1 f fs2 t0 w :
  asksToQuit (events f) ->
  let before := mainLoop fs1 false t0 w in
  let run := mainLoop (fs1 ++ f :: fs2) false t0 w in
  (length run.1 <= length fs1 + 1)%nat
  /\ run.2 = true
  /\ run = mainLoop (fs1 ++ [f]) false t0 w
  /\ (before.2 = true -> run = before)
  /\ (before.2 = false ->
      exists w', run = (before.1 ++ [w'], true)
        /\ (sim w' = sim (List.last before.1 w)
            \/ sim w' = (simulationStep (sim (List.last before.1 w))).1))
  /\ (currentStep (sim w) < MAX_SIMULATION_STEPS ->
      mainLoop (f :: fs2) false t0 w
      = ([if SIMULATION_DELAY <=? (ticksMain f - t0) mod 2 ^ 32
          then stepWorld (ticksAnim f) w else w], true)).
Proof.
  intros Hq before run.
  destruct (mainLoop_stops fs1 f fs2 false t0 w Hq) as [Hl He].
  destruct (mainLoop_at_quit fs1 f fs2 false t0 w Hq) as [Hended Hgoing].
  split; [done|]. split; [done|]. split; [|split; [done|split]].
  - unfold run. clear -Hq. generalize false. revert t0 w.
    induction fs1 as [|f1 fs1 IH]; intros t0 w quit; simpl.
    + destruct (negb quit && _); [|done].
      rewrite (handleEvents_quit quit _ Hq).
      destruct (if _ <=? _ then _ else _) as [w1 last1].
      by rewrite !mainLoop_quit.
    + destruct (negb quit && _); [|done].
      destruct (if _ <=? _ then _ else _) as [w1 last1].
      by rewrite IH.
  - intros Hb. destruct (Hgoing Hb) as [w' Hrun]. exists w'. split; [done|].
    unfold run, before in *. clear run before.
    set (ws := (mainLoop fs1 false t0 w).1) in *.
    apply (mainLoop_chain (fs1 ++ f :: fs2) false t0 w (length ws)).
    + rewrite Hrun. cbn [fst].
      rewrite app_comm_cons, lookup_app_l by (cbn [length]; lia).
      apply lookup_last_cons.
    + rewrite Hrun. cbn [fst].
      change ((w :: ws ++ [w']) !! S (length ws)) with ((ws ++ [w']) !! length ws).
      by rewrite lookup_app_r, Nat.sub_diag by lia.
  - intros Hs. by apply mainLoop_quit_pass.
Qed.

(** X27.  [main] gives up with exit code 1, before anything is drawn,
    exactly if [SDL_Init], [TTF_Init], the window or the renderer fails,
    and then reports that one failure; a font that cannot be opened is
    reported and the program goes on: it initialises the world from the
    engine and presents what the main loop presents, and its exit code is
    0 once the loop has come to its end. *)
Theorem main_gives_up_only_on_initialisation env :
  let failed :=
    (sdlInit env <? 0) || (ttfInit env <? 0)
    || negb (windowCreated env) || negb (rendererCreated env) in
  let run := mainLoop (frames env) false (startTicks env)
                      (initializeWorld (seed env)) in
  if failed
  then exitCode (main env) = Some 1 /\ screen (main env) = []
       /\ length (messages (main env)) = 1%nat
  else exitCode (main env) = (if run.2 then Some 0 else None)
       /\ screen (main env) = renderFrame <$> run.1
       /\ (FontFailed ∈ messages (main env) <-> fontOpened env = false)
       /\ (FallbackFontFailed ∈ messages (main env)
           <-> fontOpened env = false /\ fallbackOpened env = false).
Proof.
  intros failed run. unfold failed, main. fold run.
  destruct (sdlInit env <? 0); [done|].
  destruct (ttfInit env <? 0); [done|].
  destruct (windowCreated env); [|done].
  destruct (rendererCreated env); [|done]. simpl.
  destruct run as [ws ended]. simpl. split; [done|]. split; [done|].
  destruct (fontOpened env), (fallbackOpened env);
    rewrite ?elem_of_cons, ?elem_of_nil; split; split; intros H;
    try done; try tauto; try (destruct H; congruence);
    intuition congruence.
Qed.

End ProgramFacts.

Section CadenceFacts.
Context {D : Dim} {FO : FloatOps}.

(** ** Ages and the cadence of growth *)

Lemma growthCalls_next t :
  0 <= t ->
  growthCalls (t + 1)
  = if Z.rem t 3 =? 0 then growthCalls t + 1 else growthCalls t.
Proof.
  intros Ht. unfold growthCalls.
  rewrite !Z.quot_div_nonneg, Z.rem_mod_nonneg by lia.
  pose proof (Z.div_mod t 3 ltac:(lia)).
  pose proof (Z.mod_pos_bound t 3 ltac:(lia)).
  pose proof (Z.div_mod (t + 2) 3 ltac:(lia)).
  pose proof (Z.mod_pos_bound (t + 2) 3 ltac:(lia)).
  pose proof (Z.div_mod (t + 1 + 2) 3 ltac:(lia)).
  pose proof (Z.mod_pos_bound (t + 1 + 2) 3 ltac:(lia)).
  destruct (t mod 3 =? 0) eqn:E; [apply Z.eqb_eq in E|apply Z.eqb_neq in E]; lia.
Qed.

Lemma Fresh_placeBuildings s : Inv s -> Fresh s (placeBuildings s).
Proof.
  intros HI.
  cut (PlaceInv s (placeBuildings s) /\ Fresh s (placeBuildings s)); [by intros []|].
  unfold placeBuildings.
  destruct (shuffle (buildingSpots s) (rng s)) as [spots r] eqn:Hsh.
  apply foldl_preserves.
  - intros s1 [x y] Hc [HP HF].
    replace spots with (shuffle (buildingSpots s) (rng s)).1 in Hc
      by by rewrite Hsh.
    apply elem_of_take_shuffle, buildingSpots_spec in Hc as (Hin & He & _).
    simpl in Hin, He.
    split; [by apply PlaceInv_placeBuilding|].
    destruct (placeBuilding_spec s1 x y (pl_inv _ _ HP) Hin)
      as (_ & _ & _ & _ & _ & _ & b & _ & _ & Hba & Hrec).
    pose proof (placeBuilding_tags s1 x y (pl_inv _ _ HP) Hin) as Htag.
    pose proof (chooseType_placed s1 x y (uniform_int 0 100 (rng s1)).1) as Hpl.
    intros x' y'. destruct (HF x' y') as [Hkeep Hnew].
    rewrite Htag, Hrec.
    destruct (decide ((x, y) = (x', y'))) as [E|E].
    + inversion E; subst. split; [done|]. intros _. by right.
    + split; [by apply Hkeep|by apply Hnew].
  - split.
    + apply PlaceInv_set_rng. split; [done|apply Grows_refl|done|by left].
    + intros x y. split; [done|by left].
Qed.

Lemma built_inGrid s x y : Inv s -> isBuilt (tag s x y) = true -> inGrid x y.
Proof.
  intros HI Hb. destruct (decide (inGrid x y)) as [|Hout]; [done|].
  rewrite (tag_outside s x y) in Hb; [done|apply HI|done].
Qed.

Lemma Aged_growCity s :
  Inv s -> 0 <= currentStep s -> Z.rem (currentStep s) 3 = 0 -> Aged s ->
  forall x y, isBuilt (tag (growCity s).1 x y) = true ->
    age (record (growCity s).1 x y) <= growthCalls (currentStep s) + 1
    /\ (isPlaced (tag (growCity s).1 x y) = false ->
        age (record (growCity s).1 x y) = growthCalls (currentStep s) + 1).
Proof.
  intros HI Hs H3 HA.
  pose proof (Fresh_placeBuildings s HI) as HF.
  destruct (PlaceInv_placeBuildings s HI) as [HI1 _ _ _].
  set (s1 := placeBuildings s) in *.
  destruct (matureBuildings_spec s1 (inv_bld _ HI1)) as [Eg Hm].
  destruct (MatInv_matureBuildings s1 HI1) as [HI2 _ _ _ _ _].
  set (s2 := matureBuildings s1) in *.
  assert (forall x y, isBuilt (tag s2 x y) = true ->
            age (record s2 x y) <= growthCalls (currentStep s) + 1
            /\ (isPlaced (tag s2 x y) = false ->
                age (record s2 x y) = growthCalls (currentStep s) + 1)) as H2.
  { intros x y Hb. rewrite (tag_same_grid s1 s2) in * by done.
    pose proof (built_inGrid s1 x y HI1 Hb) as Hin.
    specialize (Hm x y). rewrite decide_True in Hm by done.
    destruct Hm as (_ & Ea & _). rewrite Ea.
    destruct (HF x y) as [Hkeep Hnew].
    destruct (decide (tag s x y = EMPTY)) as [He|Hne].
    - destruct (Hnew He) as [E|[Hp ->]]; [by rewrite E in Hb|].
      rewrite Hp. split; [|done].
      unfold growthCalls. pose proof (Z.quot_pos (currentStep s + 2) 3). lia.
    - destruct (Hkeep Hne) as [Et Er]. rewrite Et, Er in *.
      destruct (HA x y Hb) as [Hle Heq]. split; [lia|].
      intros Hnp. rewrite Heq by done. done. }
  unfold growCity. fold s1 s2.
  destruct (_ =? 0); simpl; [|done].
  destruct (extendRoads_spec s2 HI2) as (Eb & _ & _ & Et).
  intros x y. unfold record at 1 2. rewrite Eb. fold (record s2 x y).
  rewrite Et. case_decide; [done|]. apply H2.
Qed.

Lemma Aged_simulationStep s :
  Inv s -> 0 <= currentStep s -> Aged s -> Aged (simulationStep s).1.
Proof.
  intros HI Hs HA. unfold Aged. rewrite currentStep_simulationStep.
  rewrite growthCalls_next by done.
  unfold simulationStep. destruct (updateCars_world s) as (cs & r & ->).
  set (s1 := set_cars cs (set_rng r s)).
  assert (Inv s1) as HI1 by by apply Inv_set_cars, Inv_set_rng.
  change (currentStep s1) with (currentStep s).
  destruct (Z.rem (currentStep s) 3 =? 0) eqn:H3.
  - apply Z.eqb_eq in H3.
    pose proof (Aged_growCity s1 HI1 Hs H3 HA) as Hg.
    destruct (growCity s1) as [s2 log]. simpl in *. exact Hg.
  - exact HA.
Qed.

(** ** The arterial roads leave no gap *)

Lemma arterial_row l my s :
  Inv s -> (forall x, x ∈ l -> inGrid x my) ->
  let s' := foldl (fun s x => if bool_decide (tag s x my = EMPTY)
                              then claimRoad x my s else s) s l in
  Inv s' /\ Grows s s' /\ forall x, x ∈ l -> tag s' x my <> EMPTY.
Proof.
  revert s. induction l as [|x l IH] using rev_ind; intros s HI Hl; simpl.
  { split; [done|]. split; [apply Grows_refl|]. intros x Hx. by apply elem_of_nil in Hx. }
  rewrite foldl_app. simpl.
  destruct (IH s HI) as (HI1 & HG1 & Hne1).
  { intros x' Hx'. apply Hl, elem_of_app. by left. }
  set (s1 := foldl _ s l) in *.
  assert (inGrid x my) as Hin by (apply Hl, elem_of_app; right; by left).
  case_bool_decide as He.
  - split; [apply Inv_claimRoad; auto|].
    pose proof (Grows_claimRoad s1 x my HI1 Hin (or_introl He)) as HG2.
    split; [by eapply Grows_trans|].
    intros x' [Hx'|Hx']%elem_of_app.
    + rewrite (g_tags _ _ HG2) by by apply Hne1. by apply Hne1.
    + apply list_elem_of_singleton in Hx' as ->.
      rewrite tag_claimRoad, decide_True by done. done.
  - split; [done|]. split; [done|].
    intros x' [Hx'|Hx']%elem_of_app; [by apply Hne1|].
    by apply list_elem_of_singleton in Hx' as ->.
Qed.

Lemma arterial_column l mx s :
  Inv s -> (forall y, y ∈ l -> inGrid mx y) ->
  let s' := foldl (fun s y => if bool_decide (tag s mx y = EMPTY)
                              then claimRoad mx y s else s) s l in
  Inv s' /\ Grows s s' /\ forall y, y ∈ l -> tag s' mx y <> EMPTY.
Proof.
  revert s. induction l as [|y l IH] using rev_ind; intros s HI Hl; simpl.
  { split; [done|]. split; [apply Grows_refl|]. intros y Hy. by apply elem_of_nil in Hy. }
  rewrite foldl_app. simpl.
  destruct (IH s HI) as (HI1 & HG1 & Hne1).
  { intros y' Hy'. apply Hl, elem_of_app. by left. }
  set (s1 := foldl _ s l) in *.
  assert (inGrid mx y) as Hin by (apply Hl, elem_of_app; right; by left).
  case_bool_decide as He.
  - split; [apply Inv_claimRoad; auto|].
    pose proof (Grows_claimRoad s1 mx y HI1 Hin (or_introl He)) as HG2.
    split; [by eapply Grows_trans|].
    intros y' [Hy'|Hy']%elem_of_app.
    + rewrite (g_tags _ _ HG2) by by apply Hne1. by apply Hne1.
    + apply list_elem_of_singleton in Hy' as ->.
      rewrite tag_claimRoad, decide_True by done. done.
  - split; [done|]. split; [done|].
    intros y' [Hy'|Hy']%elem_of_app; [by apply Hne1|].
    by apply list_elem_of_singleton in Hy' as ->.
Qed.

Lemma generateInitialRoads_arterials s x y :
  0 < GRID_WIDTH -> 0 < GRID_HEIGHT -> Inv s -> inGrid x y ->
  y = Z.quot GRID_HEIGHT 2 \/ x = Z.quot GRID_WIDTH 2 ->
  tag (generateInitialRoads s) x y <> EMPTY.
Proof.
  intros Hw Hh HI [Hx Hy] Hmid. unfold generateInitialRoads.
  pose proof (Z.quot_pos GRID_WIDTH 2). pose proof (Z.quot_lt GRID_WIDTH 2).
  pose proof (Z.quot_pos GRID_HEIGHT 2). pose proof (Z.quot_lt GRID_HEIGHT 2).
  destruct (arterial_row (seqZ 0 GRID_WIDTH) (Z.quot GRID_HEIGHT 2) s HI)
    as (HI1 & HG1 & Hrow).
  { intros x' Hx'%elem_of_seqZ_1. split; lia. }
  set (s1 := foldl _ s (seqZ 0 GRID_WIDTH)) in *.
  destruct (arterial_column (seqZ 0 GRID_HEIGHT) (Z.quot GRID_WIDTH 2) s1 HI1)
    as (HI2 & HG2 & Hcol).
  { intros y' Hy'%elem_of_seqZ_1. split; lia. }
  set (s2 := foldl _ s1 (seqZ 0 GRID_HEIGHT)) in *.
  assert (tag s2 x y <> EMPTY) as Hne.
  { destruct Hmid as [-> | ->].
    - assert (tag s1 x (Z.quot GRID_HEIGHT 2) <> EMPTY) as Hr
        by (apply Hrow, elem_of_seqZ; lia).
      by rewrite (g_tags _ _ HG2).
    - apply Hcol, elem_of_seqZ. lia. }
  pose (P := fun s3 : State => Inv s3 /\ tag s3 x y = tag s2 x y).
  cut (P (times 15 addRandomCar
            (foldl (branchRoad (Z.quot GRID_WIDTH 2) (Z.quot GRID_HEIGHT 2)) s2
                   (seqZ 0 INITIAL_ROADS)))).
  { intros [_ ->]. done. }
  assert (forall s3 r, P s3 -> P (set_rng r s3)) as P_rng.
  { intros s3 r [HI3 E]. split; [by apply Inv_set_rng|done]. }
  assert (forall s3 x' y', P s3 -> inGrid x' y' -> tag s3 x' y' = EMPTY ->
                           P (claimRoad x' y' s3)) as P_road.
  { intros s3 x' y' [HI3 E] Hin' He'. split; [apply Inv_claimRoad; auto|].
    rewrite tag_claimRoad by done. case_decide as Heq; [|done].
    inversion Heq; subst. congruence. }
  apply times_preserves.
  { intros s3 [HI3 E]. destruct (addRandomCar_world s3) as (cs & r & ->).
    split; [by apply Inv_set_cars, Inv_set_rng|done]. }
  apply foldl_preserves; [intros; by apply branchRoad_ind|]. by split.
Qed.

Lemma initializeGrid_arterials r x y :
  0 < GRID_WIDTH -> 0 < GRID_HEIGHT -> inGrid x y ->
  y = Z.quot GRID_HEIGHT 2 \/ x = Z.quot GRID_WIDTH 2 ->
  tag (initializeGrid r) x y <> EMPTY.
Proof.
  intros Hw Hh Hin Hmid. unfold initializeGrid.
  apply generateInitialRoads_arterials; try done.
  apply Inv_generateTerrain, Inv_blank.
Qed.

End CadenceFacts.

Section MoreRunFacts.
Context {D : Dim} {FO : FloatOps}.

Lemma reachable_Aged s :
  0 < GRID_WIDTH -> 0 < GRID_HEIGHT -> reachable s -> Aged s.
Proof.
  intros Hw Hh [r Ht]. induction Ht as [|s' r' Ht IH Hlt].
  - intros x y Hb. rewrite currentStep_initializeGrid by done.
    destruct (initializeGrid_unbuilt r Hw Hh x y) as [_ ->].
    change (growthCalls 0) with 0. split; [lia|done].
  - assert (reachable s') as Hr by by exists r.
    apply Aged_simulationStep.
    + by apply Inv_set_rng, reachable_Inv.
    + destruct (reachable_currentStep s' Hw Hh Hr). done.
    + exact IH.
Qed.

(** X10.  [countNeighborsOfType] counts between 0 and 4 cells; it is
    positive exactly if one of the four neighbours of the cell lies in
    the grid and carries the type; and it never counts more than
    [countNeighborsOfTypeInRadius] does with radius 1. *)
Theorem neighbour_count_is_bounded s x y t :
  0 <= countNeighborsOfType s x y t <= 4
  /\ (0 < countNeighborsOfType s x y t <->
      exists n, adjacent4 (x, y) n /\ inGrid n.1 n.2 /\ tag s n.1 n.2 = t)
  /\ countNeighborsOfType s x y t <= countNeighborsOfTypeInRadius s x y t 1.
Proof.
  unfold countNeighborsOfType, countNeighborsOfTypeInRadius.
  change (seqZ 0 4) with [0; 1; 2; 3].
  change (seqZ (Z.opp 1) (2 * 1 + 1)) with [-1; 0; 1].
  cbn [foldl]. cbv beta zeta.
  change (dx 0) with (-1). change (dx 1) with 0. change (dx 2) with 1.
  change (dx 3) with 0. change (dy 0) with 0. change (dy 1) with 1.
  change (dy 2) with 0. change (dy 3) with (-1).
  cbn [Z.eqb andb].
  assert (forall a b, isValidCell a b && bool_decide (tag s a b = t) = true
                      <-> inGrid a b /\ tag s a b = t) as Hhit.
  { intros a b. by rewrite andb_true_iff, isValidCell_true, bool_decide_eq_true. }
  pose proof (Hhit (x + -1) (y + 0)) as H0. pose proof (Hhit (x + 0) (y + 1)) as H1.
  pose proof (Hhit (x + 1) (y + 0)) as H2. pose proof (Hhit (x + 0) (y + -1)) as H3.
  clear Hhit.
  set (b0 := isValidCell (x + -1) (y + 0) && bool_decide (tag s (x + -1) (y + 0) = t)) in *.
  set (b1 := isValidCell (x + 0) (y + 1) && bool_decide (tag s (x + 0) (y + 1) = t)) in *.
  set (b2 := isValidCell (x + 1) (y + 0) && bool_decide (tag s (x + 1) (y + 0) = t)) in *.
  set (b3 := isValidCell (x + 0) (y + -1) && bool_decide (tag s (x + 0) (y + -1) = t)) in *.
  assert ((exists n, adjacent4 (x, y) n /\ inGrid n.1 n.2 /\ tag s n.1 n.2 = t)
          <-> b0 = true \/ b1 = true \/ b2 = true \/ b3 = true) as ->.
  { split.
    - intros ([a b] & Hadj & Hin). unfold adjacent4 in Hadj. simpl in Hadj, Hin.
      assert ((a = x + -1 /\ b = y + 0) \/ (a = x + 0 /\ b = y + 1)
              \/ (a = x + 1 /\ b = y + 0) \/ (a = x + 0 /\ b = y + -1))
        as [[-> ->]|[[-> ->]|[[-> ->]|[-> ->]]]] by lia.
      + left. by apply H0.
      + right; left. by apply H1.
      + right; right; left. by apply H2.
      + right; right; right. by apply H3.
    - intros [Hb|[Hb|[Hb|Hb]]].
      + exists (x + -1, y + 0). split; [unfold adjacent4; simpl; lia|by apply H0].
      + exists (x + 0, y + 1). split; [unfold adjacent4; simpl; lia|by apply H1].
      + exists (x + 1, y + 0). split; [unfold adjacent4; simpl; lia|by apply H2].
      + exists (x + 0, y + -1). split; [unfold adjacent4; simpl; lia|by apply H3]. }
  clearbody b0 b1 b2 b3. clear H0 H1 H2 H3.
  destruct b0, b1, b2, b3; cbv iota;
    (split; [lia|]); (split; [|repeat case_match; lia]);
    (split;
     [ intros ?;
       first [ lia | by left | by right; left | by right; right; left
             | by right; right; right ]
     | intros ?; first [ lia | intuition discriminate ] ]).
Qed.

(** X28.  Ages follow the cadence of growth: in every state of a run a
    forest or farm cell is exactly as old as [growCity] has been called,
    once on every third tick, and no building is older; so a building
    reaches density 2 after 20 calls at the earliest and density 3 after
    40. *)
Theorem ages_follow_the_growth_cadence s x y :
  0 < GRID_WIDTH -> 0 < GRID_HEIGHT -> reachable s ->
  isBuilt (tag s x y) = true ->
  age (record s x y) <= growthCalls (currentStep s)
  /\ (isPlaced (tag s x y) = false ->
      age (record s x y) = growthCalls (currentStep s))
  /\ 20 * (density (record s x y) - 1) <= growthCalls (currentStep s).
Proof.
  intros Hw Hh Hr Hb.
  destruct (reachable_Aged s Hw Hh Hr x y Hb) as [Hle Heq].
  split; [done|]. split; [done|].
  pose proof (od_cells s (reachable_Orderly Hw Hh s Hr) x y) as Hf.
  destruct (tag s x y); try done; simpl in Hf; lia.
Qed.

(** X29.  The two arterial roads leave no gap: in every state of a run
    every cell of the middle row and of the middle column is a Road cell
    or a cell of the terrain (Water, Forest or Farm), as [initializeGrid]
    left it; no building is ever placed there. *)
Theorem arterial_roads_leave_no_gap s x y :
  0 < GRID_WIDTH -> 0 < GRID_HEIGHT -> reachable s -> inGrid x y ->
  y = Z.quot GRID_HEIGHT 2 \/ x = Z.quot GRID_WIDTH 2 ->
  tag s x y = ROAD \/ tag s x y = WATER \/ tag s x y = FOREST \/ tag s x y = FARM.
Proof.
  intros Hw Hh [r Ht] Hin Hmid.
  pose proof (initializeGrid_arterials r x y Hw Hh Hin Hmid) as Hne.
  destruct (ticks_Inv_Evolves _ _ (Inv_initializeGrid Hw Hh r) Ht) as [_ HE].
  rewrite (ev_tags _ _ HE) by done.
  destruct (initializeGrid_unbuilt r Hw Hh x y) as [Hnp _].
  pose proof (od_cells _ (Orderly_initializeGrid Hw Hh r) x y) as Hf.
  destruct (tag (initializeGrid r) x y); try done; auto.
Qed.

(** X30.  [addRandomCar] does nothing when there is no road; otherwise
    it appends exactly one car, which stands on an entry of the road
    sequence, with that entry's index as its road index and a direction
    in 0..3, and it changes nothing else but the engine. *)
Theorem added_car_stands_on_a_road s :
  (roads s = [] -> addRandomCar s = s)
  /\ (roads s <> [] ->
      exists car i x y,
        cars (addRandomCar s) = cars s ++ [car]
        /\ roads s !! i = Some (x, y)
        /\ roadIndex car = Z.of_nat i
        /\ car_x car = of_int x /\ car_y car = of_int y
        /\ 0 <= direction car <= 3
        /\ grid (addRandomCar s) = grid s
        /\ buildings (addRandomCar s) = buildings s
        /\ roads (addRandomCar s) = roads s
        /\ waterCells (addRandomCar s) = waterCells s
        /\ currentStep (addRandomCar s) = currentStep s).
Proof.
  split.
  - intros Hr. unfold addRandomCar. by rewrite Hr.
  - intros Hr.
    destruct (addRandomCar_spec s Hr) as (i & x & y & g & dir & col & r & Hi & Hd & ->).
    exists (mkCar (of_int x) (of_int y) (dist_speed g) dir (Z.of_nat i) col), i, x, y.
    simpl. repeat split; try done; lia.
Qed.

End MoreRunFacts.

(** ** A city without roads *)

Section RoadlessFacts.
Context {D : Dim} {FO : FloatOps}.

Lemma matureCell_unplaced x y s :
  isPlaced (tag s x y) = false ->
  matureCell x y s
  = if isBuilt (tag s x y)
    then setRecord x y (withAge (age (record s x y) + 1) (record s x y)) s
    else s.
Proof.
  intros Hp. unfold matureCell. destruct (isBuilt (tag s x y)); [|done].
  set (s1 := setRecord x y _ s).
  change (tag s1 x y) with (tag s x y).
  assert (bool_decide (tag s x y = RESIDENTIAL) = false
          /\ bool_decide (tag s x y = COMMERCIAL) = false
          /\ bool_decide (tag s x y = INDUSTRIAL) = false) as (H1 & H2 & H3)
    by (by destruct (tag s x y)).
  rewrite H1, H2, H3. cbn [orb].
  assert ((if (Z.rem (age (record s1 x y)) 20 =? 0) && (density (record s1 x y) <? 3)
           then s1 else s1) = s1) as -> by by destruct (_ && _).
  cbv zeta. change (tag s1 x y) with (tag s x y).
  by rewrite H1, andb_false_r.
Qed.

Lemma matureBuildings_unplaced s :
  (forall x y, isPlaced (tag s x y) = false) ->
  grid (matureBuildings s) = grid s /\ rng (matureBuildings s) = rng s
  /\ roads (matureBuildings s) = roads s /\ cars (matureBuildings s) = cars s
  /\ waterCells (matureBuildings s) = waterCells s
  /\ currentStep (matureBuildings s) = currentStep s.
Proof.
  intros Hp. unfold matureBuildings. rewrite (foldl_grid matureCell).
  apply (foldl_preserves (fun s1 =>
    grid s1 = grid s /\ rng s1 = rng s /\ roads s1 = roads s /\ cars s1 = cars s
    /\ waterCells s1 = waterCells s /\ currentStep s1 = currentStep s));
    [|done].
  intros s1 [x y] _ (Eg & Er & Ero & Ec & Ew & Es). simpl.
  rewrite matureCell_unplaced by (rewrite (tag_same_grid s s1) by done; apply Hp).
  by destruct (isBuilt (tag s1 x y)).
Qed.

Lemma aged_record (b b' : Building) t :
  matured t b b' -> t <> RESIDENTIAL -> t <> COMMERCIAL -> t <> INDUSTRIAL ->
  b' = withAge (age b + 1) b.
Proof.
  intros (Ety & Ea & Est & Ev & Ec & Ed & Etr) H1 H2 H3.
  destruct Ed as [Ed|(_ & _ & _ & [?|[?|?]])]; try done.
  destruct Etr as [Etr|(_ & _ & ? & _)]; try done.
  destruct b, b'. simpl in *. by subst.
Qed.

(** C3, as the code has it.  In a state of a run whose road sequence is
    empty, [updateCars] returns the state as it is, and [growCity]
    places no building, adds no road and draws nothing from the engine:
    the grid, the road sequence, the cars, the water sequence, the step
    counter and the engine are as before, and the record of every cell
    that carries no building is as before.  The only cells that carry a
    building are forest and farm cells, and the one change [growCity]
    makes is that the age of each of their records goes up by one. *)
Theorem no_roads_no_growth s :
  0 < GRID_WIDTH -> 0 < GRID_HEIGHT -> reachable s -> roads s = [] ->
  updateCars s = s
  /\ grid (growCity s).1 = grid s
  /\ roads (growCity s).1 = []
  /\ cars (growCity s).1 = cars s
  /\ waterCells (growCity s).1 = waterCells s
  /\ currentStep (growCity s).1 = currentStep s
  /\ rng (growCity s).1 = rng s
  /\ (forall x y, b_type (record (growCity s).1 x y) = b_type (record s x y))
  /\ (forall x y, isBuilt (tag s x y) = false ->
        record (growCity s).1 x y = record s x y)
  /\ (forall x y, isBuilt (tag s x y) = true ->
        (tag s x y = FOREST \/ tag s x y = FARM)
        /\ record (growCity s).1 x y
           = withAge (age (record s x y) + 1) (record s x y)).
Proof.
  intros Hw Hh Hreach Hr.
  pose proof (reachable_Orderly Hw Hh s Hreach) as HO.
  pose proof (od_inv _ HO) as HI.
  assert (forall x y, isPlaced (tag s x y) = false) as Hnp.
  { intros x y. destruct (isPlaced (tag s x y)) eqn:Hp; [|done].
    apply (od_access _ HO), nearRoad_spec in Hp as (n & _ & _ & Hn).
    by apply (no_road_tags s HI Hr) in Hn. }
  split; [unfold updateCars; by rewrite Hr|].
  destruct (matureBuildings_unplaced s Hnp) as (Eg & Er & Ero & Ec & Ewc & Es).
  destruct (matureBuildings_spec s (inv_bld _ HI)) as [_ Hm].
  destruct (MatInv_matureBuildings s HI) as [HI2 _ _ _ _ _].
  assert ((growCity s).1 = matureBuildings s) as ->.
  { unfold growCity.
    rewrite placeBuildings_no_spots by (unfold buildingSpots; by rewrite Hr).
    rewrite set_rng_same.
    destruct (Z.rem (currentStep (matureBuildings s)) 10 =? 0); simpl; [|done].
    rewrite extendRoads_no_spots; [apply set_rng_same|].
    apply roadSpots_no_roads, no_road_tags; [done|]. by rewrite Ero. }
  split; [done|]. split; [by rewrite Ero|]. split; [done|]. split; [done|].
  split; [done|]. split; [done|].
  assert (forall x y, isBuilt (tag s x y) = true ->
            (tag s x y = FOREST \/ tag s x y = FARM)
            /\ record (matureBuildings s) x y
               = withAge (age (record s x y) + 1) (record s x y)) as Hbuilt.
  { intros x y Hb. pose proof (built_inGrid s x y HI Hb) as Hin.
    specialize (Hm x y). rewrite decide_True in Hm by done.
    pose proof (od_cells _ HO x y) as Hf. specialize (Hnp x y).
    split; [destruct (tag s x y); try done; auto|].
    apply (aged_record _ _ (tag s x y)); [done|..];
      intros E; by rewrite E in Hnp. }
  split; [|split; [|exact Hbuilt]].
  - intros x y. destruct (isBuilt (tag s x y)) eqn:Hb.
    + by rewrite (proj2 (Hbuilt x y Hb)).
    + specialize (Hm x y). rewrite decide_False in Hm by (intros [_ ?]; congruence).
      by rewrite Hm.
  - intros x y Hb. specialize (Hm x y).
    by rewrite decide_False in Hm by (intros [_ ?]; congruence).
Qed.

End RoadlessFacts.

Section FirstBuilding.
Context {D : Dim} {FO : FloatOps}.

(** In the first 50 steps [growCity] admits one candidate if there is
    one, and that cell carries a placed building afterwards. *)
Lemma growCity_first_building s :
  Inv s -> 0 <= currentStep s < 50 -> (0 < length (buildingSpots s))%nat ->
  exists c, c ∈ buildingSpots s /\ isPlaced (tag (growCity s).1 c.1 c.2) = true.
Proof.
  intros HI Hstep Hlen.
  assert (exists c, newBuildings s = [c]) as [[x y] Hnew].
  { unfold newBuildings.
    pose proof (shuffle_length (buildingSpots s) (rng s)) as Hl.
    rewrite Z.quot_small by lia.
    replace (Z.to_nat (Z.min (1 + 0) (Z.of_nat (length (buildingSpots s)))))
      with 1%nat by lia.
    destruct ((shuffle (buildingSpots s) (rng s)).1) as [|c l];
      [simpl in Hl; lia|]. by exists c. }
  assert ((x, y) ∈ buildingSpots s) as Hc.
  { apply elem_of_newBuildings. rewrite Hnew. apply list_elem_of_here. }
  exists (x, y). split; [exact Hc|].
  apply buildingSpots_spec in Hc as (Hin & He & _). simpl in Hin, He.
  set (s0 := set_rng (shuffle (buildingSpots s) (rng s)).2 s).
  assert (Inv s0) as HI0 by by apply Inv_set_rng.
  assert (placeBuildings s = placeBuilding s0 (x, y)) as Hplace
    by (rewrite placeBuildings_eq, Hnew; reflexivity).
  assert (isPlaced (tag (placeBuildings s) x y) = true) as Hp.
  { rewrite Hplace, (placeBuilding_tags s0 x y HI0 Hin), decide_True by done.
    apply chooseType_placed. }
  destruct (PlaceInv_placeBuildings s HI) as [HI1 _ _ _].
  destruct (MatInv_matureBuildings _ HI1) as [HI2 _ Hg _ _ _].
  unfold growCity. cbv zeta.
  set (s2 := matureBuildings (placeBuildings s)) in *.
  assert (isPlaced (tag s2 x y) = true) as Hp2
    by by rewrite (tag_same_grid (placeBuildings s) s2).
  destruct (_ =? 0); simpl; [|done].
  destruct (extendRoads_spec s2 HI2) as (_ & _ & _ & Et). rewrite Et.
  case_decide as Hin2; [|done].
  apply elem_of_newRoads, roadSpots_spec in Hin2 as (_ & He2 & _).
  simpl in He2. by rewrite He2 in Hp2.
Qed.

End FirstBuilding.

(** ** The end-to-end scenario on the 10x10 grid *)

Section RowRoad.
#[local] Existing Instance smallDim.
#[local] Existing Instance ExactFloat.

(** C8.  On the 10x10 grid whose only cells that are not empty are the
    road along row 5, with the step counter at 0, the scan collects the
    20 cells above and below the road as candidates, every one of them an
    empty cell of the grid with a Road cell as one of its four
    neighbours, and one call of [growCity] leaves exactly min(1, number
    of candidates) = 1 cell with a building, a Residential, Commercial,
    Industrial or Park cell on one of the candidates. *)
Theorem one_building_next_to_the_row_road cs r :
  let s := rowRoad cs r in
  grid s = replicate 10 (replicate 5 EMPTY ++ ROAD :: replicate 4 EMPTY)
  /\ roads s = (fun x => (x, 5)) <$> seqZ 0 10
  /\ currentStep s = 0
  /\ builtCount s = 0
  /\ builtCount (growCity s).1
     = Z.min 1 (Z.of_nat (length (buildingSpots s)))
  /\ (forall c, c ∈ buildingSpots s ->
        inGrid c.1 c.2 /\ tag s c.1 c.2 = EMPTY
        /\ exists n, inGrid n.1 n.2 /\ tag s n.1 n.2 = ROAD
                     /\ adjacent4 c n)
  /\ buildingSpots s = (x ← seqZ 0 10; [(x, 6); (x, 4)])
  /\ length (buildingSpots s) = 20%nat
  /\ builtCount (growCity s).1 = 1
  /\ (exists c, c ∈ buildingSpots s
                /\ isPlaced (tag (growCity s).1 c.1 c.2) = true).
Proof.
  intros s.
  assert (Inv s) as HI.
  { apply Inv_set_cars. apply foldl_preserves; [|apply Inv_blank].
    intros s1 x Hx%elem_of_seqZ_1 HI1. case_bool_decide as Ht; [|done].
    apply Inv_claimRoad; auto. split; simpl; lia. }
  assert (builtCount s = 0) as H0 by reflexivity.
  assert (buildingSpots s = (x ← seqZ 0 10; [(x, 6); (x, 4)])) as Hspots
    by reflexivity.
  assert (builtCount (growCity s).1
          = Z.min 1 (Z.of_nat (length (buildingSpots s)))) as Hcount.
  { rewrite growCity_builtCount; [by rewrite H0|exact HI|].
    change (currentStep s) with 0. lia. }
  split; [reflexivity|]. split; [reflexivity|]. split; [reflexivity|].
  split; [exact H0|]. split; [exact Hcount|]. split.
  { intros c Hc. by apply buildingSpots_next_to_road. }
  assert (length (buildingSpots s) = 20%nat) as Hlen by (rewrite Hspots; reflexivity).
  split; [exact Hspots|]. split; [exact Hlen|].
  split; [rewrite Hcount, Hlen; reflexivity|].
  apply growCity_first_building; [exact HI|change (currentStep s) with 0; lia|].
  rewrite Hlen. lia.
Qed.

End RowRoad.

Section RunAtSourceSize.
#[local] Existing Instance sourceDim.
#[local] Existing Instance ExactFloat.

Lemma Inv_city0 : Inv city0.
Proof. apply reachable_Inv; [reflexivity|reflexivity|exact reachable_city0]. Qed.

Lemma reachable_cityWithBlockedCar : reachable cityWithBlockedCar.
Proof.
  unfold cityWithBlockedCar, city0.
  apply reachable_run; [reflexivity|reflexivity|vm_compute; discriminate].
Qed.

Lemma ticks_cityAfter n :
  Z.of_nat n <= MAX_SIMULATION_STEPS -> ticks city0 (cityAfter n).
Proof.
  intros Hn. unfold cityAfter. apply ticks_run. unfold city0.
  rewrite currentStep_initializeGrid by reflexivity. by rewrite length_replicate.
Qed.

Lemma records_agree_with_tags_witness :
  reachable city0
  /\ tag city0 5 7 <> POWER_PLANT /\ tag city0 5 7 <> GOVERNMENT
  /\ (isBuilt (tag city0 5 7) = true -> b_type (record city0 5 7) = tag city0 5 7)
  /\ (isBuilt (tag city0 5 7) = false -> record city0 5 7 = emptyBuilding).
Proof.
  split; [exact reachable_city0|].
  apply (records_agree_with_tags city0 5 7);
    [reflexivity|reflexivity|exact reachable_city0].
Defined.

Lemma record_fields_stay_in_range_witness :
  reachable (cityAfter 1)
  /\ let b := record (cityAfter 1) 35 1 in
     hasCar b = false /\ 0 <= age b /\ 0 <= variant b <= 4 /\ 0 <= density b <= 3
     /\ (isPlaced (tag (cityAfter 1) 35 1) = true ->
         1 <= density b /\ 20 * (density b - 1) <= age b)
     /\ (tag (cityAfter 1) 35 1 = PARK -> density b = 1)
     /\ (isPlaced (tag (cityAfter 1) 35 1) = false ->
         density b = 0 /\ variant b <= 2 /\ hasTree b = false /\ style b = BASIC).
Proof.
  assert (reachable (cityAfter 1)) as Hr
    by (apply reachable_cityAfter; vm_compute; discriminate).
  split; [exact Hr|].
  apply (record_fields_stay_in_range (cityAfter 1) 35 1);
    [reflexivity|reflexivity|exact Hr].
Defined.

Lemma water_sequence_lists_water_cells_witness :
  reachable city0
  /\ NoDup (waterCells city0)
  /\ forall x y, (x, y) ∈ waterCells city0 <-> inGrid x y /\ tag city0 x y = WATER.
Proof.
  split; [exact reachable_city0|].
  apply (water_sequence_lists_water_cells city0);
    [reflexivity|reflexivity|exact reachable_city0].
Defined.

Lemma buildings_have_road_access_witness :
  isPlaced (tag (cityAfter 1) 35 1) = true
  /\ exists n, adjacent4 (35, 1) n /\ inGrid n.1 n.2 /\ tag (cityAfter 1) n.1 n.2 = ROAD.
Proof.
  assert (isPlaced (tag (cityAfter 1) 35 1) = true) as Hp by (vm_compute; reflexivity).
  split; [exact Hp|].
  apply (buildings_have_road_access (cityAfter 1) 35 1);
    [reflexivity|reflexivity| |exact Hp].
  apply reachable_cityAfter. vm_compute. discriminate.
Defined.

Lemma cars_are_well_formed_witness :
  blockedCar ∈ cars cityWithBlockedCar
  /\ 0 <= direction blockedCar <= 3
  /\ 0 <= roadIndex blockedCar < Z.of_nat (length (roads cityWithBlockedCar))
  /\ exists r g b, color blockedCar = (r, g, b, 255)
       /\ 150 <= r <= 250 /\ 150 <= g <= 250 /\ 150 <= b <= 250.
Proof.
  assert (blockedCar ∈ cars cityWithBlockedCar) as Hc.
  { apply (list_elem_of_lookup_2 _ 15%nat). vm_compute. reflexivity. }
  split; [exact Hc|].
  apply (cars_are_well_formed cityWithBlockedCar blockedCar);
    [reflexivity|reflexivity|exact reachable_cityWithBlockedCar|exact Hc].
Defined.

Lemma roads_only_grow_witness :
  ticks city0 (cityAfter 30)
  /\ roads city0 `prefix_of` roads (cityAfter 30)
  /\ forall i c, roads city0 !! i = Some c -> roads (cityAfter 30) !! i = Some c.
Proof.
  assert (ticks city0 (cityAfter 30)) as Ht
    by (apply ticks_cityAfter; vm_compute; discriminate).
  split; [exact Ht|].
  apply (roads_only_grow city0 (cityAfter 30)). exact Ht.
Defined.

Lemma road_extension_appends_witness :
  newRoads (cityAfter 30) = [(41, 42)]
  /\ roads (extendRoads (cityAfter 30)) = roads (cityAfter 30) ++ newRoads (cityAfter 30)
  /\ buildings (extendRoads (cityAfter 30)) = buildings (cityAfter 30)
  /\ (forall x y, tag (extendRoads (cityAfter 30)) x y
                  = if decide ((x, y) ∈ newRoads (cityAfter 30)) then ROAD
                    else tag (cityAfter 30) x y).
Proof.
  split; [vm_compute; reflexivity|].
  destruct (road_extension_appends (cityAfter 30)) as (Hr & _ & Hb & Ht & _).
  - apply reachable_Inv; [reflexivity|reflexivity|].
    apply reachable_cityAfter. vm_compute. discriminate.
  - vm_compute. discriminate.
  - split; [exact Hr|]. split; [exact Hb|exact Ht].
Defined.

Lemma cars_persist_witness :
  cars cityWithBlockedCar !! 15%nat = Some blockedCar
  /\ exists car', cars (run [[]] cityWithBlockedCar) !! 15%nat = Some car'
                  /\ speed car' = speed blockedCar /\ color car' = color blockedCar.
Proof.
  assert (cars cityWithBlockedCar !! 15%nat = Some blockedCar) as Hc
    by (vm_compute; reflexivity).
  split; [exact Hc|].
  apply (cars_persist cityWithBlockedCar (run [[]] cityWithBlockedCar) 15 blockedCar);
    [|exact Hc].
  apply ticks_run. vm_compute. discriminate.
Defined.

Lemma car_count_is_bounded_witness :
  reachable city0
  /\ Z.of_nat (length (cars city0)) <= Z.max 15 (Z.of_nat (length (roads city0)) / 5)
  /\ (roads city0 = [] -> cars city0 = [])
  /\ forall r, (length (cars city0)
                <= length (cars (simulationStep (set_rng r city0)).1)
                <= length (cars city0) + 1)%nat.
Proof.
  split; [exact reachable_city0|].
  apply (car_count_is_bounded city0);
    [reflexivity|reflexivity|exact reachable_city0].
Defined.


Lemma free_cars_move_straight_witness :
  roads city0 <> []
  /\ length (cars city0) = 15%nat
  /\ let s1 := set_rng (gen (rng city0)).2 (set_cars (straight <$> cars city0) city0) in
     updateCars city0
     = if ((gen (rng city0)).1 mod 100 <? 5)
          && (Z.of_nat (length (cars city0)) <? Z.of_nat (length (roads city0)) / 5)
       then addRandomCar s1 else s1.
Proof.
  assert (roads city0 <> []) as Hr by (vm_compute; discriminate).
  split; [exact Hr|]. split; [vm_compute; reflexivity|].
  apply (free_cars_move_straight city0); [exact Hr|].
  apply (bool_decide_unpack _). vm_compute. exact I.
Defined.

Lemma river_turn_stays_cardinal_witness :
  turnRiver 0 0 = (0 + 0 mod 3 - 1) mod 4 /\ 0 <= turnRiver 0 0 <= 3.
Proof. apply (river_turn_stays_cardinal 0 0). lia. Defined.

Lemma radius_count_is_bounded_witness :
  0 <= countNeighborsOfTypeInRadius city0 5 7 WATER 3 <= (2 * 3 + 1) * (2 * 3 + 1) - 1
  /\ (0 < countNeighborsOfTypeInRadius city0 5 7 WATER 3 <->
      exists i j, - 3 <= i <= 3 /\ - 3 <= j <= 3 /\ (i, j) <> (0, 0)
                  /\ inGrid (5 + i) (7 + j) /\ tag city0 (5 + i) (7 + j) = WATER).
Proof. apply (radius_count_is_bounded city0 5 7 WATER 3). lia. Defined.

Lemma initial_city_has_no_buildings_witness :
  let s := city0 in
  currentStep s = 0
  /\ (tag s 5 7 = EMPTY \/ tag s 5 7 = ROAD \/ tag s 5 7 = WATER
      \/ tag s 5 7 = FOREST \/ tag s 5 7 = FARM)
  /\ age (record s 5 7) = 0 /\ density (record s 5 7) = 0
  /\ length (cars s) = if decide (roads s = []) then 0%nat else 15%nat.
Proof.
  unfold city0.
  apply (initial_city_has_no_buildings [] 5 7); reflexivity.
Defined.

Lemma growth_builds_within_budget_witness :
  length (buildingSpots city0) = 251%nat
  /\ Z.min 1 (Z.of_nat (length (buildingSpots city0)))
     <= builtCount (growCity city0).1 - builtCount city0
     <= Z.min (1 + Z.quot (currentStep city0) 50)
              (Z.of_nat (length (buildingSpots city0))).
Proof.
  split; [vm_compute; reflexivity|].
  apply (growth_builds_within_budget city0); [exact Inv_city0|].
  vm_compute. discriminate.
Defined.

Lemma maturation_ages_by_one_witness :
  grid (matureBuildings city0) = grid city0
  /\ (inGrid 5 7 -> isBuilt (tag city0 5 7) = true ->
      matured (tag city0 5 7) (record city0 5 7) (record (matureBuildings city0) 5 7))
  /\ (isBuilt (tag city0 5 7) = false ->
      record (matureBuildings city0) 5 7 = record city0 5 7).
Proof. apply (maturation_ages_by_one city0 5 7). exact Inv_city0. Defined.

Lemma ages_follow_the_growth_cadence_witness :
  isBuilt (tag (cityAfter 4) 5 7) = true
  /\ age (record (cityAfter 4) 5 7) <= growthCalls (currentStep (cityAfter 4))
  /\ (isPlaced (tag (cityAfter 4) 5 7) = false ->
      age (record (cityAfter 4) 5 7) = growthCalls (currentStep (cityAfter 4)))
  /\ 20 * (density (record (cityAfter 4) 5 7) - 1)
     <= growthCalls (currentStep (cityAfter 4)).
Proof.
  assert (isBuilt (tag (cityAfter 4) 5 7) = true) as Hb by (vm_compute; reflexivity).
  split; [exact Hb|].
  apply (ages_follow_the_growth_cadence (cityAfter 4) 5 7);
    [reflexivity|reflexivity| |exact Hb].
  apply reachable_cityAfter. vm_compute. discriminate.
Defined.

Lemma arterial_roads_leave_no_gap_witness :
  inGrid 0 22
  /\ (tag city0 0 22 = ROAD \/ tag city0 0 22 = WATER
      \/ tag city0 0 22 = FOREST \/ tag city0 0 22 = FARM).
Proof.
  assert (inGrid 0 22) as Hin by (vm_compute; intuition discriminate).
  split; [exact Hin|].
  apply (arterial_roads_leave_no_gap city0 0 22);
    [reflexivity|reflexivity|exact reachable_city0|exact Hin|left; reflexivity].
Defined.

Lemma building_colours_do_not_wrap_witness :
  isBuilt (tag (cityAfter 1) 35 1) = true
  /\ let c := getBuildingColor (record (cityAfter 1) 35 1) in
     c = buildingColor id (record (cityAfter 1) 35 1)
     /\ c_a c = 255
     /\ 0 <= c_r c <= 255 /\ 0 <= c_g c <= 255 /\ 0 <= c_b c <= 255
     /\ (isPlaced (tag (cityAfter 1) 35 1) = true -> tag (cityAfter 1) 35 1 <> PARK ->
         50 <= c_r c /\ 50 <= c_g c /\ 50 <= c_b c).
Proof.
  assert (isBuilt (tag (cityAfter 1) 35 1) = true) as Hb by (vm_compute; reflexivity).
  split; [exact Hb|].
  apply (building_colours_do_not_wrap (cityAfter 1) 35 1);
    [reflexivity|reflexivity| |exact Hb].
  apply reachable_cityAfter. vm_compute. discriminate.
Defined.

Lemma every_cell_is_painted_witness :
  inGrid 5 7
  /\ (exists pre post,
        drawGrid city0 (initializeWaterAnimation anim0)
        = pre ++ cellCalls city0 (initializeWaterAnimation anim0) 5 7
              ++ post ++ drawCars city0)
  /\ (exists r g b rest,
        cellCalls city0 (initializeWaterAnimation anim0) 5 7
        = SetRenderDrawColor r g b 255
          :: RenderFillRect (5 * CELL_SIZE) (7 * CELL_SIZE) CELL_SIZE CELL_SIZE
          :: rest)
  /\ RenderFillRect (5 * CELL_SIZE) (7 * CELL_SIZE) CELL_SIZE CELL_SIZE
     ∈ drawGrid city0 (initializeWaterAnimation anim0).
Proof.
  assert (inGrid 5 7) as Hin by (vm_compute; intuition discriminate).
  split; [exact Hin|].
  apply (every_cell_is_painted city0 (initializeWaterAnimation anim0) 5 7);
    [reflexivity|reflexivity|exact reachable_city0|exact Hin].
Defined.

Lemma main_loop_presents_states_of_a_run_witness :
  let fs := [mkFrame [SDL_OTHER] 100 100] in
  let w := initializeWorld [] in
  w ∈ (mainLoop fs false 0 w).1
  /\ reachable (sim w)
  /\ 0 <= currentStep (sim w) <= MAX_SIMULATION_STEPS
  /\ (exists clock, anim w = animAfter clock)
  /\ (length (mainLoop fs false 0 w).1 <= length fs)%nat.
Proof.
  intros fs w.
  assert (w ∈ (mainLoop fs false 0 w).1) as Hw.
  { assert (forall w0 : World, currentStep (sim w0) = 0 ->
                               w0 ∈ (mainLoop fs false 0 w0).1) as Hidle.
    { intros w0 H0. simpl. rewrite H0. simpl. apply list_elem_of_here. }
    apply Hidle. unfold w. change (sim (initializeWorld [])) with (initializeGrid []).
    apply currentStep_initializeGrid; reflexivity. }
  split; [exact Hw|].
  apply (main_loop_presents_states_of_a_run [] fs 0 w); [reflexivity|reflexivity|exact Hw].
Defined.

Lemma main_loop_steps_at_most_once_per_frame_witness :
  let fs := [mkFrame [] 300 300] in
  let w := mkWorld (blank []) anim0 in
  (w :: (mainLoop fs false 0 w).1) !! 1%nat = Some (stepWorld 300 w)
  /\ (sim (stepWorld 300 w) = sim w
      \/ sim (stepWorld 300 w) = (simulationStep (sim w)).1).
Proof.
  intros fs w.
  assert ((w :: (mainLoop fs false 0 w).1) !! 1%nat = Some (stepWorld 300 w)) as H1
    by (vm_compute; reflexivity).
  split; [exact H1|].
  apply (main_loop_steps_at_most_once_per_frame fs false 0 w 0 w (stepWorld 300 w));
    [reflexivity|exact H1].
Defined.

Lemma main_loop_stops_on_quit_witness :
  let f := mkFrame [SDL_OTHER; SDL_KEYDOWN 27] 300 300 in
  let fs2 := [mkFrame [] 600 600] in
  let w := mkWorld (blank []) anim0 in
  asksToQuit (events f)
  /\ currentStep (sim w) < MAX_SIMULATION_STEPS
  /\ mainLoop (f :: fs2) false 0 w = ([stepWorld 300 w], true)
  /\ mainLoop ([] ++ f :: fs2) false 0 w = mainLoop ([] ++ [f]) false 0 w.
Proof.
  intros f fs2 w.
  assert (asksToQuit (events f)) as Hq.
  { right. apply list_elem_of_further, list_elem_of_here. }
  assert (currentStep (sim w) < MAX_SIMULATION_STEPS) as Hs by reflexivity.
  split; [exact Hq|]. split; [exact Hs|].
  pose proof (main_loop_stops_on_quit [] f fs2 0 w Hq) as H.
  cbv zeta in H. destruct H as (_ & _ & Hsame & _ & _ & Hpass).
  split; [exact (Hpass Hs)|exact Hsame].
Defined.

Lemma no_roads_no_growth_witness :
  roads roadlessCity = []
  /\ updateCars roadlessCity = roadlessCity
  /\ grid (growCity roadlessCity).1 = grid roadlessCity
  /\ rng (growCity roadlessCity).1 = rng roadlessCity
  /\ isBuilt (tag roadlessCity 40 20) = true
  /\ record (growCity roadlessCity).1 40 20
     = withAge (age (record roadlessCity 40 20) + 1) (record roadlessCity 40 20).
Proof.
  assert (roads roadlessCity = []) as Hr by (vm_compute; reflexivity).
  assert (isBuilt (tag roadlessCity 40 20) = true) as Hb by (vm_compute; reflexivity).
  split; [exact Hr|].
  destruct (no_roads_no_growth roadlessCity)
    as (Hu & Hg & _ & _ & _ & _ & Hrng & _ & _ & Hrec);
    [reflexivity|reflexivity|exact reachable_roadlessCity|exact Hr|].
  split; [exact Hu|]. split; [exact Hg|]. split; [exact Hrng|].
  split; [exact Hb|]. exact (proj2 (Hrec 40 20 Hb)).
Defined.

End RunAtSourceSize.

Section RenderingExamples.

Lemma water_animation_advances_witness :
  updateWaterAnimation 100 (mkAnim [] 4294967000 7)
  = if 200 <? elapsed 4294967000 100
    then mkAnim [] 100 ((7 + 1) mod WATER_ANIM_PHASES)
    else mkAnim [] 4294967000 7.
Proof.
  apply (water_animation_advances (mkAnim [] 4294967000 7) 100);
    simpl; unfold WATER_ANIM_PHASES; lia.
Defined.

Lemma denser_buildings_are_darker_witness :
  let b := mkBuilding COMMERCIAL 1 0 MODERN 4 false false in
  let c := getBuildingColor (withDensity 1 b) in
  let c' := getBuildingColor (withDensity 3 b) in
  c_r c' <= c_r c /\ c_g c' <= c_g c /\ c_b c' <= c_b c.
Proof.
  intros b.
  apply (denser_buildings_are_darker b 1 3);
    [right; left; reflexivity|simpl; lia|lia|lia|lia].
Defined.

End RenderingExamples.
